(** * EV Station Finder: the response cache, the station-directory client,
      the geolocation and permission hooks, the distance utility, the maps
      loader and the maps helpers

    A shallow embedding of [lib/api.ts] ([ApiClient], [ApiCache]), of the
    hooks [useGeolocation], [useDistanceCalculation] and
    [useLocationPermission], of [lib/google-maps] ([loadGoogleMaps] and the
    helpers around the SDK's services) and of the messages of
    [lib/constants].

    Conventions.  A JavaScript number is an IEEE 754 binary64 value
    ([PrimFloat.float]) and arithmetic on it is the primitive arithmetic; a
    string is held as UTF-8 text; a reading of [Date.now()] is an integer;
    a value of type [any] is a
    [Js.value]; code that may throw, and a promise that may reject, is an
    [Js.outcome]; an optional property is an [option].  What the engine and
    the browser supply is a parameter: the class [Js.Engine], the network
    [fetch], the presence of [navigator.geolocation] and of
    [navigator.permissions], and the services of the maps SDK.

    Part I holds the model and the vocabulary of the properties, Part II
    the properties. *)

From Stdlib Require Import ZArith String Ascii List Bool Lia Floats DecimalString.
From stdpp Require Import gmap strings.
Import ListNotations.

Set Warnings "-register-all".

Local Open Scope Z_scope.
Local Open Scope string_scope.

(** * Part I: the model *)

(** ** JavaScript values *)

Module Js.

(** The values that flow through [any]-typed positions: decoded JSON
    payloads, query parameters and cached data. *)
Inductive value : Type :=
| VUndefined
| VNull
| VBool (b : bool)
| VNum (x : float)
| VStr (s : string)
| VArr (items : list value)
| VObj (fields : list (string * value)).

(** What a [throw] carries: an [Error] instance with its message, or any
    other value. *)
Inductive thrown : Type :=
| ErrorObj (message : string)
| NonError (v : value).

(** The outcome of running a piece of code that may throw, or of awaiting
    a promise that may reject. *)
Inductive outcome (A : Type) : Type :=
| Returned (a : A)
| Threw (t : thrown).

Arguments Returned {A} a.
Arguments Threw {A} t.

(** Sequencing of code that may throw: [x ← m; k] runs [k] on the result
    of [m] and propagates what [m] throws. *)
#[global] Instance outcome_ret : MRet outcome := fun _ a => Returned a.
#[global] Instance outcome_bind : MBind outcome := fun _ _ k m =>
  match m with
  | Returned a => k a
  | Threw t => Threw t
  end.

(** [try { body } catch (error) { handler }] *)
Definition try_catch {A : Type} (body : outcome A) (handler : thrown -> outcome A)
  : outcome A :=
  match body with
  | Returned a => Returned a
  | Threw t => handler t
  end.

(** What the JavaScript engine supplies and ECMA-262 leaves to the
    implementation: number printing and parsing, the text of the engine's
    own [TypeError]s, and the approximated functions of [Math]. *)
Class Engine : Type := {
  numberToString : float -> string;
  stringToNumber : string -> float;
  typeErrorMessage : string;
  Math_sin : float -> float;
  Math_cos : float -> float;
  Math_atan2 : float -> float -> float
}.

(** Decimal digits of a non-negative integer. *)
Definition decimal (n : Z) : string :=
  NilZero.string_of_uint (N.to_uint (Z.to_N n)).

(** Truthiness of a number: every number but [0], [-0] and [NaN]. *)
Definition truthy_number (x : float) : bool := negb (is_zero x || is_nan x).

(** A string is held as UTF-8 text, a surrogate without its pair as the
    three bytes of its own code point.  [code_unit0 s] is the string of the
    first UTF-16 code unit of [s]: the first character when it lies in the
    basic plane (one, two or three bytes), and the high surrogate of the
    first character when it lies beyond (four bytes). *)
Definition byte (a : ascii) : Z := Z.of_N (N_of_ascii a).

Definition char (b : Z) : ascii := ascii_of_N (Z.to_N b).

(** The code point that four bytes hold. *)
Definition code_point4 (b1 b2 b3 b4 : Z) : Z :=
  Z.lor (Z.shiftl (Z.land b1 0x07) 18)
    (Z.lor (Z.shiftl (Z.land b2 0x3F) 12)
       (Z.lor (Z.shiftl (Z.land b3 0x3F) 6) (Z.land b4 0x3F))).

(** The first code unit of a code point beyond the basic plane. *)
Definition high_surrogate (cp : Z) : Z := Z.shiftr (cp - 0x10000) 10 + 0xD800.

(** The three bytes of a code unit from [0x800]. *)
Definition utf8_3 (u : Z) : string :=
  String (char (Z.lor 0xE0 (Z.shiftr u 12)))
    (String (char (Z.lor 0x80 (Z.land (Z.shiftr u 6) 0x3F)))
       (String (char (Z.lor 0x80 (Z.land u 0x3F))) "")).

Definition code_unit0 (s : string) : string :=
  match s with
  | String a1 rest =>
      if (byte a1 <? 0xC0)%Z then String a1 ""
      else if (byte a1 <? 0xE0)%Z then substring 0 2 s
      else if (byte a1 <? 0xF0)%Z then substring 0 3 s
      else
        match rest with
        | String a2 (String a3 (String a4 _)) =>
            utf8_3 (high_surrogate (code_point4 (byte a1) (byte a2) (byte a3) (byte a4)))
        | _ => s
        end
  | EmptyString => ""
  end.

(** Own property lookup on an object literal. *)
Fixpoint get_prop (key : string) (fields : list (string * value)) : option value :=
  match fields with
  | [] => None
  | (k, v) :: rest => if String.eqb k key then Some v else get_prop key rest
  end.

Definition has_prop (key : string) (fields : list (string * value)) : bool :=
  match get_prop key fields with Some _ => true | None => false end.

(** [obj[key] = v]: overwrite in place, or add as the last property. *)
Fixpoint set_prop (key : string) (v : value) (fields : list (string * value))
  : list (string * value) :=
  match fields with
  | [] => [(key, v)]
  | (k, w) :: rest =>
      if String.eqb k key then (k, v) :: rest else (k, w) :: set_prop key v rest
  end.

Fixpoint join (sep : string) (parts : list string) : string :=
  match parts with
  | [] => ""
  | [p] => p
  | p :: rest => p +:+ sep +:+ join sep rest
  end.

Section WithEngine.
Context {engine : Engine}.

Definition type_error {A : Type} : outcome A := Threw (ErrorObj typeErrorMessage).

(** The strings [Array.prototype.join] joins: [null] and [undefined] print
    as the empty string, any other element through [print]. *)
Definition elements (print : value -> outcome string)
  : list value -> outcome (list string) :=
  fix go (l : list value) : outcome (list string) :=
    match l with
    | [] => Returned []
    | item :: rest =>
        hd ← match item with
             | VUndefined | VNull => Returned ""
             | _ => print item
             end;
        tl ← go rest;
        Returned (hd :: tl)
    end.

(** [ToString(v)] for a value without functions: an object prints through
    [Object.prototype.toString] unless an own (non-callable) [toString]
    property shadows it; an array joins its elements. *)
Fixpoint to_string (v : value) : outcome string :=
  match v with
  | VUndefined => Returned "undefined"
  | VNull => Returned "null"
  | VBool b => Returned (if b then "true" else "false")
  | VNum x => Returned (numberToString x)
  | VStr s => Returned s
  | VArr items => parts ← elements to_string items; Returned (join "," parts)
  | VObj fields =>
      if has_prop "toString" fields then type_error
      else Returned "[object Object]"
  end.

(** The method call [v.toString()]. *)
Definition toString (v : value) : outcome string :=
  match v with
  | VUndefined | VNull => type_error
  | _ => to_string v
  end.

(** [ToNumber(v)] *)
Definition to_number (v : value) : outcome float :=
  match v with
  | VUndefined => Returned nan
  | VNull => Returned 0%float
  | VBool b => Returned (if b then 1%float else 0%float)
  | VNum x => Returned x
  | VStr s => Returned (stringToNumber s)
  | VArr _ | VObj _ => s ← to_string v; Returned (stringToNumber s)
  end.

(** The test [v.length > 0]: the length of an array or a string is its
    number of elements; any other value is compared through [ToNumber] of
    its own [length] property ([undefined > 0] is false). *)
Definition length_positive (v : value) : outcome bool :=
  match v with
  | VUndefined | VNull => type_error
  | VArr items => Returned (0 <? length items)%nat
  | VStr s => Returned (0 <? String.length s)%nat
  | VObj fields =>
      n ← to_number (default VUndefined (get_prop "length" fields));
      Returned (0 <? n)%float
  | VBool _ | VNum _ => Returned false
  end.

(** The element read [v[0]]; on a string, its first code unit. *)
Definition index0 (v : value) : outcome value :=
  match v with
  | VUndefined | VNull => type_error
  | VArr items => Returned (hd VUndefined items)
  | VStr EmptyString => Returned VUndefined
  | VStr s => Returned (VStr (code_unit0 s))
  | VObj fields => Returned (default VUndefined (get_prop "0" fields))
  | VBool _ | VNum _ => Returned VUndefined
  end.

End WithEngine.

(** An induction principle for [value] that reaches the elements of arrays
    and the fields of objects. *)
Fixpoint value_ind' (P : value -> Prop)
  (Hundef : P VUndefined) (Hnull : P VNull)
  (Hbool : forall b, P (VBool b)) (Hnum : forall x, P (VNum x))
  (Hstr : forall s, P (VStr s))
  (Harr : forall items, Forall P items -> P (VArr items))
  (Hobj : forall fields, Forall (fun kv => P (snd kv)) fields -> P (VObj fields))
  (v : value) {struct v} : P v :=
  match v with
  | VUndefined => Hundef
  | VNull => Hnull
  | VBool b => Hbool b
  | VNum x => Hnum x
  | VStr s => Hstr s
  | VArr items =>
      Harr items
        ((fix go (l : list value) : Forall P l :=
            match l with
            | [] => Forall_nil_2 P
            | x :: r =>
                Forall_cons_2 P x r
                  (value_ind' P Hundef Hnull Hbool Hnum Hstr Harr Hobj x) (go r)
            end) items)
  | VObj fields =>
      Hobj fields
        ((fix go (l : list (string * value)) : Forall (fun kv => P (snd kv)) l :=
            match l with
            | [] => Forall_nil_2 _
            | kv :: r =>
                Forall_cons_2 (fun kv => P (snd kv)) kv r
                  (value_ind' P Hundef Hnull Hbool Hnum Hstr Harr Hobj (snd kv)) (go r)
            end) fields)
  end.

End Js.

(** ** Response cache ([class ApiCache]) *)

Module ApiCache.
Import Js.

Record CacheItem : Type := { data : value; timestamp : Z }.

(** [private ttl = 5 * 60 * 1000] *)
Definition ttl : Z := 5 * 60 * 1000.

(** [set(key, data)]; [now] is the reading of [Date.now()]. *)
Definition set (key : string) (d : value) (now : Z)
  (cache : gmap string CacheItem) : gmap string CacheItem :=
  <[key := {| data := d; timestamp := now |}]> cache.

(** [get(key)]: the returned value and the cache afterwards. *)
Definition get (key : string) (now : Z)
  (cache : gmap string CacheItem) : value * gmap string CacheItem :=
  match cache !! key with
  | None => (VNull, cache)
  | Some item =>
      if now - timestamp item >? ttl
      then (VNull, delete key cache)
      else (data item, cache)
  end.

Definition clear (cache : gmap string CacheItem) : gmap string CacheItem := ∅.

Definition size (cache : gmap string CacheItem) : nat := base.size cache.

End ApiCache.


(** ** Distance utility ([useDistanceCalculation]) *)

Module Distance.
Import Js.

Local Open Scope float_scope.

(** [Math.PI] *)
Definition PI : float := 0x1.921fb54442d18p+1.

(** Neither NaN nor an infinity. *)
Definition is_finite (x : float) : bool :=
  match Prim2SF x with
  | S754_zero _ | S754_finite _ _ _ => true
  | S754_infinity _ | S754_nan => false
  end.

(** *** [Number.prototype.toFixed] (ECMA-262, 21.1.3.3) on the exact value
    of a binary64 number, for a digit count within 0..100 *)

(** The integer [n] for which [n / 10^f - m * 2^e] is as close to zero as
    possible, the larger [n] when there are two. *)
Definition nearest_scaled (m : positive) (e : Z) (f : nat) : Z :=
  let q := (Zpos m * 10 ^ Z.of_nat f)%Z in
  match e with
  | Zneg p => ((2 * q + 2 ^ Zpos p) / (2 * 2 ^ Zpos p))%Z
  | _ => (q * 2 ^ e)%Z
  end.

(** [m * 2^e >= 10^21] *)
Definition at_least_1e21 (m : positive) (e : Z) : bool :=
  match e with
  | Zneg p => (10 ^ 21 * 2 ^ Zpos p <=? Zpos m)%Z
  | _ => (10 ^ 21 <=? Zpos m * 2 ^ e)%Z
  end.

Fixpoint zeros (n : nat) : string :=
  match n with
  | O => EmptyString
  | S n' => String "0" (zeros n')
  end.

(** Steps 9-10 of [toFixed]: place the decimal point [f] digits from the
    right, padding with zeros on the left when there are too few digits. *)
Definition insert_point (digits : string) (f : nat) : string :=
  match f with
  | O => digits
  | S _ =>
      let k := String.length digits in
      let padded := if (k <=? f)%nat then zeros (f + 1 - k) +:+ digits else digits in
      let k := String.length padded in
      substring 0 (k - f) padded +:+ "." +:+ substring (k - f) f padded
  end%string.

Section Runtime.
Context {engine : Engine}.

(** [x.toFixed(f)]; above [10^21] the digits are those of
    [Number::toString]. *)
Definition toFixed (x : float) (f : nat) : string :=
  match Prim2SF x with
  | S754_nan => "NaN"
  | S754_infinity false => "Infinity"
  | S754_infinity true => "-Infinity"
  | S754_zero _ => insert_point "0" f
  | S754_finite s m e =>
      (if s then "-" else "") +:+
      (if at_least_1e21 m e then numberToString (abs x)
       else insert_point (decimal (nearest_scaled m e f)) f)
  end%string.

(** The haversine formula, operation by operation; [Math.sqrt] is the
    correctly rounded square root. *)
Definition calculateDistance (lat1 lon1 lat2 lon2 : float) : float :=
  let R := 3959 in
  let dLat := ((lat2 - lat1) * PI) / 180 in
  let dLon := ((lon2 - lon1) * PI) / 180 in
  let a :=
    Math_sin (dLat / 2) * Math_sin (dLat / 2) +
    Math_cos ((lat1 * PI) / 180) *
      Math_cos ((lat2 * PI) / 180) *
      Math_sin (dLon / 2) *
      Math_sin (dLon / 2) in
  let c := 2 * Math_atan2 (sqrt a) (sqrt (1 - a)) in
  R * c.

Definition formatDistance (distance : float) : string :=
  if distance <? 1 then
    (toFixed (distance * 5280) 0 +:+ " ft")%string
  else if distance <? 10 then
    (toFixed distance 1 +:+ " mi")%string
  else
    (toFixed distance 0 +:+ " mi")%string.

Definition isWithinRadius (lat1 lon1 lat2 lon2 radius : float) : bool :=
  let distance := calculateDistance lat1 lon1 lat2 lon2 in
  distance <=? radius.

End Runtime.

End Distance.


(** ** Messages ([ERROR_MESSAGES] of [lib/constants]) *)

Module ErrorMessages.
Definition NETWORK_ERROR := "Network connection failed. Please check your internet connection.".
Definition LOCATION_DENIED := "Location access denied. Please enable location services.".
Definition LOCATION_UNAVAILABLE := "Location services are not available on this device.".
Definition STATION_NOT_FOUND := "Station not found. Please try a different search.".
Definition INVALID_COORDINATES := "Invalid coordinates provided.".
Definition API_RATE_LIMITED := "Too many requests. Please wait a moment and try again.".
Definition MAPS_LOAD_FAILED := "Failed to load maps. Please refresh the page.".
Definition GENERIC_ERROR := "An unexpected error occurred. Please try again.".
End ErrorMessages.

(** ** Station-directory client ([class ApiClient]) *)

Module ApiClient.
Import Js ErrorMessages.

(** [OPEN_CHARGE_MAP_CONFIG]: the two entries read from the environment,
    and the constant ones. *)
Record Config : Type := {
  maxStationsPerRequest : float;
  defaultRadius : float
}.

Definition baseUrl : string := "https://api.openchargemap.io/v3".
Definition countryCode : string := "US".
Definition includeComments : bool := true.
Definition verbose : bool := false.

(** [SearchFilters]; an absent property is [None]. *)
Record PowerRange : Type := { min : option float; max : option float }.

Record Location : Type := { latitude : float; longitude : float }.

Record SearchFilters : Type := {
  f_location : option Location;
  f_radius : option float;
  f_connectionTypes : option (list float);
  f_levelIds : option (list float);
  f_statusTypes : option (list float);
  f_operatorIds : option (list float);
  f_countryCode : option string;
  f_maxResults : option float;
  f_openData : option bool;
  f_includeComments : option bool;
  f_powerKW : option PowerRange;
  f_usageTypeId : option float
}.


(** [ApiResponse<T>]; an absent property is [None]. *)
Record Meta : Type := { total : nat; page : nat; limit : float }.

Record ApiResponse : Type := {
  data : value;
  success : bool;
  message : option string;
  error : option string;
  meta : option Meta
}.

(** The request handed to [fetch]: the URL before its query, and the
    entries appended to [url.searchParams], in order. *)
Record Request : Type := {
  url : string;
  searchParams : list (string * string)
}.

(** What [fetch] resolves to: the status line and the outcome of
    [response.json()]. *)
Record Response : Type := {
  status : nat;
  statusText : string;
  json : outcome value
}.

(** [response.ok]: the status is in the range 200-299. *)
Definition ok (r : Response) : bool := ((200 <=? status r) && (status r <=? 299))%nat.

(** Truthiness tests and [||] defaults on optional filter properties. *)
Definition truthy_opt_number (o : option float) : option float :=
  match o with
  | Some x => if truthy_number x then Some x else None
  | None => None
  end.

Definition or_number (o : option float) (d : float) : float :=
  default d (truthy_opt_number o).

Definition or_string (o : option string) (d : string) : string :=
  match o with
  | Some EmptyString | None => d
  | Some s => s
  end.

Definition or_bool (o : option bool) (d : bool) : bool :=
  match o with
  | Some true => true
  | Some false | None => d
  end.

(** [list && list.length > 0] *)
Definition non_empty (o : option (list float)) : option (list float) :=
  match o with
  | Some (x :: l) => Some (x :: l)
  | Some [] | None => None
  end.

Definition numbers (l : list float) : value := VArr (map VNum l).

(** [if (cond) params[key] = v] *)
Definition set_when {A : Type} (o : option A) (key : string) (f : A -> value)
  (params : list (string * value)) : list (string * value) :=
  match o with
  | Some a => set_prop key (f a) params
  | None => params
  end.

Section Client.
Context {engine : Engine}.
Variable config : Config.
(** [this.apiKey] *)
Variable apiKey : option string.
(** The network: what [await fetch(url)] yields for each request. *)
Variable fetch : Request -> outcome Response.

(** One entry of [Object.entries(params).forEach(...)]. *)
Definition append_param (query : list (string * string)) (entry : string * value)
  : outcome (list (string * string)) :=
  let '(key, v) := entry in
  match v with
  | VUndefined | VNull | VStr EmptyString => Returned query
  | VArr items =>
      foldl (fun acc item =>
               q ← acc; s ← toString item; Returned (q ++ [(key, s)])%list)
            (Returned query) items
  | _ => s ← toString v; Returned (query ++ [(key, s)])%list
  end.

(** The search parameters of the URL: the key, then the parameters. *)
Definition build_query (params : option (list (string * value)))
  : outcome (list (string * string)) :=
  let with_key :=
    match apiKey with
    | Some (String c k) => [("key", String c k)]
    | Some EmptyString | None => []
    end in
  match params with
  | Some entries =>
      foldl (fun acc entry => q ← acc; append_param q entry) (Returned with_key) entries
  | None => Returned with_key
  end.

Definition failed (err : thrown) : ApiResponse :=
  {| data := VArr [];
     success := false;
     message := None;
     error := Some match err with
                   | ErrorObj m => m
                   | NonError _ => GENERIC_ERROR
                   end;
     meta := None |}.

Definition makeRequest (endpoint : string) (params : option (list (string * value)))
  : outcome ApiResponse :=
  try_catch
    (query ← build_query params;
     response ← fetch {| url := baseUrl +:+ endpoint; searchParams := query |};
     _ ← (if negb (ok response) then
            if (status response =? 429)%nat then
              Threw (ErrorObj API_RATE_LIMITED)
            else
              Threw (ErrorObj ("API Error: " +:+ decimal (Z.of_nat (status response))
                               +:+ " " +:+ statusText response))
          else Returned tt);
     payload ← json response;
     Returned
       {| data := payload;
          success := true;
          message := None;
          error := None;
          meta := Some {| total := match payload with
                                   | VArr items => length items
                                   | _ => 1%nat
                                   end;
                          page := 1;
                          limit := maxStationsPerRequest config |} |})
    (fun err => Returned (failed err)).

(** The [params] object that [searchStations] builds, block by block. *)
Definition base_params (filters : SearchFilters) : list (string * value) :=
  [ ("output", VStr "json");
    ("countrycode", VStr (or_string (f_countryCode filters) countryCode));
    ("maxresults", VNum (or_number (f_maxResults filters) (maxStationsPerRequest config)));
    ("compact", VBool (negb verbose));
    ("verbose", VBool verbose);
    ("includecomments", VBool (or_bool (f_includeComments filters) includeComments)) ].

(** Add location-based search *)
Definition add_location (filters : SearchFilters) (params : list (string * value))
  : list (string * value) :=
  match f_location filters with
  | Some loc =>
      set_prop "longitude" (VNum (longitude loc))
        (set_prop "latitude" (VNum (latitude loc)) params)
  | None => params
  end.

(** Add radius filter *)
Definition add_radius (filters : SearchFilters) (params : list (string * value))
  : list (string * value) :=
  match truthy_opt_number (f_radius filters) with
  | Some r => set_prop "distanceunit" (VStr "Miles") (set_prop "distance" (VNum r) params)
  | None => params
  end.

(** Add power filters *)
Definition add_power (filters : SearchFilters) (params : list (string * value))
  : list (string * value) :=
  match f_powerKW filters with
  | Some range =>
      set_when (truthy_opt_number (max range)) "maxpowerkw" VNum
        (set_when (truthy_opt_number (min range)) "minpowerkw" VNum params)
  | None => params
  end.

Definition searchStations_params (filters : SearchFilters) : list (string * value) :=
  let params := base_params filters in
  let params := add_location filters params in
  let params := add_radius filters params in
  let params := set_when (non_empty (f_connectionTypes filters)) "connectiontypeid" numbers params in
  let params := set_when (non_empty (f_levelIds filters)) "levelid" numbers params in
  let params := set_when (non_empty (f_statusTypes filters)) "statustypeid" numbers params in
  let params := set_when (non_empty (f_operatorIds filters)) "operatorid" numbers params in
  let params := add_power filters params in
  let params := set_when (truthy_opt_number (f_usageTypeId filters)) "usagetypeid" VNum params in
  let params := set_when (f_openData filters) "opendata" VBool params in
  params.

Definition searchStations (filters : SearchFilters) : outcome ApiResponse :=
  makeRequest "/poi" (Some (searchStations_params filters)).

(** The [params] object of [getStationById]. *)
Definition getStationById_params (id : float) : list (string * value) :=
  [ ("chargepointid", VNum id);
    ("includecomments", VBool true);
    ("verbose", VBool true) ].

Definition getStationById (id : float) : outcome ApiResponse :=
  response ← makeRequest "/poi" (Some (getStationById_params id));
  found ← (if success response then length_positive (data response)
           else Returned false);
  if found : bool then
    first ← index0 (data response);
    Returned {| data := first;
                success := success response;
                message := message response;
                error := error response;
                meta := meta response |}
  else
    Returned {| data := VObj [];
                success := false;
                message := None;
                error := Some STATION_NOT_FOUND;
                meta := None |}.

Definition getConnectionTypes : outcome ApiResponse := makeRequest "/connectiontypes" None.
Definition getOperators : outcome ApiResponse := makeRequest "/operators" None.
Definition getCountries : outcome ApiResponse := makeRequest "/countries" None.
Definition getUsageTypes : outcome ApiResponse := makeRequest "/usagetypes" None.
Definition getStatusTypes : outcome ApiResponse := makeRequest "/statustypes" None.

(** The exported helpers. *)
Definition searchNearbyStations (lat lon : float) (radius : option float)
  : outcome ApiResponse :=
  searchStations
    {| f_location := Some {| latitude := lat; longitude := lon |};
       f_radius := Some (default (defaultRadius config) radius);
       f_connectionTypes := None; f_levelIds := None;
       f_statusTypes := Some [10; 20; 50]%float;
       f_operatorIds := None; f_countryCode := None; f_maxResults := None;
       f_openData := None; f_includeComments := None; f_powerKW := None;
       f_usageTypeId := None |}.

Definition searchStationsByLocation (filters : SearchFilters) : outcome ApiResponse :=
  searchStations filters.

Definition getStationDetails (id : float) : outcome ApiResponse :=
  getStationById id.

End Client.

End ApiClient.


(** ** Geolocation hook ([useGeolocation]) *)

Module Geolocation.
Import Js ErrorMessages.

Record GeolocationState : Type := {
  latitude : option float;
  longitude : option float;
  accuracy : option float;
  error : option string;
  loading : bool
}.

(** [GeolocationOptions]; an absent property is [None]. *)
Record GeolocationOptions : Type := {
  enableHighAccuracy : option bool;
  timeout : option float;
  maximumAge : option float;
  watch : option bool
}.

Definition defaultOptions : GeolocationOptions :=
  {| enableHighAccuracy := Some true;
     timeout := Some 10000%float;
     maximumAge := Some 300000%float;
     watch := Some false |}.

(** [{ ...defaultOptions, ...options }] *)
Definition merge (base over : GeolocationOptions) : GeolocationOptions :=
  {| enableHighAccuracy := from_option Some (enableHighAccuracy base) (enableHighAccuracy over);
     timeout := from_option Some (timeout base) (timeout over);
     maximumAge := from_option Some (maximumAge base) (maximumAge over);
     watch := from_option Some (watch base) (watch over) |}.

(** [position.coords] *)
Record Coords : Type := {
  coords_latitude : float;
  coords_longitude : float;
  coords_accuracy : float
}.

(** The calls the hook makes on [navigator.geolocation]. *)
Inductive browser_call : Type :=
| CallGetCurrentPosition (opts : GeolocationOptions)
| CallWatchPosition (opts : GeolocationOptions)
| CallClearWatch (id : Z).

(** The two [useState] cells of the hook and the calls made so far. *)
Record Hook : Type := {
  state : GeolocationState;
  watchId : option Z;
  calls : list browser_call
}.

Definition idle : GeolocationState :=
  {| latitude := None; longitude := None; accuracy := None;
     error := None; loading := false |}.

Definition initial : Hook := {| state := idle; watchId := None; calls := [] |}.

Definition setState (f : GeolocationState -> GeolocationState) (h : Hook) : Hook :=
  {| state := f (state h); watchId := watchId h; calls := calls h |}.

Definition setWatchId (id : option Z) (h : Hook) : Hook :=
  {| state := state h; watchId := id; calls := calls h |}.

Definition invoke (c : browser_call) (h : Hook) : Hook :=
  {| state := state h; watchId := watchId h; calls := calls h ++ [c] |}.

(** [GeolocationPositionError] codes. *)
Definition PERMISSION_DENIED : Z := 1.
Definition POSITION_UNAVAILABLE : Z := 2.
Definition TIMEOUT : Z := 3.

Definition onSuccess (position : Coords) (h : Hook) : Hook :=
  setState (fun _ =>
    {| latitude := Some (coords_latitude position);
       longitude := Some (coords_longitude position);
       accuracy := Some (coords_accuracy position);
       error := None;
       loading := false |}) h.

Definition onError (code : Z) (h : Hook) : Hook :=
  let errorMessage :=
    if (code =? PERMISSION_DENIED)%Z then LOCATION_DENIED
    else if (code =? POSITION_UNAVAILABLE)%Z then LOCATION_UNAVAILABLE
    else if (code =? TIMEOUT)%Z then "Location request timed out. Please try again."
    else GENERIC_ERROR in
  setState (fun prev =>
    {| latitude := latitude prev; longitude := longitude prev;
       accuracy := accuracy prev;
       error := Some errorMessage;
       loading := false |}) h.

Section Hook.
Context {engine : Engine}.
(** [navigator.geolocation]: absent, or present with the handle its
    [watchPosition] hands out. *)
Variable geolocation : option Z.
(** The [options] argument of the hook. *)
Variable options : GeolocationOptions.

Definition opts : GeolocationOptions := merge defaultOptions options.

Definition request_options : GeolocationOptions :=
  {| enableHighAccuracy := enableHighAccuracy opts;
     timeout := timeout opts;
     maximumAge := maximumAge opts;
     watch := None |}.

Definition getCurrentPosition (h : Hook) : outcome Hook :=
  match geolocation with
  | None =>
      Returned (setState (fun prev =>
        {| latitude := latitude prev; longitude := longitude prev;
           accuracy := accuracy prev;
           error := Some LOCATION_UNAVAILABLE;
           loading := false |}) h)
  | Some _ =>
      let h := setState (fun prev =>
        {| latitude := latitude prev; longitude := longitude prev;
           accuracy := accuracy prev;
           error := None;
           loading := true |}) h in
      Returned (invoke (CallGetCurrentPosition request_options) h)
  end.

Definition startWatching (h : Hook) : outcome Hook :=
  match geolocation with
  | None =>
      Returned (setState (fun prev =>
        {| latitude := latitude prev; longitude := longitude prev;
           accuracy := accuracy prev;
           error := Some LOCATION_UNAVAILABLE;
           loading := loading prev |}) h)
  | Some id =>
      let h := setState (fun prev =>
        {| latitude := latitude prev; longitude := longitude prev;
           accuracy := accuracy prev;
           error := None;
           loading := true |}) h in
      let h := invoke (CallWatchPosition request_options) h in
      Returned (setWatchId (Some id) h)
  end.

(** [navigator.geolocation.clearWatch(id)] *)
Definition clearWatch (id : Z) (h : Hook) : outcome Hook :=
  match geolocation with
  | None => type_error
  | Some _ => Returned (invoke (CallClearWatch id) h)
  end.

Definition stopWatching (h : Hook) : outcome Hook :=
  match watchId h with
  | Some id =>
      h ← clearWatch id h;
      let h := setWatchId None h in
      Returned (setState (fun prev =>
        {| latitude := latitude prev; longitude := longitude prev;
           accuracy := accuracy prev;
           error := error prev;
           loading := false |}) h)
  | None => Returned h
  end.

Definition clearError (h : Hook) : outcome Hook :=
  Returned (setState (fun prev =>
    {| latitude := latitude prev; longitude := longitude prev;
       accuracy := accuracy prev;
       error := None;
       loading := loading prev |}) h).

Definition reset (h : Hook) : outcome Hook :=
  h ← match watchId h with
      | Some id => h ← clearWatch id h; Returned (setWatchId None h)
      | None => Returned h
      end;
  Returned (setState (fun _ => idle) h).

(** The effect run on mount. *)
Definition mount (h : Hook) : outcome Hook :=
  match watch opts with
  | Some true => startWatching h
  | _ => getCurrentPosition h
  end.

(** What a component can do with the hook. *)
Inductive action : Type :=
| GetCurrentPosition
| StartWatching
| StopWatching
| ClearError
| Reset.

Definition perform (a : action) (h : Hook) : outcome Hook :=
  match a with
  | GetCurrentPosition => getCurrentPosition h
  | StartWatching => startWatching h
  | StopWatching => stopWatching h
  | ClearError => clearError h
  | Reset => reset h
  end.

(** The hook after mounting and a sequence of actions. *)
Fixpoint perform_all (actions : list action) (h : Hook) : outcome Hook :=
  match actions with
  | [] => Returned h
  | a :: rest => h' ← perform a h; perform_all rest h'
  end.

Definition mounted_then (actions : list action) : outcome Hook :=
  h ← mount initial; perform_all actions h.

End Hook.

End Geolocation.

(** ** Google Maps loader ([loadGoogleMaps]) *)

Module GoogleMaps.
Import Js ErrorMessages.

Inductive promise_state : Type :=
| Pending
| Resolved
| Rejected (reason : string).

(** A [<script>] element appended to the document: its [src], and the
    promise its [onload] and [onerror] handlers settle. *)
Record Script : Type := { src : string; settles : nat }.

(** The module variable [googleMapsPromise] (a reference into the store of
    promises created so far), the document's appended scripts, and whether
    [window.google.maps] is there. *)
Record World : Type := {
  googleMapsPromise : option nat;
  promises : list promise_state;
  scripts : list Script;
  google_maps_present : bool
}.

Definition initial : World :=
  {| googleMapsPromise := None; promises := []; scripts := [];
     google_maps_present := false |}.

(** The process: whether there is a [window] (and a [document]), and
    [process.env.NEXT_PUBLIC_GOOGLE_MAPS_API_KEY]. *)
Record Process : Type := { has_window : bool; apiKey : option string }.

Definition script_src (key : string) : string :=
  "https://maps.googleapis.com/maps/api/js?key=" +:+ key +:+ "&libraries=places,geometry".

(** The executor of [new Promise(...)]: the state the new promise is left
    in and the script appended, if any.  Without a [document] the executor
    throws, which rejects the promise. *)
Definition executor (proc : Process) (w : World) (self : nat)
  : promise_state * list Script :=
  if has_window proc && google_maps_present w then (Resolved, [])
  else if negb (has_window proc) then (Rejected "document is not defined", [])
  else
    match apiKey proc with
    | Some (String c k) =>
        (Pending, [{| src := script_src (String c k); settles := self |}])
    | Some EmptyString | None => (Rejected "Google Maps API key not found", [])
    end.

Definition loadGoogleMaps (proc : Process) (w : World) : nat * World :=
  match googleMapsPromise w with
  | Some p => (p, w)
  | None =>
      let p := length (promises w) in
      let '(st, appended) := executor proc w p in
      (p, {| googleMapsPromise := Some p;
             promises := (promises w ++ [st])%list;
             scripts := (scripts w ++ appended)%list;
             google_maps_present := google_maps_present w |})
  end.

(** [resolve] and [reject] settle a promise that is still pending. *)
Definition settle (p : nat) (st : promise_state) (w : World) : World :=
  match promises w !! p with
  | Some Pending =>
      {| googleMapsPromise := googleMapsPromise w;
         promises := <[p := st]> (promises w);
         scripts := scripts w;
         google_maps_present := google_maps_present w |}
  | _ => w
  end.

(** [script.onload], after the script defined [window.google.maps] or not. *)
Definition onload (i : nat) (defined : bool) (w : World) : World :=
  match scripts w !! i with
  | Some sc =>
      let w := {| googleMapsPromise := googleMapsPromise w;
                  promises := promises w;
                  scripts := scripts w;
                  google_maps_present := google_maps_present w || defined |} in
      if google_maps_present w then settle (settles sc) Resolved w
      else settle (settles sc) (Rejected MAPS_LOAD_FAILED) w
  | None => w
  end.

(** [script.onerror] *)
Definition onerror (i : nat) (w : World) : World :=
  match scripts w !! i with
  | Some sc => settle (settles sc) (Rejected MAPS_LOAD_FAILED) w
  | None => w
  end.

(** What happens in the process: a call of [loadGoogleMaps], an event of
    an appended script, or other code of the page defining
    [window.google.maps]. *)
Inductive event : Type :=
| Load (proc : Process)
| ScriptLoaded (i : nat) (defined : bool)
| ScriptFailed (i : nat)
| DefinedElsewhere.

Definition step (w : World) (e : event) : World :=
  match e with
  | Load proc => snd (loadGoogleMaps proc w)
  | ScriptLoaded i defined => onload i defined w
  | ScriptFailed i => onerror i w
  | DefinedElsewhere =>
      {| googleMapsPromise := googleMapsPromise w;
         promises := promises w;
         scripts := scripts w;
         google_maps_present := true |}
  end.

Definition run (events : list event) : World := foldl step initial events.

End GoogleMaps.

(** ** The closures of a render *)

(** The operations a component calls are the closures of the last render.
    [stopWatching] and [reset] are made anew when [watchId] changes, and
    the [watchId] in their bodies is the one that render saw, whatever
    [setWatchId] has been given since; the other operations do not read
    it. *)
Module GeolocationClosures.
Import Js ErrorMessages Geolocation.

Section Render.
Context {engine : Engine}.
Variable geolocation : option Z.
Variable options : GeolocationOptions.
(** [watchId] as the render that made the closures saw it. *)
Variable watchId : option Z.

Definition stopWatching (h : Hook) : outcome Hook :=
  match watchId with
  | Some id =>
      h ← clearWatch geolocation id h;
      let h := setWatchId None h in
      Returned (setState (fun prev =>
        {| latitude := latitude prev; longitude := longitude prev;
           accuracy := accuracy prev;
           error := error prev;
           loading := false |}) h)
  | None => Returned h
  end.

Definition reset (h : Hook) : outcome Hook :=
  h ← match watchId with
      | Some id => h ← clearWatch geolocation id h; Returned (setWatchId None h)
      | None => Returned h
      end;
  Returned (setState (fun _ => idle) h).

Definition perform (a : action) (h : Hook) : outcome Hook :=
  match a with
  | StopWatching => stopWatching h
  | Reset => reset h
  | _ => Geolocation.perform geolocation options a h
  end.

End Render.

End GeolocationClosures.

(** ** The geolocation hook in a page: callbacks and effects *)

Module GeolocationPage.
Import Js ErrorMessages Geolocation.

(** [hasLocation] of the object the hook returns. *)
Definition hasLocation (s : GeolocationState) : bool :=
  match latitude s, longitude s with
  | Some _, Some _ => true
  | _, _ => false
  end.

(** What happens to a mounted hook: the component calls one of its
    operations, or the browser calls back [onSuccess] or [onError]. *)
Inductive event : Type :=
| Does (a : action)
| Located (position : Coords)
| Refused (code : Z).

Section Page.
Context {engine : Engine}.
Variable geolocation : option Z.
Variable options : GeolocationOptions.

Definition handle (e : event) (h : Hook) : outcome Hook :=
  match e with
  | Does a => perform geolocation options a h
  | Located position => Returned (onSuccess position h)
  | Refused code => Returned (onError code h)
  end.

Fixpoint handle_all (events : list event) (h : Hook) : outcome Hook :=
  match events with
  | [] => Returned h
  | e :: rest => h' ← handle e h; handle_all rest h'
  end.

(** The hook after mounting and a sequence of events. *)
Definition mounted_and (events : list event) : outcome Hook :=
  h ← mount geolocation options initial; handle_all events h.

(** The cleanup that both effects return, closed over the [watchId] of the
    render that ran the effect. *)
Definition cleanup (seen : option Z) (h : Hook) : outcome Hook :=
  match seen with
  | Some id => clearWatch geolocation id h
  | None => Returned h
  end.

(** A render: when [watchId] differs from the one the previous render
    saw, the cleanup of the effect that depends on [watchId] runs before
    the effect is run again. *)
Definition rerender (previous : option Z) (h : Hook) : outcome Hook :=
  if decide (watchId h = previous) then Returned h else cleanup previous h.

(** Unmounting runs the cleanup of the mount effect, made by the first
    render, and the cleanup of the last render, which saw [seen]. *)
Definition unmount (seen : option Z) (h : Hook) : outcome Hook :=
  h ← cleanup (watchId initial) h; cleanup seen h.

End Page.

(** *** The browser's side *)

(** The browser numbers the watches it starts and runs them until they are
    cleared: the next handle and the running watches after a call. *)
Definition browser_step (st : Z * list Z) (c : browser_call) : Z * list Z :=
  match c with
  | CallGetCurrentPosition _ => st
  | CallWatchPosition _ => (fst st + 1, (snd st ++ [fst st])%list)
  | CallClearWatch id => (fst st, List.filter (fun i => negb (i =? id)%Z) (snd st))
  end.

Definition browser (calls : list browser_call) : Z * list Z :=
  foldl browser_step (1, []) calls.

(** The handle the next [watchPosition] returns, and the watches that run. *)
Definition next_handle (h : Hook) : Z := fst (browser (calls h)).
Definition watches (h : Hook) : list Z := snd (browser (calls h)).

(** *** Between two renders *)

Section Batches.
Context {engine : Engine}.
Variable options : GeolocationOptions.

(** An event in a browser that has the capability, between two renders;
    [seen] is the [watchId] of the last render. *)
Definition occurs (seen : option Z) (e : event) (h : Hook) : outcome Hook :=
  match e with
  | Does a => GeolocationClosures.perform (Some (next_handle h)) options seen a h
  | Located position => Returned (onSuccess position h)
  | Refused code => Returned (onError code h)
  end.

(** The events of one batch: React renders once they have all run. *)
Fixpoint batch (seen : option Z) (events : list event) (h : Hook) : outcome Hook :=
  match events with
  | [] => Returned h
  | e :: rest => h' ← occurs seen e h; batch seen rest h'
  end.

(** The batches of a schedule, each followed by its render, from a
    rendered hook. *)
Fixpoint life (schedule : list (list event)) (h : Hook) : outcome Hook :=
  match schedule with
  | [] => Returned h
  | events :: rest =>
      h' ← batch (watchId h) events h;
      h' ← rerender (Some (next_handle h')) (watchId h) h';
      life rest h'
  end.

(** The page from its first render: the mount effect and what else runs
    before the second render, then the batches of [rest]. *)
Definition page (first : list event) (rest : list (list event)) : outcome Hook :=
  h ← mount (Some (next_handle initial)) options initial;
  h ← batch (watchId initial) first h;
  h ← rerender (Some (next_handle h)) (watchId initial) h;
  life rest h.

(** The end of the page, from a rendered hook: the events of a last batch
    and, in place of their render, the unmount. *)
Definition leave (last : list event) (h : Hook) : outcome Hook :=
  h' ← batch (watchId h) last h;
  unmount (Some (next_handle h')) (watchId h) h'.

End Batches.

End GeolocationPage.

(** ** Permission hook ([useLocationPermission]) *)

Module LocationPermission.
Import Js.

(** The browser's [PermissionState]. *)
Inductive PermissionState : Type := granted | denied | prompt.

(** The hook's state, of type [PermissionState | 'unsupported']. *)
Inductive Permission : Type :=
| State (s : PermissionState)
| unsupported.

(** [useState('prompt')] *)
Definition initial : Permission := State prompt.

Section Hook.
(** [navigator.permissions]: absent, or present with what its
    [query({ name: 'geolocation' })] settles to: a status in some state,
    or a rejection. *)
Variable permissions : option (outcome PermissionState).

(** The effect run on mount; a rejected query has no handler and leaves
    the state as it is. *)
Definition mount (st : Permission) : Permission :=
  match permissions with
  | Some query =>
      match query with
      | Returned result => State result
      | Threw _ => st
      end
  | None => unsupported
  end.

(** The listener of the status's [change] event. *)
Definition onchange (result : PermissionState) (st : Permission) : Permission :=
  State result.

(** [requestPermission()]: the value its promise resolves to, and the
    state afterwards. *)
Definition requestPermission (st : Permission) : outcome (Permission * Permission) :=
  match permissions with
  | Some query =>
      try_catch
        (result ← query; Returned (State result, State result))
        (fun _ => Returned (State denied, st))
  | None => Returned (unsupported, st)
  end.

End Hook.

(** The flags of the returned object. *)
Definition isGranted (st : Permission) : bool :=
  match st with State granted => true | _ => false end.
Definition isDenied (st : Permission) : bool :=
  match st with State denied => true | _ => false end.
Definition isPrompt (st : Permission) : bool :=
  match st with State prompt => true | _ => false end.
Definition isSupported (st : Permission) : bool :=
  match st with unsupported => false | _ => true end.

End LocationPermission.

(** ** Google Maps helpers ([lib/google-maps]) *)

Module MapsApi.
Import Js ErrorMessages.

(** The SDK's types, as [types/google-maps.d.ts] declares them; a method
    without arguments ([lat()], [getNorthEast()]) is a field. *)
Record LatLng : Type := { lat : float; lng : float }.

Record GeocoderAddressComponent : Type := {
  long_name : string;
  short_name : string;
  types : list string
}.

Record GeocoderResult : Type := {
  geometry_location : LatLng;
  formatted_address : string;
  address_components : list GeocoderAddressComponent
}.

Record GeocoderRequest : Type := {
  request_address : option string;
  request_location : option LatLng
}.

Record TextValue : Type := { text : string; value : float }.

Record DistanceMatrixResponseElement : Type := {
  element_status : string;
  element_distance : option TextValue;
  element_duration : option TextValue
}.

Record DistanceMatrixResponseRow : Type := {
  elements : list DistanceMatrixResponseElement
}.

Record DistanceMatrixResponse : Type := { rows : list DistanceMatrixResponseRow }.

Record DistanceMatrixRequest : Type := {
  origins : list LatLng;
  destinations : list LatLng;
  matrix_travelMode : string;
  matrix_unitSystem : Z;
  avoidHighways : bool;
  avoidTolls : bool
}.

Record DirectionsStep : Type := {
  instructions : string;
  step_distance : option TextValue;
  step_duration : option TextValue;
  start_location : LatLng;
  end_location : LatLng;
  step_polyline : option string
}.

Record DirectionsLeg : Type := {
  leg_distance : option TextValue;
  leg_duration : option TextValue;
  leg_steps : list DirectionsStep
}.

Record LatLngBounds : Type := { getNorthEast : LatLng; getSouthWest : LatLng }.

Record DirectionsRoute : Type := {
  legs : list DirectionsLeg;
  overview_polyline : string;
  route_bounds : LatLngBounds
}.

Record DirectionsResult : Type := { routes : list DirectionsRoute }.

Record Waypoint : Type := { waypoint_location : LatLng; stopover : bool }.

Record DirectionsRequest : Type := {
  origin : LatLng;
  destination : LatLng;
  waypoints : list Waypoint;
  travelMode : string;
  unitSystem : Z;
  optimizeWaypoints : bool
}.

(** [TravelMode.DRIVING] and [UnitSystem.IMPERIAL] *)
Definition DRIVING : string := "DRIVING".
Definition IMPERIAL : Z := 1.

(** The types of [types/station.ts] these helpers return. *)
Record Location : Type := {
  latitude : float;
  longitude : float;
  address : string;
  city : string;
  state : option string;
  country : string;
  postcode : option string
}.

Record Point : Type := { point_latitude : float; point_longitude : float }.

Record RouteStep : Type := {
  instruction : string;
  distance : string;
  duration : string;
  startLocation : Point;
  endLocation : Point;
  polyline : string
}.

Record MapBounds : Type := { north : float; south : float; east : float; west : float }.

Record NavigationRoute : Type := {
  route_distance : string;
  route_duration : string;
  route_polyline : string;
  steps : list RouteStep;
  bounds : MapBounds
}.

(** What the road-distance helper returns. *)
Record Travel : Type := { travel_distance : string; travel_duration : string }.

Record MapTypeStyle : Type := {
  featureType : option string;
  elementType : option string;
  stylers : list Js.value
}.

(** The options [initializeMap] constructs the map with. *)
Record MapOptions : Type := {
  center : LatLng;
  zoom : float;
  maxZoom : float;
  minZoom : float;
  styles : list MapTypeStyle;
  disableDefaultUI : bool;
  zoomControl : bool;
  mapTypeControl : bool;
  streetViewControl : bool;
  fullscreenControl : bool;
  gestureHandling : string
}.

(** [components.find(c => c.types.includes(type))], then
    [component?.long_name || null]. *)
Definition getAddressComponent (components : list GeocoderAddressComponent)
  (type : string) : option string :=
  match List.find (fun c => existsb (String.eqb type) (types c)) components with
  | Some component =>
      match long_name component with
      | EmptyString => None
      | name => Some name
      end
  | None => None
  end.

(** [x || ''] on a string or [null], and [x?.text || '']. *)
Definition or_empty (o : option string) : string :=
  match o with
  | Some s => s
  | None => ""
  end.

Definition text_or_empty (o : option TextValue) : string :=
  match o with
  | Some t => text t
  | None => ""
  end.

Section Sdk.
Context {engine : Engine}.
(** What [await loadGoogleMaps()] yields. *)
Variable loaded : outcome unit.
(** The services: the arguments each passes to its callback. *)
Variable geocode : GeocoderRequest -> option (list GeocoderResult) * string.
Variable getDistanceMatrix : DistanceMatrixRequest -> option DistanceMatrixResponse * string.
Variable route : DirectionsRequest -> option DirectionsResult * string.
(** [GOOGLE_MAPS_CONFIG.defaultCenter], read from the environment. *)
Variable defaultCenter : LatLng.

(** [list[0]] followed by a property read, which throws on [undefined]. *)
Definition first {A : Type} (l : list A) : outcome A :=
  match l with
  | x :: _ => Returned x
  | [] => type_error
  end.

(** The promise around [geocoder.geocode]. *)
Definition geocoded (request : GeocoderRequest) (failure : string)
  : outcome (list GeocoderResult) :=
  let '(results, status) := geocode request in
  match results with
  | Some (r :: rest) =>
      if String.eqb status "OK" then Returned (r :: rest)
      else Threw (ErrorObj (failure +:+ status))
  | Some [] | None => Threw (ErrorObj (failure +:+ status))
  end.

Definition located (lat lng : float) (location : GeocoderResult) : Location :=
  let components := address_components location in
  {| latitude := lat;
     longitude := lng;
     address := formatted_address location;
     city := or_empty (getAddressComponent components "locality");
     state := Some (or_empty (getAddressComponent components "administrative_area_level_1"));
     country := or_empty (getAddressComponent components "country");
     postcode := Some (or_empty (getAddressComponent components "postal_code")) |}.

Definition geocodeAddress (address : string) : outcome (option Location) :=
  try_catch
    (_ ← loaded;
     result ← geocoded {| request_address := Some address; request_location := None |}
                "Geocoding failed: ";
     location ← first result;
     Returned (Some (located (lat (geometry_location location))
                             (lng (geometry_location location)) location)))
    (fun _ => Returned None).

Definition reverseGeocode (lat lng : float) : outcome (option Location) :=
  try_catch
    (_ ← loaded;
     result ← geocoded {| request_address := None;
                          request_location := Some {| lat := lat; lng := lng |} |}
                "Reverse geocoding failed: ";
     location ← first result;
     Returned (Some (located lat lng location)))
    (fun _ => Returned None).

Definition calculateDistance (origin destination : LatLng) : outcome (option Travel) :=
  try_catch
    (_ ← loaded;
     result ← (let '(response, status) :=
                 getDistanceMatrix {| origins := [origin];
                                      destinations := [destination];
                                      matrix_travelMode := DRIVING;
                                      matrix_unitSystem := IMPERIAL;
                                      avoidHighways := false;
                                      avoidTolls := false |} in
               match response with
               | Some r =>
                   if String.eqb status "OK" then Returned r
                   else Threw (ErrorObj ("Distance calculation failed: " +:+ status))
               | None => Threw (ErrorObj ("Distance calculation failed: " +:+ status))
               end);
     let element :=
       match rows result with
       | row :: _ => head (elements row)
       | [] => None
       end in
     match element with
     | Some el =>
         if String.eqb (element_status el) "OK" then
           Returned (Some {| travel_distance := text_or_empty (element_distance el);
                             travel_duration := text_or_empty (element_duration el) |})
         else Returned None
     | None => Returned None
     end)
    (fun _ => Returned None).

Definition getDirections (origin destination : LatLng) (waypoints : option (list LatLng))
  : outcome (option NavigationRoute) :=
  try_catch
    (_ ← loaded;
     let waypointsFormatted :=
       map (fun point => {| waypoint_location := point; stopover := false |})
           (default [] waypoints) in
     result ← (let '(response, status) :=
                 route {| origin := origin;
                          destination := destination;
                          waypoints := waypointsFormatted;
                          travelMode := DRIVING;
                          unitSystem := IMPERIAL;
                          optimizeWaypoints := true |} in
               match response with
               | Some r =>
                   if String.eqb status "OK" then Returned r
                   else Threw (ErrorObj ("Directions request failed: " +:+ status))
               | None => Threw (ErrorObj ("Directions request failed: " +:+ status))
               end);
     route ← first (routes result);
     leg ← first (legs route);
     let steps :=
       map (fun step =>
              {| instruction := instructions step;
                 distance := text_or_empty (step_distance step);
                 duration := text_or_empty (step_duration step);
                 startLocation := {| point_latitude := lat (start_location step);
                                     point_longitude := lng (start_location step) |};
                 endLocation := {| point_latitude := lat (end_location step);
                                   point_longitude := lng (end_location step) |};
                 polyline := or_empty (step_polyline step) |})
           (leg_steps leg) in
     Returned (Some {| route_distance := text_or_empty (leg_distance leg);
                       route_duration := text_or_empty (leg_duration leg);
                       route_polyline := overview_polyline route;
                       steps := steps;
                       bounds := {| north := lat (getNorthEast (route_bounds route));
                                    south := lat (getSouthWest (route_bounds route));
                                    east := lng (getNorthEast (route_bounds route));
                                    west := lng (getSouthWest (route_bounds route)) |} |}))
    (fun _ => Returned None).

(** [GOOGLE_MAPS_CONFIG] *)
Definition defaultZoom : float := 12.
Definition maxZoomLevel : float := 18.
Definition minZoomLevel : float := 8.
Definition mapStyles : list MapTypeStyle :=
  [ {| featureType := Some "poi.business"; elementType := None;
       stylers := [VObj [("visibility", VStr "off")]] |};
    {| featureType := Some "poi.park"; elementType := Some "labels.text";
       stylers := [VObj [("visibility", VStr "off")]] |} ].

(** [initializeMap]: the options of the map it constructs in the given
    container. *)
Definition initializeMap (center : option LatLng) (zoom : option float)
  : outcome MapOptions :=
  _ ← loaded;
  let mapCenter := default defaultCenter center in
  let mapZoom := ApiClient.or_number zoom defaultZoom in
  Returned {| center := mapCenter;
              zoom := mapZoom;
              maxZoom := maxZoomLevel;
              minZoom := minZoomLevel;
              styles := mapStyles;
              disableDefaultUI := false;
              zoomControl := true;
              mapTypeControl := false;
              streetViewControl := false;
              fullscreenControl := true;
              gestureHandling := "cooperative" |}.

End Sdk.

End MapsApi.


(** ** An engine to run the model on *)

Module Fixtures.
Import Js.

(** A small engine for the worked examples: it prints a number rounded to
    the nearest integer (exact on the integers below [10^21]), parses no
    string, and computes the small-angle approximations [sin x = x],
    [cos x = 1] and [atan2 y x = y / x]. *)
Definition small_engine : Engine :=
  {| numberToString := fun x =>
       match Prim2SF x with
       | S754_nan => "NaN"
       | S754_infinity false => "Infinity"
       | S754_infinity true => "-Infinity"
       | S754_zero _ => "0"
       | S754_finite s m e =>
           (if s then "-" else "") +:+ decimal (Distance.nearest_scaled m e 0)
       end;
     stringToNumber := fun _ => nan;
     typeErrorMessage := "Cannot read properties of null";
     Math_sin := fun x => x;
     Math_cos := fun _ => 1%float;
     Math_atan2 := fun y x => (y / x)%float |}.

Definition small_config : ApiClient.Config :=
  {| ApiClient.maxStationsPerRequest := 100%float;
     ApiClient.defaultRadius := 25%float |}.

(** A network that answers every request with the same response. *)
Definition answering (status : nat) (statusText : string) (body : outcome value)
  : ApiClient.Request -> outcome ApiClient.Response :=
  fun _ => Returned {| ApiClient.status := status;
                       ApiClient.statusText := statusText;
                       ApiClient.json := body |}.

(** A network that is down: [fetch] rejects with the given value. *)
Definition rejecting (t : thrown) : ApiClient.Request -> outcome ApiClient.Response :=
  fun _ => Threw t.

End Fixtures.


(** ** The vocabulary of the properties *)

Module GeolocationSpec.
Import Js Geolocation.

(** What holds of the hook, at every moment, in a browser without
    [navigator.geolocation]: it is not loading, owns no watch and never
    called the browser. *)
Definition quiet (h : Hook) : Prop :=
  loading (state h) = false /\ watchId h = None /\ calls h = [].

End GeolocationSpec.

Module GoogleMapsSpec.
Import Js GoogleMaps.

(** The shape of every reachable world: nothing was created before the
    first call; afterwards there is exactly one promise, the cached one,
    and at most one script, which settles it. *)
Definition singleton (w : World) : Prop :=
  match googleMapsPromise w with
  | None => promises w = [] /\ scripts w = []
  | Some p =>
      p = 0%nat /\ length (promises w) = 1%nat /\
      (length (scripts w) <= 1)%nat /\
      forall sc, In sc (scripts w) -> settles sc = 0%nat
  end.

End GoogleMapsSpec.

Module ApiClientSpec.
Import Js ErrorMessages ApiClient.

(** A thrown value whose message, as [makeRequest] reports it, is not empty. *)
Definition informative (t : thrown) : Prop :=
  match t with
  | ErrorObj m => m <> ""
  | NonError _ => True
  end.

(** The message [makeRequest] reports for a thrown value. *)
Definition reported (t : thrown) : string :=
  match t with
  | ErrorObj m => m
  | NonError _ => GENERIC_ERROR
  end.

(** The error thrown for a response outside 200-299. *)
Definition http_error (r : Response) : thrown :=
  if (status r =? 429)%nat then ErrorObj API_RATE_LIMITED
  else ErrorObj ("API Error: " +:+ decimal (Z.of_nat (status r)) +:+ " " +:+ statusText r).

(** The envelope of a decoded payload. *)
Definition succeeded (config : Config) (payload : value) : ApiResponse :=
  {| data := payload; success := true; message := None; error := None;
     meta := Some {| total := match payload with
                              | VArr items => length items
                              | _ => 1%nat
                              end;
                     page := 1;
                     limit := maxStationsPerRequest config |} |}.

Definition not_found : ApiResponse :=
  {| data := VObj []; success := false; message := None;
     error := Some STATION_NOT_FOUND; meta := None |}.

(** The errors of the platform (the engine's [TypeError], the rejections
    of [fetch] and of [response.json()]) carry a message. *)
Definition informative_platform {engine : Engine}
  (fetch : Request -> outcome Response) : Prop :=
  typeErrorMessage <> "" /\
  forall req,
    match fetch req with
    | Threw t => informative t
    | Returned resp =>
        match json resp with
        | Threw t => informative t
        | Returned _ => True
        end
    end.

(** The values [searchStations] and [getStationById] put in [params]:
    strings, numbers, booleans, and arrays of them. *)
Definition scalar (v : value) : bool :=
  match v with
  | VBool _ | VNum _ | VStr _ => true
  | _ => false
  end.

Definition plain (entry : string * value) : Prop :=
  match snd entry with
  | VArr items => forallb scalar items = true
  | v => scalar v = true
  end.



(** The result of an operation is an envelope: either a successful one
    without an error, or a failed one ([success = false]) that carries the
    empty array and an error message, which is not empty under
    [nonempty_if]. *)
Definition enveloped (nonempty_if : Prop) (result : outcome ApiResponse) : Prop :=
  exists r, result = Returned r /\
    (success r = true /\ error r = None \/
     success r = false /\ data r = VArr [] /\
     exists msg, error r = Some msg /\ (nonempty_if -> msg <> "")).





End ApiClientSpec.

Module FloatSpec.

(** A mantissa that is not negative and has at most [d] binary digits. *)
Definition within (d : Z) (m : Z) : Prop := (0 <= m /\ Zdigits2 m <= d)%Z.

(** The exponent function of binary64. *)
Definition fexp64 : Z -> Z := SpecFloat.fexp prec emax.

End FloatSpec.

Module DistanceSpec.
Import Js Distance.
Local Open Scope float_scope.

(** What the proofs ask of the engine's [Math]: the sine is odd and exact
    at zero (ECMA-262 fixes [sin(+0) = +0] and [sin(-0) = -0]), the cosine
    of a number lies in [-1, 1], and [atan2(+0, 1) = +0] (fixed by
    ECMA-262 as well). *)
Class MathLaws (engine : Engine) : Prop := {
  sin_odd : forall x, Math_sin (- x) = - Math_sin x;
  sin_zero : Math_sin 0 = 0;
  cos_bounded : forall x, is_finite x = true -> (abs (Math_cos x) <=? 1) = true;
  atan2_zero : Math_atan2 0 1 = 0
}.

(** The text [toFixed] produces. *)
Definition is_digit (c : ascii) : bool :=
  ((48 <=? nat_of_ascii c) && (nat_of_ascii c <=? 57))%nat.

Fixpoint all_digits (s : string) : bool :=
  match s with
  | EmptyString => true
  | String c rest => is_digit c && all_digits rest
  end.

(** At least one digit and, when [f] is not zero, a point and exactly [f]
    digits. *)
Definition unsigned_text (f : nat) (text : string) : Prop :=
  exists whole frac,
    text = (whole +:+ match f with O => "" | S _ => "." +:+ frac end)%string /\
    whole <> ""%string /\ all_digits whole = true /\
    all_digits frac = true /\ String.length frac = f.

(** The same after an optional minus sign. *)
Definition fixed_text (f : nat) (text : string) : Prop :=
  exists sign rest,
    text = (sign +:+ rest)%string /\
    (sign = ""%string \/ sign = "-"%string) /\ unsigned_text f rest.

(** The sine of half an angle given in degrees. *)
Definition half_sine {engine : Engine} (d : float) : float :=
  Math_sin (((d * PI) / 180) / 2).

End DistanceSpec.

Module ApiCacheSpec.
Import Js ApiCache.

(** A call of a method of the cache; [now] is the reading of [Date.now()]
    during the call. *)
Inductive call : Type :=
| DoSet (key : string) (d : value) (now : Z)
| DoGet (key : string) (now : Z)
| DoClear.

Definition after_call (cache : gmap string CacheItem) (c : call)
  : gmap string CacheItem :=
  match c with
  | DoSet key d now => set key d now cache
  | DoGet key now => snd (get key now cache)
  | DoClear => clear cache
  end.

(** The cache of [new ApiCache()] after a sequence of calls. *)
Definition after_calls (calls : list call) : gmap string CacheItem :=
  foldl after_call ∅ calls.

(** The data and the time of the last [set(key, ...)] among the calls, if
    no [clear()] came after it. *)
Definition last_set (key : string) (calls : list call) : option (value * Z) :=
  foldl (fun found c =>
           match c with
           | DoSet k d now => if String.eqb k key then Some (d, now) else found
           | DoGet _ _ => found
           | DoClear => None
           end) None calls.

(** The readings of [Date.now()] during the calls, in order. *)
Definition clock (calls : list call) : list Z :=
  flat_map (fun c =>
              match c with
              | DoSet _ _ now | DoGet _ now => [now]
              | DoClear => []
              end) calls.

(** The cache after [get(key)] at each of the given times, in order. *)
Definition read_at (key : string) (times : list Z) (cache : gmap string CacheItem)
  : gmap string CacheItem :=
  foldl (fun c now => snd (get key now c)) cache times.

End ApiCacheSpec.

Module QuerySpec.
Import Js ApiClient.

(** [url.searchParams.getAll(name)]: the values of the entries called
    [name], in the order of the query. *)
Definition getAll (name : string) (q : list (string * string)) : list string :=
  map snd (List.filter (fun entry => String.eqb (fst entry) name) q).

(** The entries of one parameter: its name with each of its values. *)
Definition param (name : string) (values : list string) : list (string * string) :=
  map (pair name) values.

(** The entry of the API key. *)
Definition key_entry (apiKey : option string) : list (string * string) :=
  match apiKey with
  | Some (String c k) => param "key" [String c k]
  | Some EmptyString | None => []
  end.

(** A property of the [params] object that is there under a condition. *)
Definition entry_if {A : Type} (o : option A) (name : string) (f : A -> value)
  : list (string * value) :=
  match o with
  | Some a => [(name, f a)]
  | None => []
  end.

Definition boolean (b : bool) : string := if b then "true" else "false".

Section Printing.
Context {engine : Engine}.

(** The text of a string, a number or a boolean. *)
Definition text (v : value) : string :=
  match v with
  | VBool b => boolean b
  | VNum x => numberToString x
  | VStr s => s
  | _ => ""
  end.

(** The values a parameter made of strings, numbers and booleans puts in
    the query. *)
Definition printed (v : value) : list string :=
  match v with
  | VUndefined | VNull | VStr EmptyString => []
  | VArr items => map text items
  | v => [text v]
  end.

Definition rendered (entries : list (string * value)) : list (string * string) :=
  flat_map (fun entry => param (fst entry) (printed (snd entry))) entries.

End Printing.

(** Filters with one property replaced. *)
Definition with_includeComments (b : option bool) (f : SearchFilters) : SearchFilters :=
  {| f_location := f_location f; f_radius := f_radius f;
     f_connectionTypes := f_connectionTypes f; f_levelIds := f_levelIds f;
     f_statusTypes := f_statusTypes f; f_operatorIds := f_operatorIds f;
     f_countryCode := f_countryCode f; f_maxResults := f_maxResults f;
     f_openData := f_openData f; f_includeComments := b;
     f_powerKW := f_powerKW f; f_usageTypeId := f_usageTypeId f |}.

Definition with_lists (connectionTypes levelIds statusTypes operatorIds : option (list float))
  (f : SearchFilters) : SearchFilters :=
  {| f_location := f_location f; f_radius := f_radius f;
     f_connectionTypes := connectionTypes; f_levelIds := levelIds;
     f_statusTypes := statusTypes; f_operatorIds := operatorIds;
     f_countryCode := f_countryCode f; f_maxResults := f_maxResults f;
     f_openData := f_openData f; f_includeComments := f_includeComments f;
     f_powerKW := f_powerKW f; f_usageTypeId := f_usageTypeId f |}.

(** The envelope [makeRequest] makes of what [fetch] yields. *)
Definition envelope (config : Config) (answer : outcome Response) : ApiResponse :=
  match answer with
  | Threw t => failed t
  | Returned resp =>
      if ok resp then
        match json resp with
        | Returned payload => ApiClientSpec.succeeded config payload
        | Threw t => failed t
        end
      else failed (ApiClientSpec.http_error resp)
  end.

End QuerySpec.

Module GeolocationPageSpec.
Import Js ErrorMessages Geolocation GeolocationPage.

(** The position of the last [Located] event that no [reset()] followed. *)
Definition position_after (known : option Coords) (e : event) : option Coords :=
  match e with
  | Located position => Some position
  | Does Reset => None
  | _ => known
  end.

Definition last_position (events : list event) : option Coords :=
  foldl position_after None events.

(** The categories of [onError]. *)
Inductive category : Type := Denied | Unavailable | TimedOut | Other.

Definition category_of (code : Z) : category :=
  if (code =? 1)%Z then Denied
  else if (code =? 2)%Z then Unavailable
  else if (code =? 3)%Z then TimedOut
  else Other.

(** What every event keeps: an error is not shown while loading, and in
    a browser without the capability the hook neither loads nor watches. *)
Definition settled (geolocation : option Z) (h : Hook) : Prop :=
  (loading (state h) = true -> error (state h) = None) /\
  (geolocation = None -> loading (state h) = false /\ watchId h = None).

(** The hook shows the position [known], and watches only where the
    browser has the capability. *)
Definition shows (geolocation : option Z) (known : option Coords) (h : Hook) : Prop :=
  latitude (state h) = coords_latitude <$> known /\
  longitude (state h) = coords_longitude <$> known /\
  accuracy (state h) = coords_accuracy <$> known /\
  (geolocation = None -> watchId h = None).

(** *** Watches that no render has seen *)

Definition starts (e : event) : bool :=
  match e with
  | Does StartWatching => true
  | _ => false
  end.

(** Whether an event gives [watchId] a value: [startWatching] does, and
    [stopWatching] and [reset] do when the last render saw a watch. *)
Definition writes (watching : bool) (e : event) : bool :=
  match e with
  | Does StartWatching => true
  | Does StopWatching | Does Reset => watching
  | _ => false
  end.

(** The calls of [startWatching] in a batch. *)
Definition started (events : list event) : nat :=
  length (List.filter starts events).

(** The calls of [startWatching] in a batch that are followed, in the
    batch, by an event that gives [watchId] another value. *)
Fixpoint lost (watching : bool) (events : list event) : nat :=
  match events with
  | [] => 0%nat
  | e :: rest =>
      ((if starts e && existsb (writes watching) rest then 1 else 0)
       + lost watching rest)%nat
  end.

(** Whether [watchId] holds a watch after the events of a batch. *)
Definition held_after (watching : bool) (cell : bool) (events : list event) : bool :=
  foldl (fun cell e =>
           if starts e then true else if writes watching e then false else cell)
        cell events.

(** The watches lost over a schedule. *)
Fixpoint leaked (watching : bool) (schedule : list (list event)) : nat :=
  match schedule with
  | [] => 0%nat
  | events :: rest =>
      (lost watching events + leaked (held_after watching watching events) rest)%nat
  end.

(** The event that the mount effect is. *)
Definition mounting (options : GeolocationOptions) : event :=
  Does match watch (opts options) with
       | Some true => StartWatching
       | _ => GetCurrentPosition
       end.

Definition holds (cell : option Z) : bool :=
  match cell with
  | Some _ => true
  | None => false
  end.

(** The watches other than the one the last render saw. *)
Definition others (seen : option Z) (running : list Z) : list Z :=
  match seen with
  | Some id => List.filter (fun i => negb (i =? id)%Z) running
  | None => running
  end.

(** The browser's numbering: each running watch runs once and under a
    handle already handed out, as is the one the last render saw; and the
    watch in [watchId] runs. *)
Definition numbered (seen : option Z) (h : Hook) : Prop :=
  List.NoDup (watches h) /\
  Forall (fun i => i < next_handle h) (watches h) /\
  (forall id, seen = Some id -> id < next_handle h) /\
  (forall id, watchId h = Some id -> In id (watches h)).

(** A rendered hook that has lost [k] watches: the browser runs them and
    the one in [watchId]. *)
Definition rendered_with (k : nat) (h : Hook) : Prop :=
  numbered (watchId h) h /\
  length (watches h) = (k + length (option_list (watchId h)))%nat.

End GeolocationPageSpec.

Module LoaderSpec.
Import Js ErrorMessages GoogleMaps.

(** What the state of a promise of the loader says about the page. *)
Definition justified (w : World) (p : nat) (st : promise_state) : Prop :=
  match st with
  | Resolved => google_maps_present w = true
  | Rejected reason =>
      In reason ["Google Maps API key not found"; MAPS_LOAD_FAILED; "document is not defined"]
  | Pending => exists sc, scripts w = [sc] /\ settles sc = p
  end.

Definition sound (w : World) : Prop :=
  forall p st, promises w !! p = Some st -> justified w p st.

End LoaderSpec.

(** * Part II: properties *)

(** ** Properties of the response cache *)

Module ApiCacheFacts.
Import Js ApiCache.

Lemma get_set_fresh key v t0 t1 (cache : gmap string CacheItem) :
  t1 - t0 <= ttl ->
  get key t1 (set key v t0 cache) = (v, set key v t0 cache).
Proof.
  intros Hage. unfold get, set. rewrite lookup_insert_eq. cbn [timestamp data].
  destruct (Z.gtb_spec (t1 - t0) ttl) as [Hgt | _]; [lia | reflexivity].
Qed.

Lemma get_set_stale key v t0 t1 (cache : gmap string CacheItem) :
  ttl < t1 - t0 ->
  get key t1 (set key v t0 cache) = (VNull, delete key cache).
Proof.
  intros Hage. unfold get, set. rewrite lookup_insert_eq. cbn [timestamp data].
  destruct (Z.gtb_spec (t1 - t0) ttl) as [_ | Hle]; [| lia].
  by rewrite delete_insert_eq.
Qed.

Lemma size_set_delete key v t0 (cache : gmap string CacheItem) :
  size (set key v t0 cache) = S (size (delete key cache)).
Proof.
  unfold size, set. rewrite <- (insert_delete_eq cache).
  apply map_size_insert_None, lookup_delete_eq.
Qed.

(** C1 (as stated, refuted): [set("k", null)] at time 0 and [get("k")] at
    time 300001 returns [null], which is the stored value, although the
    entry's age exceeds the TTL: returning the stored value does not imply
    an age within the TTL. *)
Lemma get_returns_stored_iff_fresh_fails :
  fst (get "k" 300001 (set "k" VNull 0 ∅)) = VNull /\
  ~ (300001 - 0 <= ttl) /\
  ~ (forall key v t0 t1 (cache : gmap string CacheItem),
        fst (get key t1 (set key v t0 cache)) = v <-> t1 - t0 <= ttl).
Proof.
  split; [reflexivity |]. split; [intros Hle; vm_compute in Hle; auto |].
  intros H.
  specialize (H "k" VNull 0 300001 ∅) as [H _].
  assert (300001 - 0 <= ttl) as Hle by (apply H; reflexivity).
  vm_compute in Hle. apply Hle. reflexivity.
Qed.

(** C1 (amended): after [set(k, v)] at time [t0], a [get(k)] at time [t1]
    returns [v] and keeps the entry when [t1 - t0] is within the TTL;
    when the age exceeds the TTL it returns [null], removes the entry and
    [size()] drops by one.  Hence, for every [v] other than [null], [get(k)]
    returns [v] exactly when the age is within the TTL. *)
Theorem get_after_set key v t0 t1 (cache : gmap string CacheItem) :
  let stored := set key v t0 cache in
  let '(result, after) := get key t1 stored in
  (t1 - t0 <= ttl -> result = v /\ after = stored) /\
  (ttl < t1 - t0 ->
     result = VNull /\ after !! key = None /\
     after = delete key cache /\ size stored = S (size after)) /\
  (v <> VNull -> (result = v <-> t1 - t0 <= ttl)).
Proof.
  cbv zeta.
  destruct (Z.le_gt_cases (t1 - t0) ttl) as [Hle | Hgt].
  - rewrite get_set_fresh by assumption.
    repeat split; try lia; auto.
  - rewrite get_set_stale by assumption.
    split; [lia |]. split.
    + intros _. split; [reflexivity |]. split; [apply lookup_delete_eq |].
      split; [reflexivity | apply size_set_delete].
    + intros Hv. split; [congruence | lia].
Qed.

End ApiCacheFacts.


(** ** Properties of the geolocation hook *)

Module GeolocationFacts.
Import Js ErrorMessages Geolocation GeolocationSpec.

Section Unsupported.
Context {engine : Engine}.
Variable options : GeolocationOptions.

Lemma quiet_initial : quiet initial.
Proof. repeat split. Qed.

Lemma perform_quiet a h :
  quiet h -> exists h', perform None options a h = Returned h' /\ quiet h'.
Proof.
  intros (Hload & Hwatch & Hcalls).
  destruct a; cbn [perform].
  - eexists; split; [reflexivity | repeat split; assumption].
  - eexists; split; [reflexivity | repeat split; assumption].
  - unfold stopWatching. rewrite Hwatch.
    eexists; split; [reflexivity | repeat split; assumption].
  - eexists; split; [reflexivity | repeat split; assumption].
  - unfold reset. rewrite Hwatch.
    eexists; split; [reflexivity | repeat split; assumption].
Qed.

Lemma perform_all_quiet actions : forall h,
  quiet h -> exists h', perform_all None options actions h = Returned h' /\ quiet h'.
Proof.
  induction actions as [| a rest IH]; intros h Hq; cbn [perform_all].
  - eauto.
  - destruct (perform_quiet a h Hq) as (h1 & -> & Hq1).
    apply (IH h1 Hq1).
Qed.

Lemma mount_quiet : exists h, mount None options initial = Returned h /\ quiet h.
Proof.
  unfold mount. destruct (watch (opts options)) as [[|]|];
    (eexists; split; [reflexivity | repeat split]).
Qed.

Lemma mounted_then_quiet actions :
  exists h, mounted_then None options actions = Returned h /\ quiet h.
Proof.
  unfold mounted_then. destruct mount_quiet as (h0 & -> & Hq0).
  apply (perform_all_quiet actions h0 Hq0).
Qed.

(** [startWatching] itself leaves the loading flag as it finds it: that the
    flag is false afterwards rests on [quiet]. *)
Remark startWatching_keeps_loading h h' :
  startWatching None options h = Returned h' ->
  loading (state h') = loading (state h).
Proof. intros [= <-]. reflexivity. Qed.

(** C8: in a browser without the geolocation capability, after mounting
    and any sequence of actions, a call of [getCurrentPosition] or of
    [startWatching] returns at once with the unavailable-location message
    as the error and the loading flag false; no request reaches the
    browser, so no callback can change the state later. *)
Theorem unavailable_reported_synchronously (actions : list action) :
  exists h, mounted_then None options actions = Returned h /\
    (exists h1, getCurrentPosition None options h = Returned h1 /\
       error (state h1) = Some LOCATION_UNAVAILABLE /\
       loading (state h1) = false /\ calls h1 = []) /\
    (exists h2, startWatching None options h = Returned h2 /\
       error (state h2) = Some LOCATION_UNAVAILABLE /\
       loading (state h2) = false /\ calls h2 = [] /\ watchId h2 = None).
Proof.
  destruct (mounted_then_quiet actions) as (h & Hrun & Hload & Hwatch & Hcalls).
  exists h. split; [exact Hrun |]. split.
  - eexists. split; [reflexivity |]. cbn. auto.
  - eexists. split; [reflexivity |]. cbn. auto.
Qed.

End Unsupported.

End GeolocationFacts.

(** ** Properties of the Google Maps loader *)

Module GoogleMapsFacts.
Import Js ErrorMessages GoogleMaps GoogleMapsSpec.

(** Once the module variable is set, a call returns the promise it refers
    to and changes nothing. *)
Lemma loadGoogleMaps_cached proc w p :
  googleMapsPromise w = Some p -> loadGoogleMaps proc w = (p, w).
Proof. intros H. unfold loadGoogleMaps. rewrite H. reflexivity. Qed.

(** The first call creates one promise, caches it and appends at most one
    script. *)
Lemma loadGoogleMaps_first proc w :
  googleMapsPromise w = None ->
  let '(p, w') := loadGoogleMaps proc w in
  p = length (promises w) /\
  googleMapsPromise w' = Some p /\
  length (promises w') = S (length (promises w)) /\
  (length (scripts w') <= S (length (scripts w)))%nat /\
  (forall sc, In sc (scripts w') -> In sc (scripts w) \/ settles sc = p).
Proof.
  intros H. unfold loadGoogleMaps. rewrite H.
  destruct (executor proc w (length (promises w))) as [st appended] eqn:Hex.
  cbn [googleMapsPromise promises scripts].
  assert (appended = [] \/
          exists s, appended = [{| src := s; settles := length (promises w) |}]) as Happ.
  { unfold executor in Hex.
    destruct (has_window proc && google_maps_present w); [inversion Hex; auto |].
    destruct (negb (has_window proc)); [inversion Hex; auto |].
    destruct (apiKey proc) as [[| c k] |]; inversion Hex; eauto. }
  repeat split.
  - rewrite length_app. cbn. lia.
  - destruct Happ as [-> | [s ->]]; rewrite length_app; cbn; lia.
  - intros sc Hin. apply in_app_or in Hin as [Hin | Hin]; [auto |].
    destruct Happ as [-> | [s ->]]; [destruct Hin |].
    destruct Hin as [<- | []]. right. reflexivity.
Qed.

Lemma settle_keeps p st w :
  googleMapsPromise (settle p st w) = googleMapsPromise w /\
  length (promises (settle p st w)) = length (promises w) /\
  scripts (settle p st w) = scripts w.
Proof.
  unfold settle. destruct (promises w !! p) as [[| |] |]; cbn; auto.
  rewrite length_insert. auto.
Qed.

Lemma settle_singleton p st w : singleton w -> singleton (settle p st w).
Proof.
  unfold singleton. destruct (settle_keeps p st w) as (-> & Hlen & ->).
  destruct (googleMapsPromise w).
  - rewrite Hlen. auto.
  - intros [Hp Hs]. split; [| exact Hs].
    unfold settle. rewrite Hp. destruct ([] !! p) as [[| |] |]; cbn; auto.
Qed.

Lemma step_singleton w e : singleton w -> singleton (step w e).
Proof.
  intros Hw. destruct e as [proc | i defined | i |]; cbn [step]; [| | | exact Hw].
  - destruct (googleMapsPromise w) as [p |] eqn:Hp.
    + rewrite (loadGoogleMaps_cached proc w p Hp). exact Hw.
    + pose proof (loadGoogleMaps_first proc w Hp) as Hfirst.
      destruct (loadGoogleMaps proc w) as [p w'].
      destruct Hfirst as (-> & Hcache & Hlen & Hscripts & Hsettles).
      unfold singleton in Hw. rewrite Hp in Hw. destruct Hw as [Hps Hss].
      cbn [snd]. unfold singleton. rewrite Hcache.
      rewrite Hps in *. rewrite Hss in *. cbn in *.
      repeat split; try lia.
      intros sc Hin. destruct (Hsettles sc Hin) as [[] | ->]. reflexivity.
  - unfold onload. destruct (scripts w !! i); [| exact Hw].
    destruct (_ : bool); apply settle_singleton; exact Hw.
  - unfold onerror. destruct (scripts w !! i); [| exact Hw].
    apply settle_singleton; exact Hw.
Qed.

Lemma run_snoc events e : run (events ++ [e]) = step (run events) e.
Proof. unfold run. rewrite foldl_app. reflexivity. Qed.

Lemma run_singleton events : singleton (run events).
Proof.
  induction events as [| e events IH] using rev_ind.
  - cbn. auto.
  - rewrite run_snoc. apply step_singleton, IH.
Qed.

(** The cached reference is never replaced. *)
Lemma step_keeps_cache w e p :
  googleMapsPromise w = Some p -> googleMapsPromise (step w e) = Some p.
Proof.
  intros Hp. destruct e as [proc | i defined | i |]; cbn [step]; [| | | exact Hp].
  - rewrite (loadGoogleMaps_cached proc w p Hp). exact Hp.
  - unfold onload. destruct (scripts w !! i); [| exact Hp].
    destruct (_ : bool); rewrite (proj1 (settle_keeps _ _ _)); exact Hp.
  - unfold onerror. destruct (scripts w !! i); [| exact Hp].
    rewrite (proj1 (settle_keeps _ _ _)); exact Hp.
Qed.

(** A settled promise keeps its outcome. *)
Lemma settle_settled p q st w :
  promises w !! q <> Some Pending ->
  promises (settle p st w) !! q = promises w !! q.
Proof.
  intros Hq. unfold settle. destruct (promises w !! p) as [[| |] |] eqn:Hp; try reflexivity.
  cbn. apply list_lookup_insert_ne. intros ->. congruence.
Qed.

Lemma step_keeps_outcome w e q :
  is_Some (promises w !! q) -> promises w !! q <> Some Pending ->
  promises (step w e) !! q = promises w !! q.
Proof.
  intros Hsome Hq. destruct e as [proc | i defined | i |]; cbn [step];
    [| | | reflexivity].
  - unfold loadGoogleMaps. destruct (googleMapsPromise w); [reflexivity |].
    destruct (executor _ _ _). cbn.
    apply lookup_app_l, lookup_lt_is_Some. exact Hsome.
  - unfold onload. destruct (scripts w !! i); [| reflexivity].
    destruct (_ : bool); (rewrite settle_settled; [reflexivity | exact Hq]).
  - unfold onerror. destruct (scripts w !! i); [| reflexivity].
    apply settle_settled; exact Hq.
Qed.

(** What the first call leaves behind. *)
Lemma loadGoogleMaps_fresh proc w :
  googleMapsPromise w = None -> promises w = [] -> scripts w = [] ->
  loadGoogleMaps proc w =
  (0%nat, {| googleMapsPromise := Some 0%nat;
             promises := [fst (executor proc w 0)];
             scripts := snd (executor proc w 0);
             google_maps_present := google_maps_present w |}).
Proof.
  intros Hnone Hps Hss. unfold loadGoogleMaps. rewrite Hnone, Hps, Hss. cbn [length].
  destruct (executor proc w 0) as [st appended]. reflexivity.
Qed.

(** Without a credential the load fails at once, and no script is made. *)
Lemma executor_without_key proc w p :
  has_window proc = true -> google_maps_present w = false ->
  apiKey proc = None \/ apiKey proc = Some ""%string ->
  executor proc w p = (Rejected "Google Maps API key not found", []).
Proof.
  intros Hw Hg Hkey. unfold executor. rewrite Hw, Hg. cbn.
  destruct Hkey as [-> | ->]; reflexivity.
Qed.

(** C9: whatever happened so far in the process (calls of the loader with
    any credentials, script events), (1) at most one promise was created
    and at most one script was appended; (2) once a call was made, every
    further call returns the cached promise and changes nothing, be it
    pending, resolved or rejected: no script is appended and no new promise
    is made; (3) the first call creates the one promise with the outcome of
    its executor, a rejection when the credential is absent, and caches it;
    (4) the cached promise is never replaced, and an outcome once reached
    (resolved, or rejected by a missing credential or a script error) is
    kept. *)
Theorem loadGoogleMaps_once (events : list event) (proc : Process) :
  let w := run events in
  ((length (promises w) <= 1)%nat /\ (length (scripts w) <= 1)%nat) /\
  (forall p, googleMapsPromise w = Some p ->
     p = 0%nat /\ loadGoogleMaps proc w = (p, w) /\
     forall e, googleMapsPromise (step w e) = Some p) /\
  (googleMapsPromise w = None ->
     loadGoogleMaps proc w =
       (0%nat, {| googleMapsPromise := Some 0%nat;
                  promises := [fst (executor proc w 0)];
                  scripts := snd (executor proc w 0);
                  google_maps_present := google_maps_present w |}) /\
     (has_window proc = true -> google_maps_present w = false ->
      apiKey proc = None \/ apiKey proc = Some ""%string ->
      executor proc w 0 = (Rejected "Google Maps API key not found", []))) /\
  (forall q outcome, promises w !! q = Some outcome -> outcome <> Pending ->
     forall e, promises (step w e) !! q = Some outcome) /\
  (forall i sc, scripts w !! i = Some sc -> promises w !! settles sc = Some Pending ->
     promises (onerror i w) !! settles sc = Some (Rejected MAPS_LOAD_FAILED)).
Proof.
  cbv zeta. pose proof (run_singleton events) as Hs. unfold singleton in Hs.
  split; [| split; [| split; [| split]]].
  - destruct (googleMapsPromise (run events)); [lia |].
    destruct Hs as [-> ->]. cbn. lia.
  - intros p Hp. rewrite Hp in Hs. destruct Hs as (-> & _).
    split; [reflexivity |]. split; [apply loadGoogleMaps_cached, Hp |].
    intros e. apply step_keeps_cache, Hp.
  - intros Hnone. rewrite Hnone in Hs. destruct Hs as [Hps Hss].
    split; [apply loadGoogleMaps_fresh; assumption | apply executor_without_key].
  - intros q outcome Hq Hne e. rewrite <- Hq.
    apply step_keeps_outcome; [rewrite Hq; eauto | rewrite Hq; congruence].
  - intros i sc Hsc Hpending. unfold onerror. rewrite Hsc. unfold settle.
    rewrite Hpending. cbn. apply list_lookup_insert_eq.
    apply lookup_lt_is_Some. eauto.
Qed.

(** A missing credential is a cached failure: a later call with a
    credential gets the same rejected promise, and no script is made. *)
Example missing_key_is_cached :
  run [ Load {| has_window := true; apiKey := None |};
        Load {| has_window := true; apiKey := Some "k" |} ] =
  {| googleMapsPromise := Some 0%nat;
     promises := [Rejected "Google Maps API key not found"];
     scripts := [];
     google_maps_present := false |}.
Proof. reflexivity. Qed.

(** When the page has the SDK already, the first call resolves at once
    and appends no script. *)
Example present_sdk_is_reused :
  run [ DefinedElsewhere; Load {| has_window := true; apiKey := None |} ] =
  {| googleMapsPromise := Some 0%nat;
     promises := [Resolved];
     scripts := [];
     google_maps_present := true |}.
Proof. reflexivity. Qed.

(** A script error is a cached failure too: the load is not tried again. *)
Example script_error_is_cached :
  run [ Load {| has_window := true; apiKey := Some "k" |};
        ScriptFailed 0;
        Load {| has_window := true; apiKey := Some "k" |} ] =
  {| googleMapsPromise := Some 0%nat;
     promises := [Rejected MAPS_LOAD_FAILED];
     scripts := [ {| src := script_src "k"; settles := 0 |} ];
     google_maps_present := false |}.
Proof. reflexivity. Qed.

End GoogleMapsFacts.

(** ** Properties of the station-directory client *)

Module ApiClientFacts.
Import Js ErrorMessages ApiClient ApiClientSpec.

(** *** Printing of values *)

Section Printing.
Context {engine : Engine}.

(** The only thing printing can throw is the engine's [TypeError]. *)
Lemma to_string_throws v t :
  to_string v = Threw t -> t = ErrorObj typeErrorMessage.
Proof.
  revert t. induction v as [| | b | x | s | items IH | fields _] using value_ind';
    intros t; cbn [to_string]; try discriminate.
  - assert (forall t', elements to_string items = Threw t' ->
                    t' = ErrorObj typeErrorMessage) as Hel.
    { induction IH as [| item rest Hitem _ IHrest]; intros t'; [discriminate |].
      cbn [elements].
      destruct item; cbn;
        try (destruct (elements to_string rest) eqn:Hr; cbn; [discriminate |];
             intros [= <-]; apply IHrest; reflexivity).
      - destruct (elements to_string items) eqn:Hi; cbn.
        + destruct (elements to_string rest) eqn:Hr; cbn; [discriminate |].
          intros [= <-]. apply IHrest. reflexivity.
        + intros [= <-]. apply Hitem. cbn. rewrite Hi. reflexivity.
      - destruct (has_prop "toString" fields) eqn:Hp; cbn.
        + intros [= <-]. apply Hitem. cbn. rewrite Hp. reflexivity.
        + destruct (elements to_string rest) eqn:Hr; cbn; [discriminate |].
          intros [= <-]. apply IHrest. reflexivity. }
    destruct (elements to_string items) eqn:He; cbn; [discriminate |].
    intros [= <-]. apply Hel. reflexivity.
  - destruct (has_prop "toString" fields); [| discriminate].
    unfold type_error. intros [= <-]. reflexivity.
Qed.

Lemma toString_throws v t :
  toString v = Threw t -> t = ErrorObj typeErrorMessage.
Proof.
  destruct v; cbn [toString]; try apply to_string_throws;
    unfold type_error; intros [= <-]; reflexivity.
Qed.

End Printing.

(** *** The request pipeline *)

Section Pipeline.
Context {engine : Engine}.
Variable config : Config.
Variable apiKey : option string.
Variable fetch : Request -> outcome Response.

Lemma failed_reported t : failed t = 
  {| data := VArr []; success := false; message := None;
     error := Some (reported t); meta := None |}.
Proof. destruct t; reflexivity. Qed.

Lemma http_error_informative r : informative (http_error r).
Proof.
  unfold http_error. destruct (status r =? 429)%nat; cbn; discriminate.
Qed.

Lemma reported_nonempty t : informative t -> reported t <> "".
Proof. destruct t; cbn; [auto | discriminate]. Qed.

(** Building the query throws nothing but the engine's [TypeError]. *)
Lemma foldl_threw {A B : Type} (f : outcome A -> B -> outcome A) t l :
  (forall b, f (Threw t) b = Threw t) -> foldl f (Threw t) l = Threw t.
Proof.
  intros Hf. induction l as [| b l IH]; cbn; [reflexivity |].
  rewrite Hf. exact IH.
Qed.

Lemma append_items_throws (key : string) (items : list value) : forall acc t,
  (forall t', acc = Threw t' -> t' = ErrorObj typeErrorMessage) ->
  foldl (fun acc item => q ← acc; s ← toString item; Returned (q ++ [(key, s)])%list)
        acc items = Threw t ->
  t = ErrorObj typeErrorMessage.
Proof.
  induction items as [| item items IH]; intros acc t Hacc; cbn [foldl].
  - apply Hacc.
  - apply IH. intros t'. destruct acc as [q | t0]; cbn.
    + destruct (toString item) eqn:Hi; cbn; [discriminate |].
      intros [= <-]. eapply toString_throws, Hi.
    + intros [= <-]. apply Hacc. reflexivity.
Qed.

Lemma append_param_throws q entry t :
  append_param q entry = Threw t -> t = ErrorObj typeErrorMessage.
Proof.
  destruct entry as [key v]. unfold append_param.
  destruct v as [| | b | x | s | items | fields]; try discriminate.
  - destruct s; discriminate.
  - apply append_items_throws. discriminate.
  - destruct (toString (VObj fields)) eqn:Hs; cbn; [discriminate |].
    intros [= <-]. eapply toString_throws, Hs.
Qed.

Lemma build_query_throws params t :
  build_query apiKey params = Threw t -> t = ErrorObj typeErrorMessage.
Proof.
  unfold build_query. set (with_key := match apiKey with Some (String c k) => _ | _ => _ end).
  destruct params as [entries |]; [| discriminate].
  assert (forall acc,
            (forall t', acc = Threw t' -> t' = ErrorObj typeErrorMessage) ->
            foldl (fun acc entry => q ← acc; append_param q entry) acc entries = Threw t ->
            t = ErrorObj typeErrorMessage) as Hgen.
  { induction entries as [| entry entries IH]; intros acc Hacc; cbn [foldl].
    - apply Hacc.
    - apply IH. intros t'. destruct acc as [q | t0]; cbn.
      + apply append_param_throws.
      + intros [= <-]. apply Hacc. reflexivity. }
  apply Hgen. discriminate.
Qed.

(** [makeRequest], step by step. *)
Lemma makeRequest_query_throws endpoint params t :
  build_query apiKey params = Threw t ->
  makeRequest config apiKey fetch endpoint params = Returned (failed t).
Proof. intros H. unfold makeRequest. rewrite H. reflexivity. Qed.

Lemma makeRequest_fetch_rejects endpoint params q t :
  build_query apiKey params = Returned q ->
  fetch {| url := baseUrl +:+ endpoint; searchParams := q |} = Threw t ->
  makeRequest config apiKey fetch endpoint params = Returned (failed t).
Proof. intros Hq Hf. unfold makeRequest. rewrite Hq. cbn. rewrite Hf. reflexivity. Qed.

Lemma makeRequest_responds endpoint params q resp :
  build_query apiKey params = Returned q ->
  fetch {| url := baseUrl +:+ endpoint; searchParams := q |} = Returned resp ->
  makeRequest config apiKey fetch endpoint params =
  Returned (if ok resp then
              match json resp with
              | Returned payload => succeeded config payload
              | Threw t => failed t
              end
            else failed (http_error resp)).
Proof.
  intros Hq Hf. unfold makeRequest. rewrite Hq. cbn. rewrite Hf. cbn.
  unfold http_error. destruct (ok resp); cbn.
  - destruct (json resp); reflexivity.
  - destruct (status resp =? 429)%nat; reflexivity.
Qed.

(** The envelope of [makeRequest]: it always returns, with a success
    envelope or with the failure envelope of what was thrown. *)
Lemma makeRequest_envelope endpoint params :
  exists r, makeRequest config apiKey fetch endpoint params = Returned r /\
    ((exists payload, r = succeeded config payload) \/
     (exists t, r = failed t /\ (informative_platform fetch -> informative t))).
Proof.
  destruct (build_query apiKey params) as [q | t] eqn:Hq.
  - destruct (fetch {| url := baseUrl +:+ endpoint; searchParams := q |})
      as [resp | t] eqn:Hf.
    + rewrite (makeRequest_responds _ _ _ _ Hq Hf). eexists. split; [reflexivity |].
      destruct (ok resp).
      * destruct (json resp) as [payload | t] eqn:Hj; [left; eauto |].
        right. exists t. split; [reflexivity |]. intros [_ Hp].
        specialize (Hp {| url := baseUrl +:+ endpoint; searchParams := q |}).
        rewrite Hf, Hj in Hp. exact Hp.
      * right. exists (http_error resp). split; [reflexivity |].
        intros _. apply http_error_informative.
    + rewrite (makeRequest_fetch_rejects _ _ _ _ Hq Hf). eexists. split; [reflexivity |].
      right. exists t. split; [reflexivity |]. intros [_ Hp].
      specialize (Hp {| url := baseUrl +:+ endpoint; searchParams := q |}).
      rewrite Hf in Hp. exact Hp.
  - rewrite (makeRequest_query_throws _ _ _ Hq). eexists. split; [reflexivity |].
    right. exists t. split; [reflexivity |]. intros [Hte _].
    rewrite (build_query_throws _ _ Hq). exact Hte.
Qed.

(** *** Parameters that print *)








Lemma set_prop_plain key v fields :
  plain (key, v) -> Forall plain fields -> Forall plain (set_prop key v fields).
Proof.
  intros Hv. induction 1 as [| [k0 w] rest Hw Hrest IH]; cbn.
  - repeat constructor. exact Hv.
  - destruct (String.eqb k0 key); constructor; auto.
Qed.


Lemma set_when_plain {A : Type} (o : option A) key f fields :
  (forall a, o = Some a -> plain (key, f a)) ->
  Forall plain fields -> Forall plain (set_when o key f fields).
Proof. destruct o; cbn; [intros H; apply set_prop_plain; auto | auto]. Qed.

Lemma numbers_plain key l : plain (key, numbers l).
Proof.
  unfold plain, numbers. cbn. induction l; [reflexivity | exact IHl].
Qed.

Lemma add_location_plain filters params :
  Forall plain params -> Forall plain (add_location filters params).
Proof.
  intros H. unfold add_location. destruct (f_location filters); [| exact H].
  repeat (apply set_prop_plain; [reflexivity |]). exact H.
Qed.

Lemma add_radius_plain filters params :
  Forall plain params -> Forall plain (add_radius filters params).
Proof.
  intros H. unfold add_radius. destruct (truthy_opt_number _); [| exact H].
  repeat (apply set_prop_plain; [reflexivity |]). exact H.
Qed.

Lemma add_power_plain filters params :
  Forall plain params -> Forall plain (add_power filters params).
Proof.
  intros H. unfold add_power. destruct (f_powerKW filters); [| exact H].
  repeat (apply set_when_plain; [reflexivity |]). exact H.
Qed.

Lemma searchStations_params_plain filters :
  Forall plain (searchStations_params config filters).
Proof.
  unfold searchStations_params.
  do 2 (apply set_when_plain; [reflexivity |]).
  apply add_power_plain.
  do 4 (apply set_when_plain; [intros; apply numbers_plain |]).
  apply add_radius_plain, add_location_plain.
  repeat constructor.
Qed.





(** *** Responses *)



Lemma getStationById_params_plain id : Forall plain (getStationById_params id).
Proof. repeat constructor. Qed.

(** [getStationById] in terms of the envelope of its request. *)
Lemma getStationById_of_response id r :
  makeRequest config apiKey fetch "/poi" (Some (getStationById_params id)) = Returned r ->
  (success r = false -> getStationById config apiKey fetch id = Returned not_found) /\
  (forall items, success r = true -> data r = VArr items ->
     getStationById config apiKey fetch id =
     Returned match items with
              | [] => not_found
              | first :: _ =>
                  {| data := first; success := success r; message := message r;
                     error := error r; meta := meta r |}
              end).
Proof.
  intros Hr. unfold getStationById. rewrite Hr. cbn. split.
  - intros ->. reflexivity.
  - intros items -> ->. destruct items; reflexivity.
Qed.

End Pipeline.

(** *** The envelope *)

Section Claims.
Context {engine : Engine}.
Variable config : Config.
Variable apiKey : option string.
Variable fetch : Request -> outcome Response.

Lemma makeRequest_enveloped endpoint params :
  enveloped (informative_platform fetch) (makeRequest config apiKey fetch endpoint params).
Proof.
  destruct (makeRequest_envelope config apiKey fetch endpoint params)
    as (r & Hr & [[payload ->] | (t & -> & Ht)]);
    eexists; (split; [exact Hr |]).
  - left. split; reflexivity.
  - right. rewrite failed_reported. cbn. split; [reflexivity |]. split; [reflexivity |].
    eexists. split; [reflexivity |]. intros Hp. apply reported_nonempty, Ht, Hp.
Qed.

(** C2 (amended): [makeRequest] and the operations that pass its envelope
    on ([searchStations], the helpers on it and the five lookups) never
    throw.  A network error, a response outside 200-299 and a decode error
    each give the failed envelope of the error: [success = false], the
    empty array as data, and the error's message, which is not empty for a
    response outside 200-299, and for the other errors when the errors of
    the platform carry a message.  [getStationById] answers a failed
    request with [success = false], an empty object as data and the
    not-found message, and returns an envelope whenever the decoded payload
    is an array. *)
Theorem client_envelopes :
  (forall endpoint params,
     enveloped (informative_platform fetch)
       (makeRequest config apiKey fetch endpoint params)) /\
  (forall endpoint params q,
     build_query apiKey params = Returned q ->
     let request := {| url := baseUrl +:+ endpoint; searchParams := q |} in
     let result := makeRequest config apiKey fetch endpoint params in
     (forall t, fetch request = Threw t -> result = Returned (failed t)) /\
     (forall resp, fetch request = Returned resp -> ok resp = false ->
        result = Returned (failed (http_error resp)) /\ reported (http_error resp) <> "") /\
     (forall resp t, fetch request = Returned resp -> ok resp = true ->
        json resp = Threw t -> result = Returned (failed t)) /\
     (forall resp payload, fetch request = Returned resp -> ok resp = true ->
        json resp = Returned payload -> result = Returned (succeeded config payload))) /\
  (forall t,
     failed t = {| data := VArr []; success := false; message := None;
                   error := Some (reported t); meta := None |}) /\
  (forall filters,
     enveloped (informative_platform fetch) (searchStations config apiKey fetch filters) /\
     enveloped (informative_platform fetch)
       (searchStationsByLocation config apiKey fetch filters)) /\
  (forall lat lon radius,
     enveloped (informative_platform fetch)
       (searchNearbyStations config apiKey fetch lat lon radius)) /\
  (enveloped (informative_platform fetch) (getConnectionTypes config apiKey fetch) /\
   enveloped (informative_platform fetch) (getOperators config apiKey fetch) /\
   enveloped (informative_platform fetch) (getCountries config apiKey fetch) /\
   enveloped (informative_platform fetch) (getUsageTypes config apiKey fetch) /\
   enveloped (informative_platform fetch) (getStatusTypes config apiKey fetch)) /\
  (forall id, exists r,
     makeRequest config apiKey fetch "/poi" (Some (getStationById_params id)) = Returned r /\
     (success r = false ->
      getStationById config apiKey fetch id = Returned not_found /\
      getStationDetails config apiKey fetch id = Returned not_found) /\
     (forall items, data r = VArr items ->
      exists r', getStationById config apiKey fetch id = Returned r' /\
                 (success r' = true \/ r' = not_found))).
Proof.
  split; [intros; apply makeRequest_enveloped |].
  split.
  { intros endpoint params q Hq. cbv zeta.
    split; [| split; [| split]].
    - intros t Hf. apply (makeRequest_fetch_rejects _ _ _ _ _ _ _ Hq Hf).
    - intros resp Hf Hok. split.
      + rewrite (makeRequest_responds _ _ _ _ _ _ _ Hq Hf), Hok. reflexivity.
      + apply reported_nonempty, http_error_informative.
    - intros resp t Hf Hok Hj.
      rewrite (makeRequest_responds _ _ _ _ _ _ _ Hq Hf), Hok, Hj. reflexivity.
    - intros resp payload Hf Hok Hj.
      rewrite (makeRequest_responds _ _ _ _ _ _ _ Hq Hf), Hok, Hj. reflexivity. }
  split; [apply failed_reported |].
  split; [intros; split; apply makeRequest_enveloped |].
  split; [intros; apply makeRequest_enveloped |].
  split; [repeat split; apply makeRequest_enveloped |].
  intros id.
  destruct (makeRequest_envelope config apiKey fetch "/poi" (Some (getStationById_params id)))
    as (r & Hr & _).
  exists r. split; [exact Hr |].
  destruct (getStationById_of_response config apiKey fetch id r Hr) as [Hfail Hok].
  split.
  - intros Hs. split; [| unfold getStationDetails]; apply Hfail, Hs.
  - intros items Hdata. destruct (success r) eqn:Hs.
    + rewrite (Hok items eq_refl Hdata). eexists. split; [reflexivity |].
      destruct items; [right; reflexivity | left; reflexivity].
    + rewrite (Hfail eq_refl). eexists. split; [reflexivity |]. right. reflexivity.
Qed.



(** *** Parameters left out *)







End Claims.

(** *** The model on concrete requests *)

(** C2 (as stated, refuted): [getStationById] throws on a [null] payload
    and answers a failed request with an empty object, not an empty
    array; and [makeRequest] reports an empty message when that is the
    message of the rejection. *)
Lemma envelope_claim_fails :
  ~ enveloped True
      (getStationById (engine := Fixtures.small_engine) Fixtures.small_config None
         (Fixtures.answering 200 "OK" (Returned VNull)) 1%float) /\
  ~ enveloped True
      (getStationById (engine := Fixtures.small_engine) Fixtures.small_config None
         (Fixtures.answering 429 "Too Many Requests" (Returned VNull)) 1%float) /\
  ~ enveloped True
      (makeRequest (engine := Fixtures.small_engine) Fixtures.small_config None
         (Fixtures.rejecting (ErrorObj "")) "/poi" None).
Proof.
  repeat split; intros (r & Hr & Hcases); vm_compute in Hr.
  - discriminate.
  - injection Hr as <-. destruct Hcases as [[Hs _] | (_ & Hdata & _)]; discriminate.
  - injection Hr as <-. destruct Hcases as [[Hs _] | (_ & _ & msg & Hmsg & Hne)];
      [discriminate |].
    injection Hmsg as <-. apply Hne; [exact I | reflexivity].
Qed.


(** The platform of the worked examples: a network answering 503. *)
Lemma client_envelopes_example :
  informative_platform (engine := Fixtures.small_engine)
    (Fixtures.answering 503 "Service Unavailable" (Returned VNull)) /\
  makeRequest (engine := Fixtures.small_engine) Fixtures.small_config None
    (Fixtures.answering 503 "Service Unavailable" (Returned VNull)) "/operators" None =
  Returned {| data := VArr []; success := false; message := None;
              error := Some "API Error: 503 Service Unavailable"; meta := None |}.
Proof. split; [split; [discriminate | intros req; exact I] | reflexivity]. Qed.



End ApiClientFacts.

(** ** Facts of binary64 arithmetic *)

Module FloatFacts.
Import FloatSpec.

(** *** On the specification of the operations *)

Section Spec.
Variables prec emax : Z.

Lemma binary_round_aux_opp s m e l :
  binary_round_aux prec emax (negb s) m e l =
  SFopp (binary_round_aux prec emax s m e l).
Proof.
  unfold binary_round_aux.
  destruct (shr_fexp prec emax m e l) as [mrs' e'].
  destruct (shr_fexp prec emax _ e' loc_Exact) as [mrs'' e''].
  destruct (shr_m mrs''); [reflexivity | | reflexivity].
  destruct (e'' <=? emax - prec)%Z; reflexivity.
Qed.

Lemma binary_round_opp s m e :
  binary_round prec emax (negb s) m e = SFopp (binary_round prec emax s m e).
Proof.
  unfold binary_round. destruct (shl_align m e _) as [mz ez].
  apply binary_round_aux_opp.
Qed.

Lemma SFopp_involutive x : SFopp (SFopp x) = x.
Proof. destruct x as [s | s | | s m e]; cbn; rewrite ?negb_involutive; reflexivity. Qed.

Lemma xorb_negb_l a b : xorb (negb a) b = negb (xorb a b).
Proof. destruct a, b; reflexivity. Qed.

Lemma SFmul_opp_l x y :
  SFmul prec emax (SFopp x) y = SFopp (SFmul prec emax x y).
Proof.
  destruct x as [sx | sx | | sx mx ex], y as [sy | sy | | sy my ey];
    cbn [SFmul SFopp]; rewrite ?xorb_negb_l; try reflexivity.
  apply binary_round_aux_opp.
Qed.

Lemma SFmul_comm x y : SFmul prec emax x y = SFmul prec emax y x.
Proof.
  destruct x as [sx | sx | | sx mx ex], y as [sy | sy | | sy my ey];
    cbn [SFmul]; rewrite ?(xorb_comm sx sy); try reflexivity.
  rewrite (Pos.mul_comm mx my), (Z.add_comm ex ey). reflexivity.
Qed.

Lemma SFdiv_opp_l x y :
  SFdiv prec emax (SFopp x) y = SFopp (SFdiv prec emax x y).
Proof.
  destruct x as [sx | sx | | sx mx ex], y as [sy | sy | | sy my ey];
    cbn [SFdiv SFopp]; rewrite ?xorb_negb_l; try reflexivity.
  destruct (SFdiv_core_binary prec emax (Z.pos mx) ex (Z.pos my) ey) as [[mz ez] lz].
  apply binary_round_aux_opp.
Qed.

Lemma binary_normalize_opp m e :
  binary_normalize prec emax (- m) e false = SFopp (binary_normalize prec emax m e false) \/
  binary_normalize prec emax m e false = S754_zero false /\
  binary_normalize prec emax (- m) e false = S754_zero false.
Proof.
  destruct m as [| p | p]; cbn [Z.opp binary_normalize].
  - right. split; reflexivity.
  - left. apply (binary_round_opp false).
  - left. rewrite (binary_round_opp false), SFopp_involutive. reflexivity.
Qed.

(** Swapping the operands of a subtraction negates the difference, or
    leaves it at [+0]. *)
Lemma SFsub_swap x y :
  SFsub prec emax y x = SFopp (SFsub prec emax x y) \/
  SFsub prec emax x y = S754_zero false /\ SFsub prec emax y x = S754_zero false.
Proof.
  destruct x as [[|] | [|] | | sx mx ex], y as [[|] | [|] | | sy my ey];
    cbn [SFsub SFopp negb]; rewrite ?negb_involutive; auto.
  cbv zeta. rewrite (Z.min_comm ey ex).
  set (X := cond_Zopp sx _). set (Y := cond_Zopp sy _).
  replace (Y - X)%Z with (- (X - Y))%Z by lia.
  apply binary_normalize_opp.
Qed.

(** A number that is neither NaN nor infinite, minus itself, is [+0]. *)
Lemma SFsub_diag x :
  match x with S754_zero _ | S754_finite _ _ _ => True | _ => False end ->
  SFsub prec emax x x = S754_zero false.
Proof.
  destruct x as [[|] | s | | s m e]; try contradiction; intros _; try reflexivity.
  cbn [SFsub]. cbv zeta. rewrite Z.sub_diag. reflexivity.
Qed.

Lemma SFcompare_antisym x y :
  SFcompare y x = option_map CompOpp (SFcompare x y).
Proof.
  destruct x as [sx | [|] | | [|] mx ex], y as [sy | [|] | | [|] my ey];
    cbn [SFcompare option_map CompOpp]; try reflexivity;
    try (destruct sx; reflexivity); try (destruct sy; reflexivity).
  - rewrite (Z.compare_antisym ey ex). destruct (ey ?= ex)%Z; cbn; try reflexivity.
    rewrite CompOpp_involutive.
    rewrite (Pos.compare_cont_antisym my mx Eq). reflexivity.
  - rewrite (Z.compare_antisym ey ex). destruct (ey ?= ex)%Z; cbn; try reflexivity.
    rewrite (Pos.compare_cont_antisym mx my Eq). reflexivity.
Qed.

End Spec.

(** *** Products of numbers of magnitude at most one do not overflow *)

Lemma digits2_pos_upper p : (Z.pos p < 2 ^ Z.pos (digits2_pos p))%Z.
Proof.
  induction p as [p IH | p IH |]; cbn [digits2_pos];
    rewrite ?Pos2Z.inj_succ, ?Z.pow_succ_r by lia; lia.
Qed.

Lemma digits2_pos_lower p : (2 ^ (Z.pos (digits2_pos p) - 1) <= Z.pos p)%Z.
Proof.
  induction p as [p IH | p IH |]; cbn [digits2_pos]; [| | cbn; lia];
    rewrite Pos2Z.inj_succ;
    replace (Z.succ (Z.pos (digits2_pos p)) - 1)%Z
      with (Z.succ (Z.pos (digits2_pos p) - 1))%Z by lia;
    rewrite Z.pow_succ_r by lia; lia.
Qed.

Lemma digits2_pos_mul a b :
  (Z.pos (digits2_pos (a * b)) <= Z.pos (digits2_pos a) + Z.pos (digits2_pos b))%Z.
Proof.
  pose proof (digits2_pos_upper a) as Ha.
  pose proof (digits2_pos_upper b) as Hb.
  pose proof (digits2_pos_lower (a * b)) as Hab.
  destruct (Z.le_gt_cases (Z.pos (digits2_pos (a * b)))
              (Z.pos (digits2_pos a) + Z.pos (digits2_pos b))) as [Hle | Hgt];
    [exact Hle | exfalso].
  assert (2 ^ (Z.pos (digits2_pos a) + Z.pos (digits2_pos b))
          <= 2 ^ (Z.pos (digits2_pos (a * b)) - 1))%Z as Hpow
    by (apply Z.pow_le_mono_r; lia).
  rewrite Z.pow_add_r in Hpow by lia.
  rewrite Pos2Z.inj_mul in Hab. nia.
Qed.

Lemma digits2_pos_succ p :
  (Z.pos (digits2_pos (Pos.succ p)) <= Z.pos (digits2_pos p) + 1)%Z.
Proof.
  induction p as [p IH | p IH |].
  - change (Pos.succ p~1) with (Pos.succ p)~0%positive. cbn [digits2_pos].
    rewrite !Pos2Z.inj_succ. lia.
  - change (Pos.succ p~0) with p~1%positive. cbn [digits2_pos].
    rewrite !Pos2Z.inj_succ. lia.
  - cbv. discriminate.
Qed.

Lemma within_succ d m : within d m -> within (d + 1) (m + 1).
Proof.
  intros [Hm Hd]. split; [lia |].
  destruct m as [| p | p]; [| | lia].
  { change (Zdigits2 (0 + 1)) with 1%Z. change (Zdigits2 0) with 0%Z in Hd. lia. }
  replace (Z.pos p + 1)%Z with (Z.pos (Pos.succ p)) by lia.
  cbn [Zdigits2] in *. pose proof (digits2_pos_succ p). lia.
Qed.

Lemma within_weaken d d' m : (d <= d')%Z -> within d m -> within d' m.
Proof. unfold within. lia. Qed.

Lemma shr_1_within d mrs : within d (shr_m mrs) -> within d (shr_m (shr_1 mrs)).
Proof.
  destruct mrs as [m r s]. cbn [shr_m]. intros [Hm Hd].
  destruct m as [| [p | p |] | p]; cbn [shr_1 shr_m Zdigits2 digits2_pos] in *;
    try lia; unfold within; cbn [Zdigits2];
    try rewrite Pos2Z.inj_succ in Hd; lia.
Qed.

Lemma iter_pos_within d p : forall mrs,
  within d (shr_m mrs) -> within d (shr_m (SpecFloat.iter_pos shr_1 p mrs)).
Proof.
  induction p as [p IH | p IH |]; intros mrs H; cbn [SpecFloat.iter_pos].
  - apply IH, IH, shr_1_within, H.
  - apply IH, IH, H.
  - apply shr_1_within, H.
Qed.

Section Binary64.

(** The exponent [shr_fexp] settles on, and its mantissa. *)
Lemma shr_fexp_bounds d m e l :
  within d m ->
  let '(mrs, e') := shr_fexp prec emax m e l in
  (e' <= Z.max e (fexp64 (d + e)))%Z /\ within d (shr_m mrs).
Proof.
  intros Hm. unfold shr_fexp, shr.
  assert (shr_m (shr_record_of_loc m l) = m) as Hrec
    by (destruct l as [| []]; reflexivity).
  assert (SpecFloat.fexp prec emax (Zdigits2 m + e) <= fexp64 (d + e))%Z as Hmono.
  { unfold fexp64, SpecFloat.fexp. destruct Hm. lia. }
  destruct (SpecFloat.fexp prec emax (Zdigits2 m + e) - e)%Z as [| n | n] eqn:Hn.
  - split; [lia | rewrite Hrec; exact Hm].
  - split; [lia |]. apply iter_pos_within. rewrite Hrec. exact Hm.
  - split; [lia | rewrite Hrec; exact Hm].
Qed.

Lemma round_nearest_even_within d m l :
  within d m -> within (d + 1) (round_nearest_even m l).
Proof.
  intros Hm. unfold round_nearest_even.
  destruct l as [| [| |]]; try (apply (within_weaken d); [lia | exact Hm]).
  - destruct (Z.even m); [apply (within_weaken d); [lia | exact Hm] |].
    apply within_succ, Hm.
  - apply within_succ, Hm.
Qed.

(** Rounding a mantissa of at most 106 digits at an exponent of at most
    864 yields a zero or a finite number, whose exponent is bounded. *)
Lemma binary_round_aux_bounded s m e l :
  within 106 m -> (e <= 864)%Z ->
  match binary_round_aux prec emax s m e l with
  | S754_zero _ => True
  | S754_finite _ _ e'' => (e'' <= Z.max (e + 107) (-1020))%Z
  | S754_infinity _ | S754_nan => False
  end.
Proof.
  intros Hm He. unfold binary_round_aux.
  pose proof (shr_fexp_bounds 106 m e l Hm) as H1.
  destruct (shr_fexp prec emax m e l) as [mrs' e'].
  destruct H1 as [He' Hm'].
  pose proof (shr_fexp_bounds 107
                (round_nearest_even (shr_m mrs') (loc_of_shr_record mrs')) e' loc_Exact
                (round_nearest_even_within 106 _ _ Hm')) as H2.
  destruct (shr_fexp prec emax _ e' loc_Exact) as [mrs'' e''].
  destruct H2 as [He'' [Hm'' _]].
  destruct (shr_m mrs'') as [| p | p]; [exact I | | lia].
  assert (e'' <= Z.max (e + 107) (-1020))%Z as Hexp.
  { unfold fexp64, SpecFloat.fexp, SpecFloat.emin, prec, emax in *. lia. }
  assert (e'' <= emax - prec)%Z as Hfit by (unfold prec, emax; lia).
  apply Z.leb_le in Hfit. rewrite Hfit. exact Hexp.
Qed.

Lemma binary_round_aux_small s m e :
  within 106 m -> (e <= -104)%Z ->
  match binary_round_aux prec emax s m e loc_Exact with
  | S754_zero _ | S754_finite _ _ _ => True
  | S754_infinity _ | S754_nan => False
  end.
Proof.
  intros Hm He.
  pose proof (binary_round_aux_bounded s m e loc_Exact Hm ltac:(lia)) as H.
  destruct (binary_round_aux prec emax s m e loc_Exact); auto.
Qed.

(** Validity bounds the digits of a mantissa. *)
Lemma valid_digits s m e :
  valid_binary (S754_finite s m e) = true -> (Z.pos (digits2_pos m) <= 53)%Z.
Proof.
  cbn [SpecFloat.valid_binary]. unfold bounded, canonical_mantissa.
  intros H. apply andb_prop in H as [H _]. apply Z.eqb_eq in H.
  unfold SpecFloat.fexp, SpecFloat.emin, prec, emax in H. lia.
Qed.

Lemma SFmul_small x y :
  valid_binary x = true -> valid_binary y = true ->
  SFleb (SFabs x) (S754_finite false 4503599627370496 (-52)) = true ->
  SFleb (SFabs y) (S754_finite false 4503599627370496 (-52)) = true ->
  match SF64mul x y with
  | S754_zero _ | S754_finite _ _ _ => True
  | S754_infinity _ | S754_nan => False
  end.
Proof.
  assert (forall s m e,
            SFleb (SFabs (S754_finite s m e))
                  (S754_finite false 4503599627370496 (-52)) = true ->
            (e <= -52)%Z) as Hexp.
  { intros s m e. unfold SFleb. cbn [SFabs SFcompare].
    destruct (Z.compare_spec e (-52)); [lia | lia | discriminate]. }
  intros Vx Vy Hx Hy.
  destruct x as [sx | sx | | sx mx ex], y as [sy | sy | | sy my ey];
    try discriminate; try exact I.
  unfold SF64mul. cbn [SFmul].
  apply binary_round_aux_small.
  - split; [lia |]. cbn [Zdigits2].
    pose proof (digits2_pos_mul mx my). pose proof (valid_digits _ _ _ Vx).
    pose proof (valid_digits _ _ _ Vy). lia.
  - pose proof (Hexp _ _ _ Hx). pose proof (Hexp _ _ _ Hy). lia.
Qed.

(** The digits of a number below a power of two. *)
Lemma within_below m k : (0 <= m < 2 ^ k)%Z -> (0 <= k)%Z -> within k m.
Proof.
  intros [Hm Hlt] Hk. split; [exact Hm |].
  destruct m as [| p | p]; [cbn; lia | | lia]. cbn [Zdigits2].
  pose proof (digits2_pos_lower p) as Hlow.
  destruct (Z.le_gt_cases (Z.pos (digits2_pos p)) k) as [Hle | Hgt]; [exact Hle |].
  assert (2 ^ k <= 2 ^ (Z.pos (digits2_pos p) - 1))%Z
    by (apply Z.pow_le_mono_r; lia).
  lia.
Qed.

(** A product with a factor of magnitude at most 90 and [Math.PI], and its
    quotient by 180: both are zeros or finite. *)
Lemma SFmul_pi_bounded s m e :
  valid_binary (S754_finite s m e) = true -> (e <= -46)%Z ->
  match SF64mul (S754_finite s m e) (S754_finite false 7074237752028440 (-51)) with
  | S754_zero _ => True
  | S754_finite _ _ e' => (e' <= 10)%Z
  | S754_infinity _ | S754_nan => False
  end.
Proof.
  intros Hvalid He. unfold SF64mul. cbn [SFmul].
  assert (within 106 (Z.pos (m * 7074237752028440))) as Hw.
  { split; [lia |]. cbn [Zdigits2].
    pose proof (digits2_pos_mul m 7074237752028440) as Hmul.
    pose proof (valid_digits _ _ _ Hvalid) as Hd.
    change (Z.pos (digits2_pos 7074237752028440)) with 53%Z in Hmul. lia. }
  pose proof (binary_round_aux_bounded (xorb s false) _ (e + -51) loc_Exact Hw
                ltac:(lia)) as H.
  destruct (binary_round_aux prec emax _ _ _ loc_Exact); auto. lia.
Qed.

Lemma SFdiv_180_bounded s m e :
  valid_binary (S754_finite s m e) = true -> (e <= 10)%Z ->
  match SF64div (S754_finite s m e) (S754_finite false 6333186975989760 (-45)) with
  | S754_zero _ | S754_finite _ _ _ => True
  | S754_infinity _ | S754_nan => False
  end.
Proof.
  intros Hvalid He. unfold SF64div. cbn [SFdiv].
  pose proof (valid_digits _ _ _ Hvalid) as Hd.
  pose proof (digits2_pos_upper m) as Hupper.
  unfold SFdiv_core_binary. cbn [Zdigits2].
  change (Z.pos (digits2_pos 6333186975989760)) with 53%Z.
  set (d1 := Z.pos (digits2_pos m)) in *.
  set (e' := Z.min (SpecFloat.fexp prec emax (d1 + e - (53 + -45))) (e - -45)).
  assert (e' <= e + 45)%Z as He' by (subst e'; lia).
  assert (0 <= e - -45 - e' <= 106 - d1)%Z as Hs.
  { subst e'. unfold SpecFloat.fexp, SpecFloat.emin, prec, emax. lia. }
  set (m' := match (e - -45 - e')%Z with
             | Z.pos _ => Z.shiftl (Z.pos m) (e - -45 - e')
             | 0%Z => Z.pos m
             | Z.neg _ => 0%Z
             end).
  assert (0 <= m' < 2 ^ 106)%Z as Hm'.
  { subst m'. destruct (e - -45 - e')%Z as [| p | p] eqn:Hshift.
    - split; [lia |]. eapply Z.lt_le_trans; [exact Hupper |].
      apply Z.pow_le_mono_r; lia.
    - rewrite Z.shiftl_mul_pow2 by lia. split; [lia |].
      apply Z.lt_le_trans with (2 ^ d1 * 2 ^ Z.pos p)%Z.
      + apply Z.mul_lt_mono_pos_r; [apply Z.pow_pos_nonneg; lia | exact Hupper].
      + rewrite <- Z.pow_add_r by lia. apply Z.pow_le_mono_r; lia.
    - lia. }
  destruct (Z.div_eucl m' 6333186975989760) as [q r] eqn:Hdiv.
  assert (q = m' / 6333186975989760)%Z as Hq
    by (unfold Z.div; rewrite Hdiv; reflexivity).
  assert (0 <= q <= m')%Z as Hq'.
  { subst q. split; [apply Z.div_pos; lia |].
    apply Z.div_le_upper_bound; lia. }
  pose proof (binary_round_aux_bounded (xorb s false) q e'
                (new_location 6333186975989760 r)) as H.
  destruct (binary_round_aux prec emax _ q e' _); auto;
    apply H; try lia; apply within_below; lia.
Qed.

End Binary64.

(** *** On the primitive operations *)

Local Open Scope float_scope.

Lemma opp_involutive x : - (- x) = x.
Proof. apply Prim2SF_inj. rewrite !opp_spec. apply SFopp_involutive. Qed.

Lemma mul_comm x y : x * y = y * x.
Proof. apply Prim2SF_inj. rewrite !mul_spec. apply SFmul_comm. Qed.

Lemma mul_opp_l x y : (- x) * y = - (x * y).
Proof.
  apply Prim2SF_inj. rewrite opp_spec, !mul_spec, opp_spec. apply SFmul_opp_l.
Qed.

Lemma mul_opp_r x y : x * (- y) = - (x * y).
Proof. rewrite (mul_comm x (- y)), mul_opp_l, (mul_comm y x). reflexivity. Qed.

Lemma mul_opp_opp x y : (- x) * (- y) = x * y.
Proof. rewrite mul_opp_l, mul_opp_r, opp_involutive. reflexivity. Qed.

Lemma div_opp_l x y : (- x) / y = - (x / y).
Proof.
  apply Prim2SF_inj. rewrite opp_spec, !div_spec, opp_spec. apply SFdiv_opp_l.
Qed.

Lemma sub_swap x y : y - x = - (x - y) \/ (x - y = 0 /\ y - x = 0).
Proof.
  destruct (SFsub_swap prec emax (Prim2SF x) (Prim2SF y)) as [H | [H1 H2]].
  - left. apply Prim2SF_inj. rewrite opp_spec, !sub_spec. exact H.
  - right. split; apply Prim2SF_inj; rewrite sub_spec; assumption.
Qed.

Lemma sub_diag x : Distance.is_finite x = true -> x - x = 0.
Proof.
  intros Hfin. apply Prim2SF_inj. rewrite sub_spec.
  apply SFsub_diag. unfold Distance.is_finite in Hfin.
  destruct (Prim2SF x); try discriminate; exact I.
Qed.

(** A product with a number that is neither NaN nor infinite on the left
    and [+0] on the right is a zero. *)
Lemma mul_zero_r x :
  Distance.is_finite x = true -> (x * 0 = 0 \/ x * 0 = -0).
Proof.
  intros Hfin. unfold Distance.is_finite in Hfin.
  destruct (Prim2SF x) as [s | s | | s m e] eqn:Hx; try discriminate.
  - destruct s; [right | left]; apply Prim2SF_inj; rewrite mul_spec, Hx; reflexivity.
  - destruct s; [right | left]; apply Prim2SF_inj; rewrite mul_spec, Hx; reflexivity.
Qed.

Lemma mul_bounded_finite x y :
  (abs x <=? 1) = true -> (abs y <=? 1) = true ->
  Distance.is_finite (x * y) = true.
Proof.
  rewrite !FloatAxioms.leb_spec, !abs_spec. change (Prim2SF 1) with
    (S754_finite false 4503599627370496 (-52)).
  intros Hx Hy. unfold Distance.is_finite. rewrite mul_spec.
  pose proof (SFmul_small (Prim2SF x) (Prim2SF y)
                (Prim2SF_valid x) (Prim2SF_valid y) Hx Hy) as H.
  destruct (SF64mul (Prim2SF x) (Prim2SF y)); [reflexivity | contradiction ..| reflexivity].
Qed.

(** A number of magnitude at most 90, taken as degrees, has a finite
    measure in radians. *)
Lemma degrees_to_radians_finite x :
  (abs x <=? 90) = true ->
  Distance.is_finite ((x * Distance.PI) / 180) = true.
Proof.
  rewrite FloatAxioms.leb_spec, abs_spec.
  change (Prim2SF 90) with (S754_finite false 6333186975989760 (-46)).
  intros Hx. unfold Distance.is_finite. rewrite div_spec.
  change (Prim2SF 180) with (S754_finite false 6333186975989760 (-45)).
  pose proof (Prim2SF_valid (x * Distance.PI)) as Hvalid.
  pose proof (Prim2SF_valid x) as Hvx.
  rewrite mul_spec in *.
  change (Prim2SF Distance.PI) with (S754_finite false 7074237752028440 (-51)) in *.
  destruct (Prim2SF x) as [s | s | | s m e]; try discriminate.
  - destruct s; reflexivity.
  - assert (e <= -46)%Z as He.
    { revert Hx. unfold SFleb. cbn [SFabs SFcompare].
      destruct (Z.compare_spec e (-46)); [lia | lia | discriminate]. }
    pose proof (SFmul_pi_bounded s m e Hvx He) as Hmul.
    destruct (SF64mul _ _) as [s' | s' | | s' m' e'] eqn:Hprod; try contradiction.
    + destruct s'; reflexivity.
    + pose proof (SFdiv_180_bounded s' m' e' Hvalid Hmul) as Hdiv.
      destruct (SF64div _ _); try contradiction; reflexivity.
Qed.

(** Adding a zero to [+0] gives [+0]. *)
Lemma add_zero_zero z : (z = 0 \/ z = -0) -> 0 + z = 0.
Proof. intros [-> | ->]; reflexivity. Qed.

Lemma zero_mul_zero z : (z = 0 \/ z = -0) -> (z * 0 = 0 \/ z * 0 = -0).
Proof. intros [-> | ->]; [left | right]; reflexivity. Qed.

Lemma eqb_leb x y : (x =? y) = true -> (x <=? y) = true.
Proof.
  rewrite FloatAxioms.eqb_spec, FloatAxioms.leb_spec. unfold SFeqb, SFleb.
  destruct (SFcompare _ _) as [[| |] |]; congruence.
Qed.

Lemma leb_not_ltb x y : (x <=? y) = true -> (y <? x) = false.
Proof.
  rewrite FloatAxioms.leb_spec, FloatAxioms.ltb_spec. unfold SFleb, SFltb.
  rewrite (SFcompare_antisym (Prim2SF x) (Prim2SF y)).
  destruct (SFcompare _ _) as [[| |] |]; cbn; congruence.
Qed.

End FloatFacts.

(** ** Properties of the distance utility *)

Module DistanceFacts.
Import Js Distance FloatSpec FloatFacts DistanceSpec.
Local Open Scope float_scope.

(** *** The text [toFixed] produces *)

Lemma app_cons c a b : (String c a +:+ b)%string = String c (a +:+ b).
Proof. reflexivity. Qed.

Lemma all_digits_app a b :
  all_digits a = true -> all_digits b = true -> all_digits (a +:+ b) = true.
Proof.
  intros Ha Hb. induction a as [| c a IH]; [exact Hb |].
  rewrite app_cons. cbn [all_digits] in *.
  apply andb_prop in Ha as [Hc Ha]. rewrite Hc. exact (IH Ha).
Qed.

Lemma all_digits_zeros n : all_digits (zeros n) = true.
Proof. induction n; [reflexivity | exact IHn]. Qed.

Lemma length_zeros n : String.length (zeros n) = n.
Proof. induction n; cbn; congruence. Qed.

Lemma length_app_string a b :
  String.length (a +:+ b) = (String.length a + String.length b)%nat.
Proof.
  induction a as [| c a IH]; [reflexivity |].
  rewrite app_cons. cbn [String.length]. rewrite IH. reflexivity.
Qed.

Lemma app_empty_r a : (a +:+ "")%string = a.
Proof.
  induction a as [| c a IH]; [reflexivity |]. rewrite app_cons, IH. reflexivity.
Qed.

Lemma all_digits_substring s : forall n m,
  all_digits s = true -> all_digits (substring n m s) = true.
Proof.
  induction s as [| c s IH]; intros n m Hs; [destruct n, m; reflexivity |].
  cbn [all_digits] in Hs. apply andb_prop in Hs as [Hc Hs].
  destruct n as [| n]; cbn [substring].
  - destruct m as [| m]; [reflexivity |]. cbn [all_digits]. rewrite Hc. apply IH, Hs.
  - apply IH, Hs.
Qed.

Lemma length_substring s : forall n m,
  (n + m <= String.length s)%nat -> String.length (substring n m s) = m.
Proof.
  induction s as [| c s IH]; intros n m Hlen; cbn [String.length] in Hlen.
  - assert (n = 0%nat /\ m = 0%nat) as [-> ->] by lia. reflexivity.
  - destruct n as [| n]; cbn [substring].
    + destruct m as [| m]; [reflexivity |]. cbn [String.length].
      rewrite IH by lia. reflexivity.
    + apply IH. lia.
Qed.

Lemma all_digits_uint d : all_digits (NilEmpty.string_of_uint d) = true.
Proof. induction d; cbn [NilEmpty.string_of_uint all_digits]; auto. Qed.

Lemma decimal_digits n : all_digits (decimal n) = true /\ decimal n <> ""%string.
Proof.
  unfold decimal, NilZero.string_of_uint.
  destruct (N.to_uint (Z.to_N n)) as [| d | d | d | d | d | d | d | d | d | d];
    (split; [try reflexivity; apply all_digits_uint | discriminate]).
Qed.

Lemma insert_point_text digits f :
  all_digits digits = true -> digits <> ""%string ->
  unsigned_text f (insert_point digits f).
Proof.
  intros Hd Hne. unfold insert_point. destruct f as [| f'].
  - exists digits, ""%string. rewrite app_empty_r. repeat split; auto.
  - set (f := S f'). cbv zeta.
    set (padded := if (String.length digits <=? f)%nat
                   then (zeros (f + 1 - String.length digits) +:+ digits)%string
                   else digits).
    assert (all_digits padded = true) as Hpd.
    { subst padded. destruct (_ <=? _)%nat; [| exact Hd].
      apply all_digits_app; [apply all_digits_zeros | exact Hd]. }
    assert (f < String.length padded)%nat as Hlen.
    { subst padded. destruct (Nat.leb_spec (String.length digits) f) as [Hle | Hgt].
      - rewrite length_app_string, length_zeros. lia.
      - exact Hgt. }
    exists (substring 0 (String.length padded - f) padded),
      (substring (String.length padded - f) f padded).
    split; [reflexivity |].
    split.
    { intros Hempty.
      pose proof (length_substring padded 0 (String.length padded - f)) as Hl.
      rewrite Hempty in Hl. cbn in Hl. lia. }
    split; [apply all_digits_substring, Hpd |].
    split; [apply all_digits_substring, Hpd |].
    apply length_substring. lia.
Qed.

(** Below [10^21] the mantissa and exponent pass the test of [toFixed]. *)
Lemma below_1e21 x s m e :
  Prim2SF x = S754_finite s m e ->
  (abs x <? 1e21) = true ->
  at_least_1e21 m e = false.
Proof.
  intros Hx. rewrite FloatAxioms.ltb_spec, abs_spec, Hx.
  change (Prim2SF 1e21) with (S754_finite false 7629394531250000 17).
  unfold SFltb. cbn [SFabs SFcompare].
  pose proof (Prim2SF_valid x) as Hvalid. rewrite Hx in Hvalid.
  pose proof (valid_digits _ _ _ Hvalid) as Hdigits.
  pose proof (digits2_pos_upper m) as Hupper.
  assert (Z.pos m < 2 ^ 53)%Z as Hm.
  { eapply Z.lt_le_trans; [exact Hupper |]. apply Z.pow_le_mono_r; lia. }
  unfold at_least_1e21.
  destruct (Z.compare_spec e 17) as [-> | Hlt | Hgt]; try discriminate.
  - rewrite Pos.compare_cont_spec. cbn [Pos.switch_Eq].
    destruct (Pos.compare_spec m 7629394531250000) as [| Hlt |]; try discriminate.
    intros _. apply Z.leb_gt. apply Pos2Z.pos_lt_pos in Hlt.
    change (2 ^ 17)%Z with 131072%Z.
    change (10 ^ 21)%Z with 1000000000000000000000%Z. lia.
  - intros _. destruct e as [| p | p].
    + apply Z.leb_gt. change (2 ^ 0)%Z with 1%Z.
      change (2 ^ 53)%Z with 9007199254740992%Z in *.
      change (10 ^ 21)%Z with 1000000000000000000000%Z. lia.
    + apply Z.leb_gt.
      assert (2 ^ Z.pos p <= 2 ^ 16)%Z by (apply Z.pow_le_mono_r; lia).
      assert (0 < 2 ^ Z.pos p)%Z by (apply Z.pow_pos_nonneg; lia).
      change (2 ^ 16)%Z with 65536%Z in *. change (2 ^ 53)%Z with 9007199254740992%Z in *.
      change (10 ^ 21)%Z with 1000000000000000000000%Z. nia.
    + apply Z.leb_gt.
      assert (1 <= 2 ^ Z.pos p)%Z by (apply Z.lt_pred_le, Z.pow_pos_nonneg; lia).
      change (2 ^ 53)%Z with 9007199254740992%Z in *.
      change (10 ^ 21)%Z with 1000000000000000000000%Z. nia.
Qed.

Section Haversine.
Context {engine : Engine} {laws : MathLaws engine}.

(** Any number below [10^21] in magnitude prints with exactly [f]
    decimals. *)
Lemma toFixed_text x f : (abs x <? 1e21) = true -> fixed_text f (toFixed x f).
Proof.
  intros Hx. unfold toFixed.
  destruct (Prim2SF x) as [s | s | | s m e] eqn:Hp.
  - exists ""%string, (insert_point "0" f). split; [reflexivity |].
    split; [left; reflexivity |]. apply insert_point_text; [reflexivity | discriminate].
  - exfalso. revert Hx. rewrite FloatAxioms.ltb_spec, abs_spec, Hp. discriminate.
  - exfalso. revert Hx. rewrite FloatAxioms.ltb_spec, abs_spec, Hp. discriminate.
  - rewrite (below_1e21 x s m e Hp Hx).
    destruct (decimal_digits (nearest_scaled m e f)) as [Hd Hne].
    exists (if s then "-" else "")%string, (insert_point (decimal (nearest_scaled m e f)) f).
    split; [reflexivity |]. split; [destruct s; auto |].
    apply insert_point_text; assumption.
Qed.

Lemma half_sine_opp d : half_sine (- d) = - half_sine d.
Proof.
  unfold half_sine. rewrite mul_opp_l, !div_opp_l. apply sin_odd.
Qed.

Lemma half_sine_swap x y :
  half_sine (y - x) = - half_sine (x - y) \/ half_sine (y - x) = half_sine (x - y).
Proof.
  destruct (sub_swap x y) as [-> | [-> ->]]; [left; apply half_sine_opp | right; reflexivity].
Qed.

Lemma square_swap x y :
  half_sine (y - x) * half_sine (y - x) = half_sine (x - y) * half_sine (x - y).
Proof.
  destruct (half_sine_swap x y) as [-> | ->]; [apply mul_opp_opp | reflexivity].
Qed.

Lemma scaled_square_swap c x y :
  c * half_sine (y - x) * half_sine (y - x) = c * half_sine (x - y) * half_sine (x - y).
Proof.
  destruct (half_sine_swap x y) as [-> | ->]; [| reflexivity].
  rewrite (mul_opp_r c). apply mul_opp_opp.
Qed.

Lemma calculateDistance_swap lat1 lon1 lat2 lon2 :
  calculateDistance lat1 lon1 lat2 lon2 = calculateDistance lat2 lon2 lat1 lon1.
Proof.
  unfold calculateDistance. cbv zeta. fold (half_sine (lat2 - lat1)).
  fold (half_sine (lat1 - lat2)). fold (half_sine (lon2 - lon1)).
  fold (half_sine (lon1 - lon2)).
  rewrite (square_swap lat1 lat2).
  rewrite (mul_comm (Math_cos (lat1 * PI / 180)) (Math_cos (lat2 * PI / 180))).
  rewrite (scaled_square_swap _ lon1 lon2).
  reflexivity.
Qed.

Lemma radians_finite lat :
  is_finite ((lat * PI) / 180) = true -> is_finite lat = true.
Proof.
  unfold is_finite. rewrite div_spec, mul_spec.
  destruct (Prim2SF lat) as [s | s | | s m e]; try reflexivity.
  - change (Prim2SF PI) with (S754_finite false 7074237752028440 (-51)).
    change (Prim2SF 180) with (S754_finite false 6333186975989760 (-45)).
    intros H. exact H.
  - intros H. exact H.
Qed.

Lemma calculateDistance_same lat lon :
  is_finite ((lat * PI) / 180) = true -> is_finite lon = true ->
  calculateDistance lat lon lat lon = 0.
Proof.
  intros Hlat Hlon. unfold calculateDistance. cbv zeta.
  rewrite (sub_diag lat (radians_finite lat Hlat)), (sub_diag lon Hlon).
  change (0 * PI / 180 / 2) with 0. rewrite sin_zero.
  change (0 * 0) with 0.
  set (c := Math_cos (lat * PI / 180)).
  assert (is_finite (c * c) = true) as Hcc
    by (apply mul_bounded_finite; apply cos_bounded, Hlat).
  rewrite (add_zero_zero _ (zero_mul_zero _ (mul_zero_r _ Hcc))).
  change (sqrt 0) with 0. change (sqrt (1 - 0)) with 1.
  rewrite atan2_zero. reflexivity.
Qed.

(** C5: with a [Math] that obeys [MathLaws], the distance is symmetric for
    every four numbers (NaN and the infinities included), and the distance
    from a point to itself is [0] for every point whose longitude is a
    finite number and whose latitude is one in radians too: in particular
    for every latitude from -90 to 90. *)
Theorem calculateDistance_symmetric_and_zero :
  (forall lat1 lon1 lat2 lon2,
     calculateDistance lat1 lon1 lat2 lon2 = calculateDistance lat2 lon2 lat1 lon1) /\
  (forall lat lon,
     is_finite ((lat * PI) / 180) = true -> is_finite lon = true ->
     calculateDistance lat lon lat lon = 0) /\
  (forall lat lon,
     (abs lat <=? 90) = true -> is_finite lon = true ->
     calculateDistance lat lon lat lon = 0).
Proof.
  split; [apply calculateDistance_swap |].
  split; [apply calculateDistance_same |].
  intros lat lon Hlat Hlon.
  apply calculateDistance_same; [apply degrees_to_radians_finite, Hlat | exact Hlon].
Qed.

(** C7: [isWithinRadius] is the test [calculateDistance(...) <= radius];
    so it holds when the distance equals the radius. *)
Theorem isWithinRadius_inclusive lat1 lon1 lat2 lon2 radius :
  isWithinRadius lat1 lon1 lat2 lon2 radius =
    (calculateDistance lat1 lon1 lat2 lon2 <=? radius) /\
  ((calculateDistance lat1 lon1 lat2 lon2 =? radius) = true ->
   isWithinRadius lat1 lon1 lat2 lon2 radius = true).
Proof.
  split; [reflexivity |]. intros Heq. unfold isWithinRadius. cbv zeta.
  apply eqb_leb, Heq.
Qed.

(** A distance from one to under ten miles is below [10^21]. *)
Lemma miles_below_1e21 d :
  (1 <=? d) = true -> (d <? 10) = true -> (abs d <? 1e21) = true.
Proof.
  rewrite FloatAxioms.leb_spec, !FloatAxioms.ltb_spec, abs_spec.
  change (Prim2SF 1) with (S754_finite false 4503599627370496 (-52)).
  change (Prim2SF 10) with (S754_finite false 5629499534213120 (-49)).
  change (Prim2SF 1e21) with (S754_finite false 7629394531250000 17).
  unfold SFleb, SFltb.
  destruct (Prim2SF d) as [s | [|] | | [|] m e]; cbn [SFabs SFcompare]; try discriminate.
  intros _.
  destruct (Z.compare_spec e (-49)) as [-> | Hlt | Hgt]; try discriminate; intros _.
  - reflexivity.
  - destruct (Z.compare_spec e 17); [lia | reflexivity | lia].
Qed.

(** A distance from zero to under one mile, in feet, is below [10^21]. *)
Lemma feet_below_1e21 d :
  (0 <=? d) = true -> (d <? 1) = true -> (abs (d * 5280) <? 1e21) = true.
Proof.
  rewrite FloatAxioms.leb_spec, !FloatAxioms.ltb_spec, abs_spec, mul_spec.
  change (Prim2SF 0) with (S754_zero false).
  change (Prim2SF 1) with (S754_finite false 4503599627370496 (-52)).
  change (Prim2SF 5280) with (S754_finite false 5805421394657280 (-40)).
  change (Prim2SF 1e21) with (S754_finite false 7629394531250000 17).
  pose proof (Prim2SF_valid d) as Hvalid.
  unfold SFleb, SFltb.
  destruct (Prim2SF d) as [s | [|] | | [|] m e]; cbn [SFcompare]; try discriminate.
  - intros _ _. destruct s; reflexivity.
  - intros _ He. unfold SF64mul. cbn [SFmul].
    assert (e <= -52)%Z as Hexp
      by (destruct (Z.compare_spec e (-52)); [lia | lia | discriminate]).
    assert (within 106 (Z.pos (m * 5805421394657280))) as Hw.
    { split; [lia |]. cbn [Zdigits2].
      pose proof (digits2_pos_mul m 5805421394657280) as Hmul.
      pose proof (valid_digits _ _ _ Hvalid) as Hd.
      change (Z.pos (digits2_pos 5805421394657280)) with 53%Z in Hmul. lia. }
    pose proof (binary_round_aux_bounded (xorb false false) _ (e + -40) loc_Exact Hw
                  ltac:(lia)) as H.
    destruct (binary_round_aux prec emax _ _ _ loc_Exact) as [s' | | | s' m' e'];
      try contradiction; [destruct s'; reflexivity |].
    cbn [SFabs SFcompare].
    destruct (Z.compare_spec e' 17); [lia | reflexivity | lia].
Qed.

(** C6: a distance under one mile is printed in feet with [toFixed(0)], a
    distance from one to under ten miles in miles with [toFixed(1)], and a
    distance of ten miles or more in miles with [toFixed(0)]; for a
    distance from zero to under [10^21] miles the number printed is a run
    of digits, followed in the second case by a point and one more digit.
    The three examples of the specification come out as it says. *)
Theorem formatDistance_ranges :
  (forall d, (d <? 1) = true ->
     formatDistance d = (toFixed (d * 5280) 0 +:+ " ft")%string /\
     ((0 <=? d) = true -> fixed_text 0 (toFixed (d * 5280) 0))) /\
  (forall d, (1 <=? d) = true -> (d <? 10) = true ->
     formatDistance d = (toFixed d 1 +:+ " mi")%string /\
     fixed_text 1 (toFixed d 1)) /\
  (forall d, (10 <=? d) = true ->
     formatDistance d = (toFixed d 0 +:+ " mi")%string /\
     ((d <? 1e21) = true -> fixed_text 0 (toFixed d 0))) /\
  formatDistance 0.5 = "2640 ft"%string /\
  formatDistance 5.25 = "5.3 mi"%string /\
  formatDistance 42 = "42 mi"%string.
Proof.
  split; [| split; [| split; [| repeat split; vm_compute; reflexivity]]].
  - intros d Hd. split; [| intros H0; apply toFixed_text, feet_below_1e21; assumption].
    unfold formatDistance. rewrite Hd. reflexivity.
  - intros d H1 H10. split; [| apply toFixed_text, miles_below_1e21; assumption].
    unfold formatDistance. rewrite (leb_not_ltb 1 d H1), H10. reflexivity.
  - intros d H10.
    assert ((1 <=? d) = true) as H1.
    { revert H10. rewrite !FloatAxioms.leb_spec. unfold SFleb.
      change (Prim2SF 10) with (S754_finite false 5629499534213120 (-49)).
      change (Prim2SF 1) with (S754_finite false 4503599627370496 (-52)).
      destruct (Prim2SF d) as [s | [|] | | [|] m e]; cbn [SFcompare]; try discriminate;
        try reflexivity.
      destruct (Z.compare_spec (-49) e), (Z.compare_spec (-52) e);
        try discriminate; try reflexivity; lia. }
    split.
    + unfold formatDistance.
      rewrite (leb_not_ltb 1 d H1), (leb_not_ltb 10 d H10). reflexivity.
    + intros Hbig. apply toFixed_text.
      revert H10 Hbig. rewrite FloatAxioms.leb_spec, !FloatAxioms.ltb_spec, abs_spec.
      change (Prim2SF 10) with (S754_finite false 5629499534213120 (-49)).
      unfold SFleb, SFltb.
      destruct (Prim2SF d) as [s | [|] | | [|] m e]; cbn [SFabs SFcompare];
        try discriminate; auto.
Qed.

End Haversine.

(** The small engine obeys the laws. *)
Lemma small_engine_laws : MathLaws Fixtures.small_engine.
Proof. split; intros; reflexivity. Qed.

(** C5 at work, on the small engine: two points around San Francisco. *)
Lemma calculateDistance_symmetric_and_zero_witness :
  calculateDistance (engine := Fixtures.small_engine) 37.75 (-122.5) 38 (-122.25) =
  calculateDistance (engine := Fixtures.small_engine) 38 (-122.25) 37.75 (-122.5) /\
  calculateDistance (engine := Fixtures.small_engine) 37.75 (-122.5) 37.75 (-122.5) = 0.
Proof.
  destruct (calculateDistance_symmetric_and_zero
              (engine := Fixtures.small_engine) (laws := small_engine_laws))
    as (Hswap & _ & Hsame).
  split; [apply Hswap | apply Hsame; reflexivity].
Defined.

End DistanceFacts.

(** ** The response cache over time *)

Module ApiCacheRuns.
Import Js ApiCache ApiCacheSpec ApiCacheFacts.

(** X1: a second [set] of a key replaces the entry and restarts its
    five minutes: [get] within the TTL of the second [set] returns the
    second value, however old the first one is, and the cache is as large
    as after the first [set]. *)
Theorem set_restarts_the_clock key v1 v2 t0 t1 t2 (cache : gmap string CacheItem) :
  t2 - t1 <= ttl ->
  let stored := set key v2 t1 (set key v1 t0 cache) in
  get key t2 stored = (v2, stored) /\
  stored = set key v2 t1 cache /\
  size stored = size (set key v1 t0 cache).
Proof.
  intros Hage. cbv zeta. split; [apply get_set_fresh, Hage |].
  split; [apply insert_insert_eq |].
  rewrite !size_set_delete. unfold set. rewrite delete_insert_eq. reflexivity.
Qed.

(** X1 at work: the first value is ten minutes old, the second three. *)
Lemma set_restarts_the_clock_witness :
  let stored := set "k" (VStr "new") 400000 (set "k" (VStr "old") 0 ∅) in
  get "k" 600000 stored = (VStr "new", stored) /\
  stored = set "k" (VStr "new") 400000 ∅ /\
  size stored = size (set "k" (VStr "old") 0 ∅).
Proof.
  apply (set_restarts_the_clock "k" (VStr "old") (VStr "new") 0 400000 600000 ∅).
  vm_compute. discriminate.
Defined.

(** Reads within the TTL change nothing. *)
Lemma read_at_fresh key v t0 times (cache : gmap string CacheItem) :
  Forall (fun t1 => t1 - t0 <= ttl) times ->
  read_at key times (set key v t0 cache) = set key v t0 cache.
Proof.
  induction 1 as [| t1 times Ht1 _ IH]; [reflexivity |].
  unfold read_at in *. cbn [foldl]. rewrite get_set_fresh by exact Ht1. exact IH.
Qed.

(** X2: the window is fixed, not sliding.  Reading an entry within its TTL,
    any number of times, leaves the cache as it is; so a [get] later than
    five minutes after the [set] misses and removes the entry, whenever
    the entry was last read. *)
Theorem reads_do_not_extend_life key v t0 times t (cache : gmap string CacheItem) :
  Forall (fun t1 => t1 - t0 <= ttl) times ->
  ttl < t - t0 ->
  let stored := set key v t0 cache in
  read_at key times stored = stored /\
  get key t (read_at key times stored) = (VNull, delete key cache).
Proof.
  intros Hfresh Hstale. cbv zeta. rewrite read_at_fresh by exact Hfresh.
  split; [reflexivity | apply get_set_stale, Hstale].
Qed.

(** X2 at work: three reads, the last at the very end of the window. *)
Lemma reads_do_not_extend_life_witness :
  let stored := set "k" (VStr "v") 0 ∅ in
  read_at "k" [100000; 200000; 300000] stored = stored /\
  get "k" 300001 (read_at "k" [100000; 200000; 300000] stored) = (VNull, delete "k" ∅).
Proof.
  apply (reads_do_not_extend_life "k" (VStr "v") 0 [100000; 200000; 300000] 300001 ∅).
  - repeat constructor; vm_compute; discriminate.
  - reflexivity.
Defined.

Lemma get_other key other now (cache : gmap string CacheItem) :
  other <> key -> snd (get key now cache) !! other = cache !! other.
Proof.
  intros Hne. unfold get. destruct (cache !! key) as [item |]; [| reflexivity].
  destruct (now - timestamp item >? ttl); [| reflexivity].
  cbn. apply lookup_delete_ne. congruence.
Qed.

Lemma get_lookup key now (cache cache' : gmap string CacheItem) :
  cache !! key = cache' !! key -> fst (get key now cache) = fst (get key now cache').
Proof.
  intros H. unfold get. rewrite H. destruct (cache' !! key) as [item |]; [| reflexivity].
  destruct (now - timestamp item >? ttl); reflexivity.
Qed.

(** X3: keys do not interfere.  A [set] or a [get] of one key, an evicting
    one included, leaves the entry of every other key as it is, and with
    it what a [get] of that key returns. *)
Theorem keys_are_independent key other v t0 t1 t (cache : gmap string CacheItem) :
  other <> key ->
  set key v t0 cache !! other = cache !! other /\
  snd (get key t1 cache) !! other = cache !! other /\
  fst (get other t (set key v t0 cache)) = fst (get other t cache) /\
  fst (get other t (snd (get key t1 cache))) = fst (get other t cache).
Proof.
  intros Hne.
  assert (set key v t0 cache !! other = cache !! other) as Hset
    by (apply lookup_insert_ne; congruence).
  pose proof (get_other key other t1 cache Hne) as Hget.
  repeat split; try assumption; apply get_lookup; assumption.
Qed.

(** X3 at work: two keys. *)
Lemma keys_are_independent_witness :
  set "a" VNull 5 (set "b" (VStr "kept") 0 ∅) !! "b" = set "b" (VStr "kept") 0 ∅ !! "b" /\
  snd (get "a" 9 (set "b" (VStr "kept") 0 ∅)) !! "b" = set "b" (VStr "kept") 0 ∅ !! "b" /\
  fst (get "b" 7 (set "a" VNull 5 (set "b" (VStr "kept") 0 ∅))) =
    fst (get "b" 7 (set "b" (VStr "kept") 0 ∅)) /\
  fst (get "b" 7 (snd (get "a" 9 (set "b" (VStr "kept") 0 ∅)))) =
    fst (get "b" 7 (set "b" (VStr "kept") 0 ∅)).
Proof.
  apply (keys_are_independent "a" "b" VNull 5 9 7 (set "b" (VStr "kept") 0 ∅)).
  discriminate.
Defined.

(** X4: the size changes by age only.  [set] adds one entry for a new key
    and none for a key that is there, whatever the size: nothing is evicted
    to make room; [get] removes one entry when the key is there and older
    than the TTL, and none otherwise; [clear] leaves none. *)
Theorem size_changes_by_one key v now (cache : gmap string CacheItem) :
  size (set key v now cache) =
    match cache !! key with Some _ => size cache | None => S (size cache) end /\
  size cache =
    match cache !! key with
    | Some item =>
        if now - timestamp item >? ttl then S (size (snd (get key now cache)))
        else size (snd (get key now cache))
    | None => size (snd (get key now cache))
    end /\
  size (clear cache) = 0%nat.
Proof.
  split; [| split].
  - unfold size, set. destruct (cache !! key) as [item |] eqn:Hk.
    + rewrite <- (insert_id cache key item Hk) at 2.
      rewrite <- !(insert_delete_eq cache).
      rewrite !map_size_insert_None by apply lookup_delete_eq. reflexivity.
    + apply map_size_insert_None, Hk.
  - unfold size, get. destruct (cache !! key) as [item |] eqn:Hk; [| reflexivity].
    destruct (now - timestamp item >? ttl); [| reflexivity]. cbn [snd].
    rewrite <- (insert_id cache key item Hk) at 1.
    rewrite <- (insert_delete_eq cache).
    apply map_size_insert_None, lookup_delete_eq.
  - apply map_size_empty.
Qed.

Lemma after_calls_snoc calls c : after_calls (calls ++ [c]) = after_call (after_calls calls) c.
Proof. unfold after_calls. rewrite foldl_app. reflexivity. Qed.

Lemma last_set_snoc key calls c :
  last_set key (calls ++ [c]) =
  match c with
  | DoSet k d now => if String.eqb k key then Some (d, now) else last_set key calls
  | DoGet _ _ => last_set key calls
  | DoClear => None
  end.
Proof. unfold last_set. rewrite foldl_app. reflexivity. Qed.

(** Every entry of the cache is the last [set] of its key. *)
Lemma entries_are_last_sets calls key item :
  after_calls calls !! key = Some item ->
  last_set key calls = Some (data item, timestamp item).
Proof.
  revert item. induction calls as [| c calls IH] using rev_ind; intros item.
  - unfold after_calls. cbn. rewrite lookup_empty. discriminate.
  - rewrite after_calls_snoc, last_set_snoc. destruct c as [k d now | k now |]; cbn [after_call].
    + unfold set. destruct (String.eqb_spec k key) as [-> | Hne].
      * rewrite lookup_insert_eq. intros [= <-]. reflexivity.
      * rewrite lookup_insert_ne by exact Hne. apply IH.
    + destruct (String.eqb_spec k key) as [-> | Hne].
      * unfold get. destruct (after_calls calls !! key) as [item0 |] eqn:Hk.
        -- destruct (now - timestamp item0 >? ttl); cbn [snd].
           ++ rewrite lookup_delete_eq. discriminate.
           ++ rewrite Hk. apply IH.
        -- cbn [snd]. rewrite Hk. discriminate.
      * rewrite get_other by congruence. apply IH.
    + unfold clear. rewrite lookup_empty. discriminate.
Qed.

(** X5: whatever was called on a fresh cache, a [get] returns [null] or
    the data of the last [set] of that key, no [clear] having come after
    it, and that [set] is at most five minutes old. *)
Theorem served_data_is_last_stored calls key now :
  let result := fst (get key now (after_calls calls)) in
  result = VNull \/
  exists t, last_set key calls = Some (result, t) /\ now - t <= ttl.
Proof.
  cbv zeta. unfold get.
  destruct (after_calls calls !! key) as [item |] eqn:Hk; [| left; reflexivity].
  destruct (Z.gtb_spec (now - timestamp item) ttl) as [Hgt | Hle]; [left; reflexivity |].
  right. exists (timestamp item). split; [apply entries_are_last_sets, Hk | exact Hle].
Qed.

Lemma clock_snoc calls c :
  clock (calls ++ [c]) =
  (clock calls ++ match c with DoSet _ _ now | DoGet _ now => [now] | DoClear => [] end)%list.
Proof. unfold clock. rewrite flat_map_app. cbn. rewrite app_nil_r. reflexivity. Qed.

(** The last [set] of a key is in the cache, unless a [get] that came more
    than five minutes after it removed it. *)
Lemma last_sets_are_entries calls key v t :
  last_set key calls = Some (v, t) ->
  after_calls calls !! key = Some {| data := v; timestamp := t |} \/
  after_calls calls !! key = None /\ exists t1, In t1 (clock calls) /\ ttl < t1 - t.
Proof.
  induction calls as [| c calls IH] using rev_ind; [discriminate |].
  rewrite after_calls_snoc, last_set_snoc, clock_snoc.
  assert (forall l : list Z,
            (exists t1, In t1 (clock calls) /\ ttl < t1 - t) ->
            exists t1, In t1 (clock calls ++ l) /\ ttl < t1 - t) as Hmore.
  { intros l (t1 & Hin & Hlt). exists t1. split; [apply in_or_app; auto | exact Hlt]. }
  destruct c as [k d now | k now |]; cbn [after_call].
  - unfold set. destruct (String.eqb_spec k key) as [-> | Hne].
    + intros [= <- <-]. left. apply lookup_insert_eq.
    + rewrite lookup_insert_ne by exact Hne. intros Hlast.
      destruct (IH Hlast) as [? | [? ?]]; auto.
  - intros Hlast. destruct (String.eqb_spec k key) as [-> | Hne].
    + destruct (IH Hlast) as [Hin | [Hout Hold]].
      * unfold get. rewrite Hin. cbn [timestamp data].
        destruct (Z.gtb_spec (now - t) ttl) as [Hgt | Hle]; cbn [snd]; [| auto].
        right. split; [apply lookup_delete_eq |].
        exists now. split; [apply in_or_app; right; left; reflexivity | exact Hgt].
      * right. unfold get. rewrite Hout. auto.
    + rewrite get_other by congruence. destruct (IH Hlast) as [? | [? ?]]; auto.
  - discriminate.
Qed.

(** X27: eviction cannot be observed by reading.  After any calls on a
    fresh cache, a [get] that is not earlier than any of them returns the
    data of the last [set] of the key, no [clear] having come after it,
    when that [set] is at most five minutes old, and [null] otherwise: the
    cache reads like a map that is never purged. *)
Theorem cache_reads_like_a_map calls key now :
  Forall (fun t => t <= now) (clock calls) ->
  fst (get key now (after_calls calls)) =
  match last_set key calls with
  | Some (v, t) => if now - t >? ttl then VNull else v
  | None => VNull
  end.
Proof.
  intros Hclock. destruct (last_set key calls) as [[v t] |] eqn:Hlast.
  - destruct (last_sets_are_entries calls key v t Hlast) as [Hin | (Hout & t1 & Ht1 & Hold)].
    + unfold get. rewrite Hin. cbn [timestamp data].
      destruct (now - t >? ttl); reflexivity.
    + unfold get. rewrite Hout. cbn [fst].
      rewrite List.Forall_forall in Hclock. specialize (Hclock t1 Ht1).
      destruct (Z.gtb_spec (now - t) ttl) as [_ | Hle]; [reflexivity | lia].
  - unfold get. destruct (after_calls calls !! key) as [item |] eqn:Hk; [| reflexivity].
    rewrite (entries_are_last_sets calls key item Hk) in Hlast. discriminate.
Qed.

(** X27 at work: an entry read after its time, set again and read. *)
Lemma cache_reads_like_a_map_witness :
  fst (get "k" 900000
         (after_calls [DoSet "k" (VStr "old") 0; DoGet "k" 400000;
                       DoSet "k" (VStr "new") 700000])) =
  match last_set "k" [DoSet "k" (VStr "old") 0; DoGet "k" 400000;
                      DoSet "k" (VStr "new") 700000] with
  | Some (v, t) => if 900000 - t >? ttl then VNull else v
  | None => VNull
  end.
Proof.
  apply (cache_reads_like_a_map
           [DoSet "k" (VStr "old") 0; DoGet "k" 400000; DoSet "k" (VStr "new") 700000]
           "k" 900000).
  repeat constructor; vm_compute; discriminate.
Defined.

End ApiCacheRuns.

(** ** The query of the station-directory client *)

Module QueryFacts.
Import Js ErrorMessages ApiClient ApiClientSpec ApiClientFacts QuerySpec.

Section Rendering.
Context {engine : Engine}.
Variable config : Config.
Variable apiKey : option string.

(** *** Parameters that print, as they show in the query *)

Lemma append_items_rendered (key : string) (items : list value) : forall q,
  forallb scalar items = true ->
  foldl (fun acc item => q ← acc; s ← toString item; Returned (q ++ [(key, s)])%list)
        (Returned q) items = Returned (q ++ param key (map text items))%list.
Proof.
  induction items as [| item items IH]; intros q Hall; cbn [foldl map param].
  - rewrite app_nil_r. reflexivity.
  - cbn in Hall. apply andb_prop in Hall as [Hitem Hrest].
    assert (toString item = Returned (text item)) as ->
      by (destruct item; try discriminate; reflexivity).
    cbn. rewrite IH by exact Hrest. unfold param. rewrite <- app_assoc. reflexivity.
Qed.

Lemma append_param_rendered q entry :
  plain entry ->
  append_param q entry = Returned (q ++ param (fst entry) (printed (snd entry)))%list.
Proof.
  destruct entry as [key v]. unfold plain, append_param. cbn [fst snd].
  destruct v as [| | b | x | s | items | fields]; try discriminate; intros Hv;
    try reflexivity.
  - destruct s; [cbn; rewrite app_nil_r |]; reflexivity.
  - apply append_items_rendered, Hv.
Qed.

Lemma append_params_rendered entries : forall q,
  Forall plain entries ->
  foldl (fun acc entry => q ← acc; append_param q entry) (Returned q) entries =
  Returned (q ++ rendered entries)%list.
Proof.
  induction entries as [| entry entries IH]; intros q Hall; cbn [foldl rendered flat_map].
  - rewrite app_nil_r. reflexivity.
  - apply Forall_cons_1 in Hall as [Hentry Hrest]. cbn.
    rewrite (append_param_rendered q entry Hentry), (IH _ Hrest), <- app_assoc.
    reflexivity.
Qed.

(** The query of parameters that print: the key, then each parameter's
    values in the order of the object's properties. *)
Lemma build_query_rendered entries :
  Forall plain entries ->
  build_query apiKey (Some entries) = Returned (key_entry apiKey ++ rendered entries)%list.
Proof.
  intros Hall. unfold build_query.
  rewrite (append_params_rendered entries _ Hall).
  destruct apiKey as [[| c k] |]; reflexivity.
Qed.

Lemma rendered_app l1 l2 : rendered (l1 ++ l2) = (rendered l1 ++ rendered l2)%list.
Proof. unfold rendered. apply flat_map_app. Qed.

Lemma rendered_entry_if {A : Type} (o : option A) name f :
  rendered (entry_if o name f) =
  param name (match o with Some a => printed (f a) | None => [] end).
Proof. destruct o; cbn; [apply app_nil_r | reflexivity]. Qed.

(** *** The [params] object as a list of blocks *)

Lemma get_prop_app key l1 l2 :
  get_prop key (l1 ++ l2) =
  match get_prop key l1 with Some v => Some v | None => get_prop key l2 end.
Proof.
  induction l1 as [| [k v] l1 IH]; cbn; [reflexivity |].
  destruct (String.eqb k key); [reflexivity | exact IH].
Qed.

Lemma get_prop_app_None key l1 l2 :
  get_prop key l1 = None -> get_prop key l2 = None -> get_prop key (l1 ++ l2) = None.
Proof. intros H1 H2. rewrite get_prop_app, H1. exact H2. Qed.

Lemma get_prop_entry_if {A : Type} (o : option A) name f key :
  String.eqb name key = false -> get_prop key (entry_if o name f) = None.
Proof. intros Hne. destruct o; cbn; [rewrite Hne |]; reflexivity. Qed.

Lemma set_prop_fresh key v fields :
  get_prop key fields = None -> set_prop key v fields = (fields ++ [(key, v)])%list.
Proof.
  induction fields as [| [k w] rest IH]; cbn; [reflexivity |].
  destruct (String.eqb k key); [discriminate |]. intros H. rewrite (IH H). reflexivity.
Qed.

Lemma set_when_fresh {A : Type} (o : option A) key f fields :
  get_prop key fields = None ->
  set_when o key f fields = (fields ++ entry_if o key f)%list.
Proof.
  intros H. destruct o; cbn; [apply set_prop_fresh, H | symmetry; apply app_nil_r].
Qed.

Ltac fresh_key :=
  repeat apply get_prop_app_None;
  first [ reflexivity | apply get_prop_entry_if; reflexivity ].

Lemma add_location_fresh filters params :
  get_prop "latitude" params = None -> get_prop "longitude" params = None ->
  add_location filters params =
  (params ++ entry_if (f_location filters) "latitude" (fun loc => VNum (latitude loc))
          ++ entry_if (f_location filters) "longitude" (fun loc => VNum (longitude loc)))%list.
Proof.
  intros Hlat Hlon. unfold add_location. destruct (f_location filters) as [loc |]; cbn.
  - rewrite (set_prop_fresh _ _ _ Hlat), set_prop_fresh by (apply get_prop_app_None; auto).
    rewrite <- app_assoc. reflexivity.
  - symmetry. apply app_nil_r.
Qed.

Lemma add_radius_fresh filters params :
  get_prop "distance" params = None -> get_prop "distanceunit" params = None ->
  add_radius filters params =
  (params ++ entry_if (truthy_opt_number (f_radius filters)) "distance" VNum
          ++ entry_if (truthy_opt_number (f_radius filters)) "distanceunit"
               (fun _ => VStr "Miles"))%list.
Proof.
  intros Hd Hu. unfold add_radius.
  destruct (truthy_opt_number (f_radius filters)) as [r |]; cbn.
  - rewrite (set_prop_fresh _ _ _ Hd), set_prop_fresh by (apply get_prop_app_None; auto).
    rewrite <- app_assoc. reflexivity.
  - symmetry. apply app_nil_r.
Qed.

Lemma add_power_fresh filters params :
  get_prop "minpowerkw" params = None -> get_prop "maxpowerkw" params = None ->
  add_power filters params =
  (params ++ entry_if (range ← f_powerKW filters; truthy_opt_number (min range))
               "minpowerkw" VNum
          ++ entry_if (range ← f_powerKW filters; truthy_opt_number (max range))
               "maxpowerkw" VNum)%list.
Proof.
  intros Hmin Hmax. unfold add_power. destruct (f_powerKW filters) as [range |]; cbn.
  - rewrite (set_when_fresh _ _ _ _ Hmin), set_when_fresh, <- app_assoc; [reflexivity |].
    apply get_prop_app_None; [exact Hmax | apply get_prop_entry_if; reflexivity].
  - symmetry. apply app_nil_r.
Qed.

(** The [params] object of [searchStations]: the six properties it starts
    with, then one block for each filter, in the order of the code. *)
Lemma searchStations_params_blocks filters :
  searchStations_params config filters =
  (base_params config filters
   ++ entry_if (f_location filters) "latitude" (fun loc => VNum (latitude loc))
   ++ entry_if (f_location filters) "longitude" (fun loc => VNum (longitude loc))
   ++ entry_if (truthy_opt_number (f_radius filters)) "distance" VNum
   ++ entry_if (truthy_opt_number (f_radius filters)) "distanceunit" (fun _ => VStr "Miles")
   ++ entry_if (non_empty (f_connectionTypes filters)) "connectiontypeid" numbers
   ++ entry_if (non_empty (f_levelIds filters)) "levelid" numbers
   ++ entry_if (non_empty (f_statusTypes filters)) "statustypeid" numbers
   ++ entry_if (non_empty (f_operatorIds filters)) "operatorid" numbers
   ++ entry_if (range ← f_powerKW filters; truthy_opt_number (min range)) "minpowerkw" VNum
   ++ entry_if (range ← f_powerKW filters; truthy_opt_number (max range)) "maxpowerkw" VNum
   ++ entry_if (truthy_opt_number (f_usageTypeId filters)) "usagetypeid" VNum
   ++ entry_if (f_openData filters) "opendata" VBool)%list.
Proof.
  unfold searchStations_params. cbv zeta.
  rewrite add_location_fresh by reflexivity.
  rewrite add_radius_fresh by fresh_key.
  rewrite (set_when_fresh _ "connectiontypeid") by fresh_key.
  rewrite (set_when_fresh _ "levelid") by fresh_key.
  rewrite (set_when_fresh _ "statustypeid") by fresh_key.
  rewrite (set_when_fresh _ "operatorid") by fresh_key.
  rewrite add_power_fresh by fresh_key.
  rewrite (set_when_fresh _ "usagetypeid") by fresh_key.
  rewrite (set_when_fresh _ "opendata") by fresh_key.
  rewrite <- !app_assoc. reflexivity.
Qed.

Lemma printed_numbers l : printed (numbers l) = map numberToString l.
Proof. unfold numbers. cbn. rewrite map_map. reflexivity. Qed.

Lemma or_string_printed o d :
  d <> "" -> printed (VStr (or_string o d)) = [or_string o d].
Proof.
  intros Hd. unfold or_string. destruct o as [[| c s] |]; try reflexivity;
    destruct d; try reflexivity; contradiction.
Qed.

(** The query of [searchStations], parameter by parameter. *)
Lemma searchStations_query filters :
  build_query apiKey (Some (searchStations_params config filters)) =
  Returned
    (key_entry apiKey
     ++ param "output" ["json"]
     ++ param "countrycode" [or_string (f_countryCode filters) countryCode]
     ++ param "maxresults"
          [numberToString (or_number (f_maxResults filters) (maxStationsPerRequest config))]
     ++ param "compact" ["true"]
     ++ param "verbose" ["false"]
     ++ param "includecomments" ["true"]
     ++ param "latitude"
          (map (fun loc => numberToString (latitude loc)) (option_list (f_location filters)))
     ++ param "longitude"
          (map (fun loc => numberToString (longitude loc)) (option_list (f_location filters)))
     ++ param "distance"
          (map numberToString (option_list (truthy_opt_number (f_radius filters))))
     ++ param "distanceunit"
          (map (fun _ => "Miles") (option_list (truthy_opt_number (f_radius filters))))
     ++ param "connectiontypeid" (map numberToString (default [] (f_connectionTypes filters)))
     ++ param "levelid" (map numberToString (default [] (f_levelIds filters)))
     ++ param "statustypeid" (map numberToString (default [] (f_statusTypes filters)))
     ++ param "operatorid" (map numberToString (default [] (f_operatorIds filters)))
     ++ param "minpowerkw"
          (map numberToString
             (option_list (range ← f_powerKW filters; truthy_opt_number (min range))))
     ++ param "maxpowerkw"
          (map numberToString
             (option_list (range ← f_powerKW filters; truthy_opt_number (max range))))
     ++ param "usagetypeid"
          (map numberToString (option_list (truthy_opt_number (f_usageTypeId filters))))
     ++ param "opendata" (map boolean (option_list (f_openData filters))))%list.
Proof.
  rewrite build_query_rendered by apply searchStations_params_plain.
  rewrite searchStations_params_blocks, !rendered_app, !rendered_entry_if.
  f_equal. f_equal.
  unfold base_params, rendered. cbn [flat_map fst snd].
  rewrite or_string_printed by discriminate.
  assert (forall o : option (list float),
            match non_empty o with Some a => printed (numbers a) | None => [] end =
            map numberToString (default [] o)) as Hlist.
  { intros [[| x l] |]; try reflexivity. cbn [non_empty]. apply printed_numbers. }
  assert (forall o : option float,
            match o with Some a => printed (VNum a) | None => [] end =
            map numberToString (option_list o)) as Hnum
    by (intros [x |]; reflexivity).
  rewrite !Hlist, !Hnum.
  destruct (f_location filters) as [loc |], (truthy_opt_number (f_radius filters)) as [r |],
    (f_openData filters) as [[|] |], (f_includeComments filters) as [[|] |]; reflexivity.
Qed.

(** *** The API key *)

Lemma append_items_prefix (key : string) (items : list value) prefix : forall acc,
  foldl (fun acc item => q ← acc; s ← toString item; Returned (q ++ [(key, s)])%list)
        (q ← acc; Returned (prefix ++ q)%list) items =
  (q ← foldl (fun acc item => q ← acc; s ← toString item; Returned (q ++ [(key, s)])%list)
             acc items;
   Returned (prefix ++ q)%list).
Proof.
  induction items as [| item items IH]; intros acc; cbn [foldl]; [reflexivity |].
  rewrite <- IH. f_equal.
  destruct acc as [q | t]; cbn; [| reflexivity].
  destruct (toString item); cbn; [rewrite app_assoc |]; reflexivity.
Qed.

Lemma append_param_prefix prefix q entry :
  append_param (prefix ++ q) entry =
  (q' ← append_param q entry; Returned (prefix ++ q')%list).
Proof.
  destruct entry as [key v]. unfold append_param.
  destruct v as [| | b | x | s | items | fields]; try reflexivity.
  - cbn. rewrite app_assoc. reflexivity.
  - cbn. rewrite app_assoc. reflexivity.
  - destruct s; cbn; [| rewrite app_assoc]; reflexivity.
  - apply (append_items_prefix key items prefix (Returned q)).
  - destruct (toString (VObj fields)); cbn; [rewrite app_assoc |]; reflexivity.
Qed.

Lemma append_params_prefix entries prefix : forall acc,
  foldl (fun acc entry => q ← acc; append_param q entry)
        (q ← acc; Returned (prefix ++ q)%list) entries =
  (q ← foldl (fun acc entry => q ← acc; append_param q entry) acc entries;
   Returned (prefix ++ q)%list).
Proof.
  induction entries as [| entry entries IH]; intros acc; cbn [foldl]; [reflexivity |].
  rewrite <- IH. f_equal.
  destruct acc as [q | t]; cbn; [apply append_param_prefix | reflexivity].
Qed.

(** X6: the API key, when there is one and it is not empty, is the first
    entry of the query, and the rest of the query does not depend on it:
    the query is the one built without a key, after the key's entry. *)
Theorem api_key_goes_first params :
  build_query apiKey params =
  (q ← build_query None params; Returned (key_entry apiKey ++ q)%list).
Proof.
  unfold build_query. destruct params as [entries |].
  - rewrite <- append_params_prefix. f_equal. cbn.
    rewrite app_nil_r. destruct apiKey as [[| c k] |]; reflexivity.
  - cbn. rewrite app_nil_r. destruct apiKey as [[| c k] |]; reflexivity.
Qed.

(** *** Reading the query *)

Lemma getAll_app name q1 q2 : getAll name (q1 ++ q2) = (getAll name q1 ++ getAll name q2)%list.
Proof. unfold getAll. rewrite List.filter_app, map_app. reflexivity. Qed.

Lemma getAll_param name name' values :
  getAll name (param name' values) = if String.eqb name' name then values else [].
Proof.
  unfold getAll, param. induction values as [| v values IH]; cbn [map List.filter fst].
  - destruct (String.eqb name' name); reflexivity.
  - destruct (String.eqb name' name) eqn:He; cbn [map snd]; [f_equal |]; exact IH.
Qed.

Lemma getAll_key_entry name : String.eqb "key" name = false -> getAll name (key_entry apiKey) = [].
Proof.
  intros Hne. unfold key_entry. destruct apiKey as [[| c k] |]; try reflexivity.
  rewrite getAll_param, Hne. reflexivity.
Qed.

End Rendering.

Ltac decide_names :=
  repeat match goal with
         | |- context [String.eqb ?a ?b] =>
             let r := eval vm_compute in (String.eqb a b) in
             change (String.eqb a b) with r
         end.

Ltac read_query :=
  rewrite ?getAll_app, ?getAll_param, ?getAll_key_entry by reflexivity;
  decide_names; cbn [app].

Section Requests.
Context {engine : Engine}.
Variable config : Config.
Variable apiKey : option string.
Variable fetch : Request -> outcome Response.

(** [makeRequest] returns the envelope of what [fetch] yields for the
    one request it makes. *)
Lemma makeRequest_envelope_of endpoint params q :
  build_query apiKey params = Returned q ->
  makeRequest config apiKey fetch endpoint params =
  Returned (envelope config (fetch {| url := baseUrl +:+ endpoint; searchParams := q |})).
Proof.
  intros Hq.
  destruct (fetch {| url := baseUrl +:+ endpoint; searchParams := q |}) as [resp | t] eqn:Hf.
  - apply (makeRequest_responds config apiKey fetch endpoint params q resp Hq Hf).
  - apply (makeRequest_fetch_rejects config apiKey fetch endpoint params q t Hq Hf).
Qed.

(** X7: the request of [searchStations].  For every filter object the
    query is built, and it holds, in this order: the key; [output=json];
    the country code; the result cap; [compact=true]; [verbose=false];
    [includecomments=true]; the coordinates, when a location is given; the
    radius in miles, when it is truthy; one entry for each connection
    type, level, status and operator id; the power bounds and the usage
    type that are truthy; and [opendata], when given.  The result is the
    envelope of what [fetch] yields for that one request to [/poi]. *)
Theorem searchStations_request filters :
  let q :=
    (key_entry apiKey
     ++ param "output" ["json"]
     ++ param "countrycode" [or_string (f_countryCode filters) countryCode]
     ++ param "maxresults"
          [numberToString (or_number (f_maxResults filters) (maxStationsPerRequest config))]
     ++ param "compact" ["true"]
     ++ param "verbose" ["false"]
     ++ param "includecomments" ["true"]
     ++ param "latitude"
          (map (fun loc => numberToString (latitude loc)) (option_list (f_location filters)))
     ++ param "longitude"
          (map (fun loc => numberToString (longitude loc)) (option_list (f_location filters)))
     ++ param "distance"
          (map numberToString (option_list (truthy_opt_number (f_radius filters))))
     ++ param "distanceunit"
          (map (fun _ => "Miles") (option_list (truthy_opt_number (f_radius filters))))
     ++ param "connectiontypeid" (map numberToString (default [] (f_connectionTypes filters)))
     ++ param "levelid" (map numberToString (default [] (f_levelIds filters)))
     ++ param "statustypeid" (map numberToString (default [] (f_statusTypes filters)))
     ++ param "operatorid" (map numberToString (default [] (f_operatorIds filters)))
     ++ param "minpowerkw"
          (map numberToString
             (option_list (range ← f_powerKW filters; truthy_opt_number (min range))))
     ++ param "maxpowerkw"
          (map numberToString
             (option_list (range ← f_powerKW filters; truthy_opt_number (max range))))
     ++ param "usagetypeid"
          (map numberToString (option_list (truthy_opt_number (f_usageTypeId filters))))
     ++ param "opendata" (map boolean (option_list (f_openData filters))))%list in
  build_query apiKey (Some (searchStations_params config filters)) = Returned q /\
  searchStations config apiKey fetch filters =
  Returned (envelope config (fetch {| url := baseUrl +:+ "/poi"; searchParams := q |})).
Proof.
  cbv zeta. split; [apply searchStations_query |].
  apply makeRequest_envelope_of, searchStations_query.
Qed.

(** X8: the parameters every search carries.  [includeComments] has no
    effect on the request: [includecomments=true] is sent even when the
    filter says [false]; [output], [compact] and [verbose] are constants;
    an absent or empty country code stands for [US]; and a result cap that
    is absent, [0] or [NaN] stands for the configured one. *)
Theorem base_parameters filters :
  (forall b,
     searchStations config apiKey fetch (with_includeComments b filters) =
     searchStations config apiKey fetch filters) /\
  exists q,
    build_query apiKey (Some (searchStations_params config filters)) = Returned q /\
    getAll "output" q = ["json"] /\
    getAll "compact" q = ["true"] /\
    getAll "verbose" q = ["false"] /\
    getAll "includecomments" q = ["true"] /\
    getAll "countrycode" q =
      [match f_countryCode filters with
       | Some (String c code) => String c code
       | Some EmptyString | None => "US"
       end] /\
    getAll "maxresults" q =
      [numberToString
         match f_maxResults filters with
         | Some n => if truthy_number n then n else maxStationsPerRequest config
         | None => maxStationsPerRequest config
         end].
Proof.
  split.
  - intros b. unfold searchStations, searchStations_params, base_params. cbn.
    destruct b as [[|] |], (f_includeComments filters) as [[|] |]; reflexivity.
  - eexists. split; [apply searchStations_query |].
    repeat split; read_query; try reflexivity.
    + destruct (f_countryCode filters) as [[| c code] |]; reflexivity.
    + unfold or_number, truthy_opt_number.
      destruct (f_maxResults filters) as [n |]; [destruct (truthy_number n) |]; reflexivity.
Qed.

(** X9: a list filter sends its parameter once for each id, in the order
    of the list, and nothing for an empty list, whose request is the one
    of an absent list; [openData], unlike the other filters, is sent when
    it is [false]. *)
Theorem list_filters_and_openData filters :
  (exists q,
     build_query apiKey (Some (searchStations_params config filters)) = Returned q /\
     getAll "connectiontypeid" q = map numberToString (default [] (f_connectionTypes filters)) /\
     getAll "levelid" q = map numberToString (default [] (f_levelIds filters)) /\
     getAll "statustypeid" q = map numberToString (default [] (f_statusTypes filters)) /\
     getAll "operatorid" q = map numberToString (default [] (f_operatorIds filters)) /\
     getAll "opendata" q =
       match f_openData filters with
       | Some true => ["true"]
       | Some false => ["false"]
       | None => []
       end) /\
  searchStations config apiKey fetch
    (with_lists (Some []) (Some []) (Some []) (Some []) filters) =
  searchStations config apiKey fetch (with_lists None None None None filters).
Proof.
  split; [| reflexivity].
  eexists. split; [apply searchStations_query |].
  repeat split; read_query; rewrite ?app_nil_r; try reflexivity.
  destruct (f_openData filters) as [[|] |]; reflexivity.
Qed.

(** X10: the location is sent as given, whatever the numbers; the radius,
    the power bounds and the usage type are sent when they are neither
    absent, nor [0], nor [NaN]; and [distanceunit=Miles] goes with the
    radius. *)
Theorem location_and_bounds filters :
  exists q,
    build_query apiKey (Some (searchStations_params config filters)) = Returned q /\
    getAll "latitude" q =
      match f_location filters with
      | Some loc => [numberToString (latitude loc)]
      | None => []
      end /\
    getAll "longitude" q =
      match f_location filters with
      | Some loc => [numberToString (longitude loc)]
      | None => []
      end /\
    (forall name bound,
       In (name, bound)
          [("distance", f_radius filters);
           ("minpowerkw", range ← f_powerKW filters; min range);
           ("maxpowerkw", range ← f_powerKW filters; max range);
           ("usagetypeid", f_usageTypeId filters)] ->
       getAll name q =
         match bound with
         | Some x => if truthy_number x then [numberToString x] else []
         | None => []
         end) /\
    getAll "distanceunit" q =
      match f_radius filters with
      | Some x => if truthy_number x then ["Miles"] else []
      | None => []
      end.
Proof.
  eexists. split; [apply searchStations_query |].
  assert (forall o : option float,
            map numberToString (option_list (truthy_opt_number o)) =
            match o with
            | Some x => if truthy_number x then [numberToString x] else []
            | None => []
            end) as Hnum.
  { intros [x |]; [| reflexivity]. cbn. destruct (truthy_number x); reflexivity. }
  split; [| split; [| split]].
  - read_query. destruct (f_location filters); reflexivity.
  - read_query. destruct (f_location filters); reflexivity.
  - intros name bound Hin. cbn in Hin.
    destruct Hin as [[= <- <-] | [[= <- <-] | [[= <- <-] | [[= <- <-] | []]]]];
      read_query; rewrite ?app_nil_r.
    + apply Hnum.
    + destruct (f_powerKW filters) as [range |]; [apply Hnum | reflexivity].
    + destruct (f_powerKW filters) as [range |]; [apply Hnum | reflexivity].
    + apply Hnum.
  - read_query. rewrite ?app_nil_r. unfold truthy_opt_number.
    destruct (f_radius filters) as [x |]; [destruct (truthy_number x) |]; reflexivity.
Qed.

(** X11: [searchNearbyStations] asks [/poi] for the stations around the
    point in the statuses 10, 20 and 50, in the default country and with
    the configured cap, within the given radius or, when none is given,
    the configured default; a radius of [0] or [NaN] sends no distance. *)
Theorem searchNearbyStations_request lat lon radius :
  let r := default (defaultRadius config) radius in
  let q :=
    (key_entry apiKey
     ++ param "output" ["json"]
     ++ param "countrycode" ["US"]
     ++ param "maxresults" [numberToString (maxStationsPerRequest config)]
     ++ param "compact" ["true"]
     ++ param "verbose" ["false"]
     ++ param "includecomments" ["true"]
     ++ param "latitude" [numberToString lat]
     ++ param "longitude" [numberToString lon]
     ++ (if truthy_number r
         then param "distance" [numberToString r] ++ param "distanceunit" ["Miles"]
         else [])
     ++ param "statustypeid" [numberToString 10; numberToString 20; numberToString 50])%list in
  searchNearbyStations config apiKey fetch lat lon radius =
  Returned (envelope config (fetch {| url := baseUrl +:+ "/poi"; searchParams := q |})).
Proof.
  cbv zeta. unfold searchNearbyStations.
  match goal with |- searchStations _ _ _ ?f = _ => set (filters := f) end.
  unfold searchStations.
  rewrite (makeRequest_envelope_of _ _ _ (searchStations_query config apiKey filters)).
  do 3 f_equal. subst filters. cbn [f_location f_radius f_connectionTypes f_levelIds
    f_statusTypes f_operatorIds f_countryCode f_maxResults f_openData f_includeComments
    f_powerKW f_usageTypeId].
  unfold truthy_opt_number.
  destruct (truthy_number (default (defaultRadius config) radius)); reflexivity.
Qed.


(** X28: the five lookups are plain requests: each asks its own endpoint
    with the API key as the only parameter, and returns the envelope of
    what [fetch] yields for that request, with no further processing. *)
Theorem lookups_pass_through :
  let asked endpoint :=
    Returned (envelope config
                (fetch {| url := baseUrl +:+ endpoint; searchParams := key_entry apiKey |})) in
  getConnectionTypes config apiKey fetch = asked "/connectiontypes" /\
  getOperators config apiKey fetch = asked "/operators" /\
  getCountries config apiKey fetch = asked "/countries" /\
  getUsageTypes config apiKey fetch = asked "/usagetypes" /\
  getStatusTypes config apiKey fetch = asked "/statustypes".
Proof.
  cbv zeta.
  assert (build_query apiKey None = Returned (key_entry apiKey)) as Hq
    by (destruct apiKey as [[| c k] |]; reflexivity).
  repeat split; apply makeRequest_envelope_of, Hq.
Qed.

(** X29: [getStationById] asks [/poi] for the one id, with comments and
    verbose output and with no country or result cap; and it reports every
    failure of that request (a rejected [fetch], a status outside 200-299,
    the rate limit included, a body that does not decode) as
    station-not-found, with an empty object as data.  [getStationDetails]
    is the same operation. *)
Theorem getStationById_request id :
  let q :=
    (key_entry apiKey
     ++ param "chargepointid" [numberToString id]
     ++ param "includecomments" ["true"]
     ++ param "verbose" ["true"])%list in
  let answer := fetch {| url := baseUrl +:+ "/poi"; searchParams := q |} in
  build_query apiKey (Some (getStationById_params id)) = Returned q /\
  makeRequest config apiKey fetch "/poi" (Some (getStationById_params id)) =
    Returned (envelope config answer) /\
  (success (envelope config answer) = false ->
   getStationById config apiKey fetch id = Returned not_found) /\
  (success (envelope config answer) = false <->
   match answer with
   | Threw _ => True
   | Returned resp =>
       ok resp = false \/ match json resp with Threw _ => True | Returned _ => False end
   end) /\
  getStationDetails config apiKey fetch id = getStationById config apiKey fetch id.
Proof.
  cbv zeta.
  assert (build_query apiKey (Some (getStationById_params id)) =
          Returned (key_entry apiKey
                    ++ param "chargepointid" [numberToString id]
                    ++ param "includecomments" ["true"]
                    ++ param "verbose" ["true"])%list) as Hq.
  { rewrite build_query_rendered by apply getStationById_params_plain. reflexivity. }
  pose proof (makeRequest_envelope_of "/poi" _ _ Hq) as Hr.
  split; [exact Hq |]. split; [exact Hr |].
  split; [apply (getStationById_of_response config apiKey fetch id _ Hr) |].
  split; [| reflexivity].
  unfold envelope. destruct (fetch _) as [resp | t]; [| destruct t; cbn; tauto].
  destruct (ok resp); [| destruct (ApiClientSpec.http_error resp); cbn; tauto].
  destruct (json resp) as [payload | t]; [cbn | destruct t; cbn; tauto].
  split; [discriminate | intros [? | []]; discriminate].
Qed.

End Requests.


(** The first code unit of a string that starts with an ASCII character,
    with a character of two and of three bytes, and with a character of
    four bytes, [U+1F600], whose high surrogate is [U+D83D]. *)
Lemma code_unit0_examples :
  code_unit0 "station" = "s" /\
  code_unit0 "éa" = "é" /\
  code_unit0 "⚡x" = "⚡" /\
  code_unit0 "😀x" = utf8_3 0xD83D /\
  utf8_3 0xD83D = String (char 0xED) (String (char 0xA0) (String (char 0xBD) "")).
Proof. repeat split. Qed.

(** The directory answers with a text that starts beyond ASCII. *)
Lemma getStationById_of_text :
  getStationById (engine := Fixtures.small_engine) Fixtures.small_config None
    (Fixtures.answering 200 "OK" (Returned (VStr "⚡x"))) 7%float =
  Returned {| data := VStr "⚡"; success := true; message := None; error := None;
              meta := Some {| total := 1; page := 1; limit := 100%float |} |}.
Proof. reflexivity. Qed.

End QueryFacts.

(** ** The geolocation hook in a page *)

Module GeolocationPageFacts.
Import Js ErrorMessages Geolocation GeolocationPage GeolocationPageSpec.

Section Events.
Context {engine : Engine}.
Variable geolocation : option Z.
Variable options : GeolocationOptions.

(** Every event keeps [settled], and none throws. *)
Lemma handle_settled e h :
  settled geolocation h ->
  exists h', handle geolocation options e h = Returned h' /\ settled geolocation h'.
Proof.
  intros [Herr Hnone]. unfold settled.
  destruct e as [[| | | |] | position | code]; cbn [handle perform].
  - unfold getCurrentPosition. destruct geolocation as [id |].
    + eexists. split; [reflexivity |]. cbn. split; [auto | discriminate].
    + eexists. split; [reflexivity |]. cbn. destruct (Hnone eq_refl). split; [discriminate | auto].
  - unfold startWatching. destruct geolocation as [id |].
    + eexists. split; [reflexivity |]. cbn. split; [auto | discriminate].
    + eexists. split; [reflexivity |]. cbn. destruct (Hnone eq_refl) as [Hl Hw].
      split; [rewrite Hl; discriminate | auto].
  - unfold stopWatching. destruct (watchId h) as [id |] eqn:Hw.
    + unfold clearWatch. destruct geolocation as [g |].
      * eexists. split; [reflexivity |]. cbn. split; [discriminate | discriminate].
      * destruct (Hnone eq_refl) as [_ Hw']. congruence.
    + eexists. split; [reflexivity |]. rewrite Hw. auto.
  - eexists. split; [reflexivity |]. cbn. split; [auto | exact Hnone].
  - unfold reset. destruct (watchId h) as [id |] eqn:Hw.
    + unfold clearWatch. destruct geolocation as [g |].
      * eexists. split; [reflexivity |]. cbn. split; [auto | discriminate].
      * destruct (Hnone eq_refl) as [_ Hw']. congruence.
    + eexists. split; [reflexivity |]. cbn. rewrite Hw. split; [auto | auto].
  - eexists. split; [reflexivity |]. cbn. split; [auto |].
    intros Hg. destruct (Hnone Hg). auto.
  - eexists. split; [reflexivity |]. cbn. split; [discriminate |].
    intros Hg. destruct (Hnone Hg). auto.
Qed.

Lemma handle_all_settled events : forall h,
  settled geolocation h ->
  exists h', handle_all geolocation options events h = Returned h' /\ settled geolocation h'.
Proof.
  induction events as [| e rest IH]; intros h Hs; cbn [handle_all]; [eauto |].
  destruct (handle_settled e h Hs) as (h1 & -> & Hs1). apply (IH h1 Hs1).
Qed.

(** Mounting is the first operation, on the initial hook. *)
Lemma mount_is_an_event :
  mount geolocation options initial =
  handle geolocation options
    (Does match watch (opts options) with Some true => StartWatching | _ => GetCurrentPosition end)
    initial.
Proof. unfold mount. destruct (watch (opts options)) as [[|] |]; reflexivity. Qed.

(** X13: in any browser, with or without the capability, after mounting
    and any sequence of calls of the hook's operations and of callbacks of
    the browser, no operation has thrown and the hook does not show an
    error while it is loading. *)
Theorem no_error_while_loading events :
  exists h, mounted_and geolocation options events = Returned h /\
    (loading (state h) = true -> error (state h) = None).
Proof.
  unfold mounted_and. rewrite mount_is_an_event.
  destruct (handle_settled
              (Does match watch (opts options) with
                    | Some true => StartWatching | _ => GetCurrentPosition end) initial)
    as (h0 & -> & Hs0).
  { split; [discriminate | auto]. }
  destruct (handle_all_settled events h0 Hs0) as (h & Hrun & Hs).
  exists h. split; [exact Hrun | apply Hs].
Qed.

Lemma handle_shows e h known :
  shows geolocation known h ->
  exists h', handle geolocation options e h = Returned h' /\
             shows geolocation (position_after known e) h'.
Proof.
  intros (Hlat & Hlon & Hacc & Hnone). unfold shows.
  destruct e as [[| | | |] | position | code]; cbn [handle perform position_after].
  - unfold getCurrentPosition. destruct geolocation as [id |];
      (eexists; split; [reflexivity |]; cbn; auto).
  - unfold startWatching. destruct geolocation as [id |];
      (eexists; split; [reflexivity |]; cbn; repeat split; auto; discriminate).
  - unfold stopWatching. destruct (watchId h) as [id |] eqn:Hw.
    + unfold clearWatch. destruct geolocation as [g |].
      * eexists. split; [reflexivity |]. cbn. repeat split; auto.
      * specialize (Hnone eq_refl). congruence.
    + eexists. split; [reflexivity |]. rewrite Hw. auto.
  - eexists. split; [reflexivity |]. cbn. auto.
  - unfold reset. destruct (watchId h) as [id |] eqn:Hw.
    + unfold clearWatch. destruct geolocation as [g |].
      * eexists. split; [reflexivity |]. cbn. repeat split; auto.
      * specialize (Hnone eq_refl). congruence.
    + eexists. split; [reflexivity |]. cbn. rewrite Hw. repeat split; auto.
  - eexists. split; [reflexivity |]. cbn. auto.
  - eexists. split; [reflexivity |]. cbn. auto.
Qed.

Lemma handle_all_shows events : forall h known,
  shows geolocation known h ->
  exists h', handle_all geolocation options events h = Returned h' /\
             shows geolocation (foldl position_after known events) h'.
Proof.
  induction events as [| e rest IH]; intros h known Hs; cbn [handle_all foldl]; [eauto |].
  destruct (handle_shows e h known Hs) as (h1 & -> & Hs1). apply (IH h1 _ Hs1).
Qed.

(** X14: the position the hook shows is that of the last success callback
    since the last [reset()], if there is one, and none otherwise: an
    error, a new request, stopping the watch or clearing the error keeps
    the last known position.  [hasLocation] says whether there is one. *)
Theorem position_is_the_last_fix events :
  exists h, mounted_and geolocation options events = Returned h /\
    latitude (state h) = coords_latitude <$> last_position events /\
    longitude (state h) = coords_longitude <$> last_position events /\
    accuracy (state h) = coords_accuracy <$> last_position events /\
    hasLocation (state h) =
      match last_position events with Some _ => true | None => false end.
Proof.
  unfold mounted_and. rewrite mount_is_an_event.
  destruct (handle_shows
              (Does match watch (opts options) with
                    | Some true => StartWatching | _ => GetCurrentPosition end)
              initial None)
    as (h0 & -> & Hs0).
  { repeat split. }
  assert (shows geolocation None h0) as Hs0'
    by (destruct (watch (opts options)) as [[|] |]; exact Hs0).
  destruct (handle_all_shows events h0 None Hs0') as (h & Hrun & Hlat & Hlon & Hacc & _).
  exists h. split; [exact Hrun |]. fold (last_position events) in *.
  repeat split; try assumption.
  unfold hasLocation. rewrite Hlat, Hlon. destruct (last_position events); reflexivity.
Qed.

End Events.

(** X15: the message of [onError] tells the category of the error: two
    errors get the same message exactly when they are both of code 1
    (denied), both of code 2 (unavailable), both of code 3 (timed out), or
    both of another code. *)
Theorem error_tells_the_category code1 code2 h1 h2 :
  error (state (onError code1 h1)) = error (state (onError code2 h2)) <->
  category_of code1 = category_of code2.
Proof.
  unfold onError, category_of, PERMISSION_DENIED, POSITION_UNAVAILABLE, TIMEOUT. cbn.
  destruct (code1 =? 1)%Z, (code1 =? 2)%Z, (code1 =? 3)%Z,
    (code2 =? 1)%Z, (code2 =? 2)%Z, (code2 =? 3)%Z;
    split; intros H; try reflexivity; discriminate H.
Qed.

(** *** Counting the calls of a batch *)

Lemma quiet_batch watching events :
  existsb (writes watching) events = false ->
  started events = 0%nat /\ lost watching events = 0%nat /\
  forall cell, held_after watching cell events = cell.
Proof.
  unfold started, held_after.
  induction events as [| e rest IH]; cbn [existsb List.filter lost foldl];
    [auto |].
  intros H. apply orb_false_elim in H as [He Hrest].
  destruct (IH Hrest) as (Hs & Hl & Hc).
  assert (starts e = false) as Hst
    by (destruct e as [[| | | |] | |]; cbn in *; congruence).
  rewrite Hst, He. cbn. auto.
Qed.

(** The calls of [startWatching] in a batch are the lost ones and the one
    whose watch [watchId] holds at the end. *)
Lemma started_lost_held watching events : forall cell : bool,
  (started events + (if existsb (writes watching) events then 0
                     else if cell then 1 else 0))%nat =
  (lost watching events + (if held_after watching cell events then 1 else 0))%nat.
Proof.
  unfold started, held_after.
  induction events as [| e rest IH]; intros cell;
    cbn [existsb List.filter lost foldl length]; [reflexivity |].
  destruct (starts e) eqn:Hst.
  - assert (writes watching e = true) as ->
      by (destruct e as [[| | | |] | |]; cbn in *; congruence).
    specialize (IH true). cbn [orb andb length].
    destruct (existsb (writes watching) rest); lia.
  - cbn [andb]. destruct (writes watching e) eqn:Hw; cbn [orb].
    + specialize (IH false).
      destruct (existsb (writes watching) rest); lia.
    + apply IH.
Qed.

(** *** The browser's bookkeeping *)

Section Lifecycle.
Context {engine : Engine}.
Variable options : GeolocationOptions.

Lemma browser_snoc l c : browser (l ++ [c]) = browser_step (browser l) c.
Proof. unfold browser. rewrite foldl_app. reflexivity. Qed.

Ltac on_hook :=
  cbn [calls watchId state setState setWatchId invoke idle onSuccess onError];
  rewrite ?browser_snoc.

Lemma others_twice seen l : others seen (others seen l) = others seen l.
Proof.
  destruct seen as [s |]; cbn; [| reflexivity].
  induction l as [| i l IH]; cbn; [reflexivity |].
  destruct (i =? s)%Z eqn:Hi; cbn; [exact IH |]. rewrite Hi. cbn. f_equal. exact IH.
Qed.

Lemma others_fresh seen l n :
  (forall id, seen = Some id -> id < n) ->
  others seen (l ++ [n]) = (others seen l ++ [n])%list.
Proof.
  intros Hlt. destruct seen as [s |]; cbn; [| reflexivity].
  rewrite List.filter_app. cbn.
  specialize (Hlt s eq_refl). destruct (Z.eqb_spec n s); [lia | reflexivity].
Qed.

Lemma cleared_NoDup id (l : list Z) :
  List.NoDup l -> List.NoDup (List.filter (fun i => negb (i =? id)%Z) l).
Proof. apply List.NoDup_filter. Qed.

Lemma cleared_In id p (l : list Z) :
  In p l -> p <> id -> In p (List.filter (fun i => negb (i =? id)%Z) l).
Proof.
  intros Hin Hne. apply List.filter_In. split; [exact Hin |].
  destruct (Z.eqb_spec p id); [contradiction | reflexivity].
Qed.

Lemma cleared_Forall (P : Z -> Prop) id (l : list Z) :
  Forall P l -> Forall P (List.filter (fun i => negb (i =? id)%Z) l).
Proof.
  intros H. apply List.Forall_forall. intros i Hi.
  apply List.filter_In in Hi as [Hi _].
  exact (proj1 (List.Forall_forall P l) H i Hi).
Qed.

(** Clearing a watch that runs once stops one watch. *)
Lemma cleared_length id (l : list Z) :
  List.NoDup l -> In id l ->
  length l = S (length (List.filter (fun i => negb (i =? id)%Z) l)).
Proof.
  induction l as [| i l IH]; intros Hnd Hin; [destruct Hin |].
  apply List.NoDup_cons_iff in Hnd as [Hni Hnd]. cbn.
  destruct (Z.eqb_spec i id) as [-> | Hne]; cbn.
  - f_equal. f_equal. symmetry. apply List.forallb_filter_id.
    apply List.forallb_forall. intros j Hj.
    destruct (Z.eqb_spec j id) as [-> | _]; [| reflexivity].
    exfalso. apply Hni. exact Hj.
  - f_equal. apply IH; [exact Hnd |]. destruct Hin as [-> | Hin]; [contradiction | exact Hin].
Qed.

Lemma others_length seen (l : list Z) :
  List.NoDup l -> (forall id, seen = Some id -> In id l) ->
  length l = (length (others seen l) + length (option_list seen))%nat.
Proof.
  intros Hnd Hin. destruct seen as [s |]; cbn; [| lia].
  rewrite (cleared_length s l Hnd (Hin s eq_refl)). lia.
Qed.

(** *** One event, one batch *)

Lemma occurs_counts seen e h :
  numbered seen h ->
  exists h', occurs options seen e h = Returned h' /\ numbered seen h' /\
    length (others seen (watches h')) =
      (length (others seen (watches h)) + (if starts e then 1 else 0))%nat /\
    (writes (holds seen) e = false -> watchId h' = watchId h) /\
    (writes (holds seen) e = true ->
     watchId h' <> seen /\ holds (watchId h') = starts e).
Proof.
  unfold numbered, occurs, watches, next_handle.
  destruct (browser (calls h)) as [n W] eqn:Hb. cbn [fst snd].
  intros (Hnd & Hlt & Hseen & Hcell).
  destruct e as [[| | | |] | position | code]; cbn [GeolocationClosures.perform perform starts writes].
  - eexists. split; [reflexivity |]. on_hook. rewrite Hb. cbn.
    repeat split; auto; try discriminate.
  - eexists. split; [reflexivity |]. on_hook. rewrite Hb. cbn [browser_step fst snd].
    assert (~ In n W) as Hfresh.
    { intros Hin. pose proof (proj1 (List.Forall_forall _ _) Hlt n Hin) as Hn.
      cbn beta in Hn. lia. }
    split; [| split; [| split]].
    + split; [| split; [| split]].
      * apply List.NoDup_app; repeat split; auto.
        -- constructor; [intros [] | constructor].
        -- intros i Hi [<- | []]. exact (Hfresh Hi).
      * apply Forall_app. split.
        -- eapply Forall_impl; [exact Hlt |]. cbn. intros; lia.
        -- constructor; [lia | constructor].
      * intros id Hid. specialize (Hseen id Hid). lia.
      * intros id [= <-]. apply in_or_app. right. left. reflexivity.
    + rewrite (others_fresh seen W n Hseen), length_app. reflexivity.
    + discriminate.
    + intros _. split; [| reflexivity].
      intros <-. specialize (Hseen n eq_refl). lia.
  - unfold GeolocationClosures.stopWatching. destruct seen as [s |]; cbn.
    + eexists. split; [reflexivity |]. on_hook. rewrite Hb. cbn [browser_step fst snd].
      split; [| split; [| split]].
      * split; [apply cleared_NoDup, Hnd |].
        split; [apply cleared_Forall, Hlt |]. split; [exact Hseen | discriminate].
      * pose proof (others_twice (Some s) W) as Ht. cbn [others] in Ht |- *.
        rewrite Ht. lia.
      * discriminate.
      * intros _. split; [discriminate | reflexivity].
    + eexists. split; [reflexivity |]. rewrite Hb. cbn.
      repeat split; auto; try discriminate.
  - eexists. split; [reflexivity |]. on_hook. rewrite Hb. cbn.
    repeat split; auto; try discriminate.
  - unfold GeolocationClosures.reset. destruct seen as [s |]; cbn.
    + eexists. split; [reflexivity |]. on_hook. rewrite Hb. cbn [browser_step fst snd].
      split; [| split; [| split]].
      * split; [apply cleared_NoDup, Hnd |].
        split; [apply cleared_Forall, Hlt |]. split; [exact Hseen | discriminate].
      * pose proof (others_twice (Some s) W) as Ht. cbn [others] in Ht |- *.
        rewrite Ht. lia.
      * discriminate.
      * intros _. split; [discriminate | reflexivity].
    + eexists. split; [reflexivity |]. on_hook. rewrite Hb. cbn.
      repeat split; auto; try discriminate.
  - eexists. split; [reflexivity |]. on_hook. rewrite Hb. cbn.
    repeat split; auto; try discriminate.
  - eexists. split; [reflexivity |]. on_hook. rewrite Hb. cbn.
    repeat split; auto; try discriminate.
Qed.

Lemma batch_counts seen events : forall h,
  numbered seen h ->
  exists h', batch options seen events h = Returned h' /\ numbered seen h' /\
    length (others seen (watches h')) =
      (length (others seen (watches h)) + started events)%nat /\
    holds (watchId h') = held_after (holds seen) (holds (watchId h)) events /\
    (existsb (writes (holds seen)) events = false -> watchId h' = watchId h) /\
    (existsb (writes (holds seen)) events = true -> watchId h' <> seen).
Proof.
  unfold started, held_after.
  induction events as [| e rest IH]; intros h Hn;
    cbn [batch foldl existsb List.filter].
  - exists h. repeat split; try apply Hn; auto; try discriminate.
  - destruct (occurs_counts seen e h Hn) as (h1 & -> & Hn1 & Hlen1 & Hq1 & Hw1).
    destruct (IH h1 Hn1) as (h2 & Hrun & Hn2 & Hlen2 & Hheld & Hq2 & Hw2).
    exists h2. split; [exact Hrun |]. split; [exact Hn2 |].
    split; [| split; [| split]].
    + rewrite Hlen2, Hlen1. destruct (starts e); cbn [length]; lia.
    + rewrite Hheld. f_equal.
      destruct (writes (holds seen) e) eqn:Hw.
      * destruct (Hw1 eq_refl) as [_ ->]. destruct (starts e); reflexivity.
      * rewrite (Hq1 eq_refl).
        assert (starts e = false) as ->
          by (destruct e as [[| | | |] | |]; cbn in *; congruence).
        reflexivity.
    + intros H. apply orb_false_elim in H as [He Hrest].
      rewrite (Hq2 Hrest). apply Hq1, He.
    + intros H. destruct (existsb (writes (holds seen)) rest) eqn:Hrest.
      * apply Hw2. reflexivity.
      * rewrite (Hq2 eq_refl). rewrite orb_false_r in H. apply Hw1, H.
Qed.


(** *** Renders *)

Lemma rerender_same geolocation previous h :
  watchId h = previous -> rerender geolocation previous h = Returned h.
Proof. intros H. unfold rerender. rewrite decide_True by exact H. reflexivity. Qed.

Lemma rerender_changed handle previous h :
  watchId h <> previous ->
  rerender (Some handle) previous h =
  Returned match previous with
           | Some id => invoke (CallClearWatch id) h
           | None => h
           end.
Proof.
  intros H. unfold rerender. rewrite decide_False by exact H.
  destruct previous; reflexivity.
Qed.

Lemma option_list_holds (cell : option Z) :
  length (option_list cell) = if holds cell then 1%nat else 0%nat.
Proof. destruct cell; reflexivity. Qed.

(** What a rendered hook has lost is what runs beside its watch. *)
Lemma rendered_others k h :
  rendered_with k h -> length (others (watchId h) (watches h)) = k.
Proof.
  intros [(Hnd & _ & _ & Hcell) Hlen].
  rewrite (others_length (watchId h) (watches h) Hnd Hcell) in Hlen. lia.
Qed.

(** A batch and its render: the hook has lost the watches the batch lost,
    and holds a watch when the last event of the batch to give [watchId]
    a value was a [startWatching]. *)
Lemma batch_rendered events h k :
  rendered_with k h ->
  exists h',
    (h1 ← batch options (watchId h) events h;
     rerender (Some (next_handle h1)) (watchId h) h1) = Returned h' /\
    rendered_with (k + lost (holds (watchId h)) events) h' /\
    holds (watchId h') = held_after (holds (watchId h)) (holds (watchId h)) events.
Proof.
  intros Hr. pose proof (rendered_others k h Hr) as Hk. destruct Hr as [Hn Hlen].
  destruct (batch_counts (watchId h) events h Hn)
    as (h1 & -> & (Hnd1 & Hlt1 & Hseen1 & Hcell1) & Hlen1 & Hheld & Hq & Hw).
  cbn. rewrite Hk in Hlen1.
  pose proof (started_lost_held (holds (watchId h)) events (holds (watchId h))) as Hsum.
  destruct (existsb (writes (holds (watchId h))) events) eqn:Hex.
  - specialize (Hw eq_refl). rewrite rerender_changed by exact Hw.
    eexists. split; [reflexivity |].
    assert (watches match watchId h with
                    | Some id => invoke (CallClearWatch id) h1
                    | None => h1
                    end = others (watchId h) (watches h1) /\
            next_handle match watchId h with
                        | Some id => invoke (CallClearWatch id) h1
                        | None => h1
                        end = next_handle h1 /\
            watchId match watchId h with
                    | Some id => invoke (CallClearWatch id) h1
                    | None => h1
                    end = watchId h1) as (HW & HN & HI).
    { unfold watches, next_handle. destruct (watchId h) as [s |]; [| auto].
      on_hook. destruct (browser (calls h1)); auto. }
    unfold rendered_with, numbered. rewrite HW, HN, HI.
    split; [split; [split; [| split; [| split]] |] |].
    + destruct (watchId h); [apply cleared_NoDup |]; exact Hnd1.
    + destruct (watchId h); [apply cleared_Forall |]; exact Hlt1.
    + intros id Hid. apply (proj1 (List.Forall_forall _ _) Hlt1 id (Hcell1 id Hid)).
    + intros id Hid. destruct (watchId h) as [s |]; [| auto].
      apply cleared_In; [auto |]. intros ->. apply Hw. exact Hid.
    + rewrite Hlen1, option_list_holds, Hheld. lia.
    + exact Hheld.
  - specialize (Hq eq_refl). rewrite rerender_same by exact Hq.
    eexists. split; [reflexivity |].
    destruct (quiet_batch _ _ Hex) as (Hs & Hl & Hc).
    unfold rendered_with, numbered. rewrite Hq, Hl.
    split; [split; [split; [| split; [| split]] |] |]; auto.
    + intros id Hid. rewrite <- Hq in Hid. auto.
    + rewrite (others_length (watchId h) (watches h1) Hnd1)
        by (intros id Hid; rewrite <- Hq in Hid; auto).
      rewrite Hlen1, Hs. lia.
Qed.

Lemma life_rendered schedule : forall h k,
  rendered_with k h ->
  exists h', life options schedule h = Returned h' /\
    rendered_with (k + leaked (holds (watchId h)) schedule) h'.
Proof.
  induction schedule as [| events rest IH]; intros h k Hr; cbn [life leaked].
  - exists h. split; [reflexivity |]. rewrite Nat.add_0_r. exact Hr.
  - destruct (batch_rendered events h k Hr) as (h1 & Hrun & Hr1 & Hheld).
    destruct (batch options (watchId h) events h) as [h0 |]; [| discriminate].
    unfold mbind, outcome_bind in Hrun |- *. cbv beta iota in Hrun |- *.
    rewrite Hrun.
    destruct (IH h1 _ Hr1) as (h2 & -> & Hr2).
    exists h2. split; [reflexivity |]. rewrite Hheld in Hr2.
    rewrite Nat.add_assoc. exact Hr2.
Qed.

Lemma initial_rendered : rendered_with 0 initial.
Proof.
  repeat split; cbn; try constructor; discriminate.
Qed.

(** Mounting is the first event of the first batch. *)
Lemma page_is_a_life first rest :
  page options first rest = life options ((mounting options :: first) :: rest) initial.
Proof.
  unfold page, mounting, mount. cbn [life batch occurs].
  destruct (watch (opts options)) as [[|] |]; reflexivity.
Qed.

(** Leaving, the hook clears the watch its last render saw: what it has
    lost keeps running, and so does what the last batch started. *)
Lemma leave_rendered last h k :
  rendered_with k h ->
  exists h', leave options last h = Returned h' /\
    length (watches h') = (k + started last)%nat.
Proof.
  intros Hr. pose proof (rendered_others k h Hr) as Hk. destruct Hr as [Hn Hlen].
  destruct (batch_counts (watchId h) last h Hn) as (h1 & Hrun & _ & Hlen1 & _).
  unfold leave. rewrite Hrun. cbn. rewrite Hk in Hlen1. unfold watches in *.
  destruct (watchId h) as [s |]; cbn.
  - eexists. split; [reflexivity |]. on_hook.
    destruct (browser (calls h1)). exact Hlen1.
  - eexists. split; [reflexivity |]. exact Hlen1.
Qed.

(** The closures of a render that saw the present [watchId] are the
    operations of the hook as they read the cell. *)
Lemma closure_of_this_render geolocation a h :
  GeolocationClosures.perform geolocation options (watchId h) a h = perform geolocation options a h.
Proof. destruct a; reflexivity. Qed.

(** A schedule that renders after every event loses no watch. *)
Lemma single_events_lose_nothing schedule : forall watching,
  Forall (fun events : list event => (length events <= 1)%nat) schedule ->
  leaked watching schedule = 0%nat.
Proof.
  induction schedule as [| events rest IH]; intros watching Hall; cbn [leaked];
    [reflexivity |].
  apply Forall_cons_1 in Hall as [Hone Hrest]. rewrite (IH _ Hrest).
  destruct events as [| e [| e' events]]; cbn in Hone |- *; [reflexivity | | lia].
  rewrite andb_false_r. reflexivity.
Qed.

(** A [startWatching] that an event giving [watchId] another value
    follows in its batch is lost. *)
Lemma overwritten_start_is_lost watching before after :
  existsb (writes watching) after = true ->
  (1 <= lost watching (before ++ Does StartWatching :: after))%nat.
Proof.
  intros Hex. induction before as [| e before IH]; cbn [app lost starts andb].
  - rewrite Hex. lia.
  - lia.
Qed.

(** X16: a watch is cleared only through a render that has seen it.
    [startWatching] does not clear the watch it replaces, and
    [stopWatching], [reset] and the cleanups of the effects clear the
    [watchId] of the render that made them.  So, in a browser that numbers
    its watches, for every schedule of batches of operations and callbacks,
    each batch followed by its render, nothing throws and the browser runs
    the watch in [watchId] and, beside it, as many watches as were lost: a
    batch loses each [startWatching] that is followed, before the render,
    by another [startWatching], or by a [stopWatching] or [reset] made by
    a render that saw a watch.  After a last batch and the unmount, as many
    watches still run as were lost or were started by the last batch.
    None is lost when a render follows every event, and one is whenever a
    [startWatching] of the first batch, the mount effect's included, is
    overwritten before the render. *)
Theorem watches_left_running first rest last :
  let schedule := (mounting options :: first) :: rest in
  exists h, page options first rest = Returned h /\
    length (watches h) =
      (leaked false schedule + length (option_list (watchId h)))%nat /\
    (forall id, watchId h = Some id -> In id (watches h)) /\
    (exists h', leave options last h = Returned h' /\
       length (watches h') = (leaked false schedule + started last)%nat /\
       (watches h' = [] <-> leaked false schedule = 0%nat /\ started last = 0%nat)) /\
    (first = [] -> Forall (fun events : list event => (length events <= 1)%nat) rest ->
     leaked false schedule = 0%nat) /\
    (forall before after,
       mounting options :: first = (before ++ Does StartWatching :: after)%list ->
       existsb (writes false) after = true ->
       (1 <= leaked false schedule)%nat).
Proof.
  cbv zeta. rewrite page_is_a_life.
  destruct (life_rendered ((mounting options :: first) :: rest) initial 0 initial_rendered)
    as (h & -> & Hr).
  change (holds (watchId initial)) with false in Hr. cbn [Nat.add] in Hr.
  exists h. split; [reflexivity |].
  split; [apply Hr |]. split; [apply Hr |]. split; [| split].
  - destruct (leave_rendered last h _ Hr) as (h' & -> & Hlen).
    cbn [Nat.add] in Hlen.
    exists h'. split; [reflexivity |]. split; [exact Hlen |].
    destruct (watches h'); cbn [length] in Hlen; split.
    + intros _. lia.
    + reflexivity.
    + discriminate.
    + intros [? ?]. lia.
  - intros -> Hall. apply single_events_lose_nothing. constructor; [cbn; lia | exact Hall].
  - intros before after Heq Hex. cbn [leaked]. rewrite Heq.
    pose proof (overwritten_start_is_lost false before after Hex). lia.
Qed.

End Lifecycle.

(** A page that watches from its mount and calls [startWatching] once more
    before the second render: the watch of the mount effect keeps running
    after the unmount. *)
Lemma a_second_start_leaks :
  let options := {| enableHighAccuracy := None; timeout := None; maximumAge := None;
                    watch := Some true |} in
  exists h h',
    page (engine := Fixtures.small_engine) options [Does StartWatching] [] = Returned h /\
    watchId h = Some 2 /\ watches h = [1; 2] /\
    leave (engine := Fixtures.small_engine) options [] h = Returned h' /\
    watches h' = [1].
Proof. cbv zeta. do 2 eexists. repeat split. Qed.

End GeolocationPageFacts.

(** ** The outcomes of the Google Maps loader *)

Module LoaderFacts.
Import Js ErrorMessages GoogleMaps GoogleMapsSpec GoogleMapsFacts LoaderSpec.

Lemma settle_sound p st w :
  sound w -> justified w p st -> sound (settle p st w).
Proof.
  intros Hs Hst q st'. unfold settle.
  destruct (promises w !! p) as [[| |] |] eqn:Hp; try apply Hs.
  cbn [promises]. intros Hq.
  destruct (decide (q = p)) as [-> | Hne].
  - rewrite list_lookup_insert_eq in Hq by (apply lookup_lt_is_Some; eauto).
    injection Hq as <-. destruct st; exact Hst.
  - rewrite list_lookup_insert_ne in Hq by congruence.
    specialize (Hs q st' Hq). destruct st'; exact Hs.
Qed.

Lemma step_sound w e : singleton w -> sound w -> sound (step w e).
Proof.
  intros Hone Hs. destruct e as [proc | i defined | i |]; cbn [step].
  - unfold loadGoogleMaps. destruct (googleMapsPromise w) as [p |] eqn:Hp; [exact Hs |].
    unfold singleton in Hone. rewrite Hp in Hone. destruct Hone as [Hps Hss].
    rewrite Hps, Hss. cbn [length app].
    destruct (executor proc w 0) as [st appended] eqn:Hex. cbn [snd].
    intros q st' Hq. cbn [promises] in Hq.
    destruct q as [| q]; [| discriminate]. injection Hq as <-.
    unfold executor in Hex.
    destruct (has_window proc && google_maps_present w) eqn:Hpresent.
    { injection Hex as <- <-. apply andb_prop in Hpresent as [_ Hg]. exact Hg. }
    destruct (negb (has_window proc)).
    { injection Hex as <- <-. cbn. auto. }
    destruct (apiKey proc) as [[| c k] |]; injection Hex as <- <-; cbn; eauto.
  - unfold onload. destruct (scripts w !! i) as [sc |]; [| exact Hs].
    set (w' := {| googleMapsPromise := googleMapsPromise w; promises := promises w;
                  scripts := scripts w;
                  google_maps_present := google_maps_present w || defined |}).
    assert (sound w') as Hs'.
    { intros q st' Hq. specialize (Hs q st' Hq). destruct st'; cbn in *; [exact Hs | | exact Hs].
      rewrite Hs. reflexivity. }
    destruct (google_maps_present w') eqn:Hg; apply settle_sound; try exact Hs'.
    + exact Hg.
    + cbn. auto.
  - unfold onerror. destruct (scripts w !! i) as [sc |]; [| exact Hs].
    apply settle_sound; [exact Hs | cbn; auto].
  - intros q st' Hq. specialize (Hs q st' Hq). destruct st'; cbn in *; auto.
Qed.

Lemma run_sound events : sound (run events).
Proof.
  induction events as [| e events IH] using rev_ind.
  - intros p st Hp. destruct p; discriminate.
  - rewrite run_snoc. apply step_sound; [apply run_singleton | exact IH].
Qed.

(** X26: whatever happened in the process, a promise of the loader that
    is resolved means that the SDK is on the page; one that is rejected
    carries one of three messages (no API key, load failed, no document);
    and one that is pending has its script on the page, the only one,
    whose error event rejects it and whose load event resolves it if the
    SDK is there then and rejects it otherwise. *)
Theorem load_outcomes events p st :
  promises (run events) !! p = Some st ->
  match st with
  | Resolved => google_maps_present (run events) = true
  | Rejected reason =>
      In reason ["Google Maps API key not found"; MAPS_LOAD_FAILED; "document is not defined"]
  | Pending =>
      exists sc,
        scripts (run events) = [sc] /\ settles sc = p /\
        promises (onerror 0 (run events)) !! p = Some (Rejected MAPS_LOAD_FAILED) /\
        forall defined,
          promises (onload 0 defined (run events)) !! p =
          Some (if google_maps_present (run events) || defined then Resolved
                else Rejected MAPS_LOAD_FAILED)
  end.
Proof.
  intros Hp. pose proof (run_sound events p st Hp) as Hj.
  destruct st as [| | reason]; [| exact Hj | exact Hj].
  destruct Hj as (sc & Hsc & Hsettles). exists sc. split; [exact Hsc |]. split; [exact Hsettles |].
  assert (p < length (promises (run events)))%nat as Hlt by (apply lookup_lt_is_Some; eauto).
  split.
  - unfold onerror. rewrite Hsc. cbn. rewrite Hsettles. unfold settle. rewrite Hp. cbn.
    apply list_lookup_insert_eq, Hlt.
  - intros defined. unfold onload. rewrite Hsc. cbn. rewrite Hsettles.
    destruct (google_maps_present (run events) || defined); unfold settle; cbn; rewrite Hp; cbn;
      apply list_lookup_insert_eq, Hlt.
Qed.

(** X26 at work: the first call, with a key, on a page without the SDK. *)
Lemma load_outcomes_witness :
  exists sc,
    scripts (run [Load {| has_window := true; apiKey := Some "k" |}]) = [sc] /\
    settles sc = 0%nat /\
    promises (onerror 0 (run [Load {| has_window := true; apiKey := Some "k" |}])) !! 0%nat =
      Some (Rejected MAPS_LOAD_FAILED) /\
    forall defined,
      promises (onload 0 defined (run [Load {| has_window := true; apiKey := Some "k" |}])) !! 0%nat =
      Some (if google_maps_present (run [Load {| has_window := true; apiKey := Some "k" |}])
               || defined
            then Resolved else Rejected MAPS_LOAD_FAILED).
Proof.
  apply (load_outcomes [Load {| has_window := true; apiKey := Some "k" |}] 0%nat Pending).
  reflexivity.
Defined.

End LoaderFacts.

(** ** The permission hook *)

Module PermissionFacts.
Import Js LocationPermission.

(** X17: [requestPermission] never rejects.  It answers ['unsupported']
    exactly when the browser has no Permissions API; otherwise the state
    the query reports, which becomes the hook's state, or ['denied'] when
    the query fails: then the hook's state stays as it was, so the hook may
    still say ['prompt'] after the call answered ['denied']. *)
Theorem requestPermission_never_rejects permissions st :
  exists answer st',
    requestPermission permissions st = Returned (answer, st') /\
    (answer = unsupported <-> permissions = None) /\
    (forall result, permissions = Some (Returned result) ->
       answer = State result /\ st' = State result) /\
    (forall t, permissions = Some (Threw t) -> answer = State denied /\ st' = st) /\
    (permissions = None -> st' = st).
Proof.
  unfold requestPermission. destruct permissions as [[result | t] |]; cbn.
  - exists (State result), (State result). split; [reflexivity |].
    split; [split; discriminate |]. split; [intros ? [= <-]; auto |].
    split; [discriminate | discriminate].
  - exists (State denied), st. split; [reflexivity |].
    split; [split; discriminate |]. split; [discriminate |].
    split; [intros ? _; auto | discriminate].
  - exists unsupported, st. split; [reflexivity |].
    split; [split; reflexivity |]. split; [discriminate |]. split; [discriminate | auto].
Qed.

(** X18: exactly one of [isGranted], [isDenied], [isPrompt] and the
    negation of [isSupported] holds in every state; after mounting,
    [isSupported] says whether the browser has the Permissions API; and a
    query that fails on mount leaves the state at ['prompt']. *)
Theorem permission_flags st permissions :
  length (List.filter id [isGranted st; isDenied st; isPrompt st; negb (isSupported st)])
    = 1%nat /\
  isSupported (mount permissions initial) =
    match permissions with Some _ => true | None => false end /\
  (forall t, mount (Some (Threw t)) initial = State prompt).
Proof.
  split; [destruct st as [[| |] |]; reflexivity |].
  split; [destruct permissions as [[[| |] | t] |]; reflexivity |].
  reflexivity.
Qed.

End PermissionFacts.

(** ** The Google Maps helpers *)

Module MapsApiFacts.
Import Js ErrorMessages MapsApi.

(** [Array.prototype.find] returns the first element that passes. *)
Lemma find_first {A : Type} (p : A -> bool) (l : list A) :
  match List.find p l with
  | Some x =>
      exists before after,
        l = (before ++ x :: after)%list /\ Forall (fun y => p y = false) before /\ p x = true
  | None => Forall (fun y => p y = false) l
  end.
Proof.
  induction l as [| a l IH]; cbn [List.find]; [constructor |].
  destruct (p a) eqn:Ha.
  - exists [], l. repeat split; [constructor | exact Ha].
  - destruct (List.find p l) as [x |].
    + destruct IH as (before & after & -> & Hbefore & Hx).
      exists (a :: before), after. repeat split; [constructor; assumption | exact Hx].
    + constructor; assumption.
Qed.

Lemma includes_spec (type : string) (l : list string) :
  existsb (String.eqb type) l = true <-> In type l.
Proof.
  rewrite existsb_exists. split.
  - intros (x & Hin & Heq). apply String.eqb_eq in Heq. subst. exact Hin.
  - intros Hin. exists type. split; [exact Hin | apply String.eqb_refl].
Qed.

Lemma not_includes (type : string) (l : list string) :
  existsb (String.eqb type) l = false -> ~ In type l.
Proof.
  intros Hf Hin. apply includes_spec in Hin. congruence.
Qed.

(** X19: [getAddressComponent] reads the first component of the given type
    only.  It returns that component's long name when it is not empty; it
    returns [null] when no component has the type, and also when the first
    one that has it has an empty long name, whatever follows. *)
Theorem getAddressComponent_first_match components type :
  match getAddressComponent components type with
  | Some name =>
      name <> "" /\
      exists before c after,
        components = (before ++ c :: after)%list /\
        Forall (fun c' => ~ In type (types c')) before /\
        In type (types c) /\ long_name c = name
  | None =>
      Forall (fun c => ~ In type (types c)) components \/
      exists before c after,
        components = (before ++ c :: after)%list /\
        Forall (fun c' => ~ In type (types c')) before /\
        In type (types c) /\ long_name c = ""
  end.
Proof.
  unfold getAddressComponent.
  pose proof (find_first (fun c => existsb (String.eqb type) (types c)) components) as Hfind.
  destruct (List.find _ components) as [c |].
  - destruct Hfind as (before & after & Hsplit & Hbefore & Hc).
    assert (Forall (fun c' => ~ In type (types c')) before) as Hnone.
    { eapply Forall_impl; [exact Hbefore |]. intros c'. apply not_includes. }
    apply includes_spec in Hc.
    destruct (long_name c) as [| a name] eqn:Hname.
    + right. exists before, c, after. auto.
    + split; [discriminate |]. exists before, c, after. auto.
  - left. eapply Forall_impl; [exact Hfind |]. intros c'. apply not_includes.
Qed.

Section Helpers.
Context {engine : Engine}.
Variable loaded : outcome unit.
Variable geocode : GeocoderRequest -> option (list GeocoderResult) * string.
Variable getDistanceMatrix : DistanceMatrixRequest -> option DistanceMatrixResponse * string.
Variable route : DirectionsRequest -> option DirectionsResult * string.
Variable defaultCenter : LatLng.

(** The promise around the geocoder resolves with a list that is not
    empty, or rejects. *)
Lemma geocoded_cases request failure :
  match geocode request with
  | (Some (r :: rest), status) =>
      if String.eqb status "OK" then geocoded geocode request failure = Returned (r :: rest)
      else exists t, geocoded geocode request failure = Threw t
  | _ => exists t, geocoded geocode request failure = Threw t
  end.
Proof.
  unfold geocoded. destruct (geocode request) as [[[| r rest] |] status]; eauto.
  destruct (String.eqb status "OK"); eauto.
Qed.

(** X20: [geocodeAddress] never rejects.  It answers a location exactly
    when the SDK loaded and the geocoder reported [OK] with at least one
    result; the location is that of the first result, with its state and
    postcode always set, and [null] stands for every failure. *)
Theorem geocodeAddress_answers address :
  let request := {| request_address := Some address; request_location := None |} in
  exists answer,
    geocodeAddress loaded geocode address = Returned answer /\
    (is_Some answer <->
     (exists u, loaded = Returned u) /\
     snd (geocode request) = "OK" /\
     exists r rest, fst (geocode request) = Some (r :: rest)) /\
    (forall location, answer = Some location ->
     exists r rest,
       fst (geocode request) = Some (r :: rest) /\
       location = located (lat (geometry_location r)) (lng (geometry_location r)) r /\
       is_Some (state location) /\ is_Some (postcode location)).
Proof.
  cbv zeta. unfold geocodeAddress.
  set (request := {| request_address := Some address; request_location := None |}).
  pose proof (geocoded_cases request "Geocoding failed: ") as Hcases.
  destruct loaded as [u | t]; cbn.
  - destruct (geocode request) as [[[| r rest] |] status] eqn:Hg; cbn [fst snd].
    + destruct Hcases as [t ->]. cbn. exists None. split; [reflexivity |].
      split; [| discriminate]. split; [intros [? [=]] | intros (_ & _ & ? & ? & [=])].
    + destruct (String.eqb_spec status "OK") as [-> | Hne].
      * rewrite Hcases. cbn. eexists. split; [reflexivity |].
        split; [split; eauto 10 |].
        intros location [= <-]. exists r, rest. repeat split; eauto.
      * destruct Hcases as [t ->]. cbn. exists None. split; [reflexivity |].
        split; [| discriminate]. split; [intros [? [=]] | intros (_ & ? & _); contradiction].
    + destruct Hcases as [t ->]. cbn. exists None. split; [reflexivity |].
      split; [| discriminate]. split; [intros [? [=]] | intros (_ & _ & ? & ? & [=])].
  - exists None. split; [reflexivity |]. split; [| discriminate].
    split; [intros [? [=]] | intros ([? [=]] & _)].
Qed.

(** X21: [reverseGeocode] never rejects, answers a location exactly when
    the SDK loaded and the geocoder reported [OK] with at least one
    result, and the location carries the coordinates it was called with,
    not those of the result. *)
Theorem reverseGeocode_echoes latitude longitude :
  let request := {| request_address := None;
                    request_location := Some {| lat := latitude; lng := longitude |} |} in
  exists answer,
    reverseGeocode loaded geocode latitude longitude = Returned answer /\
    (is_Some answer <->
     (exists u, loaded = Returned u) /\
     snd (geocode request) = "OK" /\
     exists r rest, fst (geocode request) = Some (r :: rest)) /\
    (forall location, answer = Some location ->
     MapsApi.latitude location = latitude /\ MapsApi.longitude location = longitude /\
     exists r rest,
       fst (geocode request) = Some (r :: rest) /\
       location = located latitude longitude r).
Proof.
  cbv zeta. unfold reverseGeocode.
  set (request := {| request_address := None; request_location := _ |}).
  pose proof (geocoded_cases request "Reverse geocoding failed: ") as Hcases.
  destruct loaded as [u | t]; cbn.
  - destruct (geocode request) as [[[| r rest] |] status] eqn:Hg; cbn [fst snd].
    + destruct Hcases as [t ->]. cbn. exists None. split; [reflexivity |].
      split; [| discriminate]. split; [intros [? [=]] | intros (_ & _ & ? & ? & [=])].
    + destruct (String.eqb_spec status "OK") as [-> | Hne].
      * rewrite Hcases. cbn. eexists. split; [reflexivity |].
        split; [split; eauto 10 |].
        intros location [= <-]. repeat split. eauto.
      * destruct Hcases as [t ->]. cbn. exists None. split; [reflexivity |].
        split; [| discriminate]. split; [intros [? [=]] | intros (_ & ? & _); contradiction].
    + destruct Hcases as [t ->]. cbn. exists None. split; [reflexivity |].
      split; [| discriminate]. split; [intros [? [=]] | intros (_ & _ & ? & ? & [=])].
  - exists None. split; [reflexivity |]. split; [| discriminate].
    split; [intros [? [=]] | intros ([? [=]] & _)].
Qed.

(** X22: the road distance ([calculateDistance] of [lib/google-maps])
    never rejects, and it answers the texts of the first element of the
    first row exactly when the SDK loaded, the service reported [OK] with
    a response, and that element exists and has status [OK]; in every
    other case it answers [null]. *)
Theorem road_distance_answers from to :
  let request := {| origins := [from]; destinations := [to];
                    matrix_travelMode := "DRIVING"; matrix_unitSystem := 1;
                    avoidHighways := false; avoidTolls := false |} in
  exists answer,
    calculateDistance loaded getDistanceMatrix from to = Returned answer /\
    forall travel,
      answer = Some travel <->
      (exists u, loaded = Returned u) /\
      snd (getDistanceMatrix request) = "OK" /\
      exists response row rest el others,
        fst (getDistanceMatrix request) = Some response /\
        rows response = row :: rest /\ elements row = el :: others /\
        element_status el = "OK" /\
        travel = {| travel_distance := text_or_empty (element_distance el);
                    travel_duration := text_or_empty (element_duration el) |}.
Proof.
  cbv zeta. unfold calculateDistance, DRIVING, IMPERIAL.
  set (request := {| origins := [from]; destinations := _ |}).
  destruct loaded as [u | t]; cbn.
  2:{ exists None. split; [reflexivity |]. intros travel.
      split; [discriminate | intros ([? [=]] & _)]. }
  destruct (getDistanceMatrix request) as [[response |] status] eqn:Hm; cbn [fst snd].
  2:{ exists None. split; [reflexivity |]. intros travel.
      split; [discriminate | intros (_ & _ & ? & ? & ? & ? & ? & [=] & _)]. }
  destruct (String.eqb_spec status "OK") as [-> | Hne]; cbn.
  2:{ exists None. split; [reflexivity |]. intros travel.
      split; [discriminate | intros (_ & ? & _); contradiction]. }
  destruct (rows response) as [| row rest] eqn:Hrows; cbn.
  { exists None. split; [reflexivity |]. intros travel.
    split; [discriminate | intros (_ & _ & ? & ? & ? & ? & ? & [= <-] & Hr & _)].
    congruence. }
  destruct (elements row) as [| el others] eqn:Hels; cbn.
  { exists None. split; [reflexivity |]. intros travel.
    split; [discriminate | intros (_ & _ & ? & ? & ? & ? & ? & [= <-] & Hr & He & _)].
    congruence. }
  destruct (String.eqb_spec (element_status el) "OK") as [Hok | Hne]; cbn.
  - eexists. split; [reflexivity |]. intros travel. split.
    + intros [= <-]. split; [eauto |]. split; [reflexivity |].
      exists response, row, rest, el, others. auto.
    + intros (_ & _ & response' & row' & rest' & el' & others' & [= <-] & Hr & He & _ & ->).
      rewrite Hrows in Hr. injection Hr as <- <-.
      rewrite Hels in He. injection He as <- <-. reflexivity.
  - exists None. split; [reflexivity |]. intros travel.
    split; [discriminate |].
    intros (_ & _ & response' & row' & rest' & el' & others' & [= <-] & Hr & He & Hs & _).
    rewrite Hrows in Hr. injection Hr as <- <-.
    rewrite Hels in He. injection He as <- <-. contradiction.
Qed.

(** X23: [getDirections] never rejects.  It asks for a route through the
    given waypoints, in their order and none of them a stopover, with
    waypoint optimisation on; it answers a route exactly when the SDK
    loaded and the service reported [OK] with a first route that has a
    first leg; and the route it answers has one step for each step of that
    leg, in the same order, and the overview polyline of that route. *)
Theorem getDirections_answers from to stops :
  exists request answer,
    origin request = from /\ destination request = to /\
    map waypoint_location (waypoints request) = default [] stops /\
    Forall (fun w => stopover w = false) (waypoints request) /\
    optimizeWaypoints request = true /\
    getDirections loaded route from to stops = Returned answer /\
    (is_Some answer <->
     (exists u, loaded = Returned u) /\
     snd (route request) = "OK" /\
     exists result r rest leg others,
       fst (route request) = Some result /\
       routes result = r :: rest /\ legs r = leg :: others) /\
    (forall nav, answer = Some nav ->
     exists result r rest leg others,
       fst (route request) = Some result /\
       routes result = r :: rest /\ legs r = leg :: others /\
       map instruction (steps nav) = map instructions (leg_steps leg) /\
       length (steps nav) = length (leg_steps leg) /\
       route_polyline nav = overview_polyline r).
Proof.
  unfold getDirections.
  set (request := {| origin := from; destination := to |}).
  assert (origin request = from /\ destination request = to /\
          map waypoint_location (waypoints request) = default [] stops /\
          Forall (fun w => stopover w = false) (waypoints request) /\
          optimizeWaypoints request = true) as (Hfrom & Hto & Hmap & Hstop & Hopt).
  { subst request. cbn [origin destination waypoints optimizeWaypoints].
    repeat split.
    - rewrite map_map. cbn. apply map_id.
    - apply Forall_map. cbn. apply Forall_true. reflexivity. }
  clearbody request. exists request.
  destruct loaded as [u | t]; cbn.
  2:{ exists None. do 5 (split; [assumption |]). split; [reflexivity |].
      split; [| discriminate]. split; [intros [? [=]] | intros ([? [=]] & _)]. }
  destruct (route request) as [[result |] status] eqn:Hr; cbn [fst snd].
  2:{ exists None. do 5 (split; [assumption |]). split; [reflexivity |].
      split; [| discriminate].
      split; [intros [? [=]] | intros (_ & _ & ? & ? & ? & ? & ? & [=] & _)]. }
  destruct (String.eqb_spec status "OK") as [-> | Hne]; cbn.
  2:{ exists None. do 5 (split; [assumption |]). split; [reflexivity |].
      split; [| discriminate].
      split; [intros [? [=]] | intros (_ & ? & _); contradiction]. }
  destruct (routes result) as [| r rest] eqn:Hroutes; cbn.
  { exists None. do 5 (split; [assumption |]). split; [reflexivity |].
    split; [| discriminate].
    split; [intros [? [=]] | intros (_ & _ & ? & ? & ? & ? & ? & [= <-] & Hrs & _)].
    congruence. }
  destruct (legs r) as [| leg others] eqn:Hlegs; cbn.
  { exists None. do 5 (split; [assumption |]). split; [reflexivity |].
    split; [| discriminate].
    split; [intros [? [=]] | intros (_ & _ & ? & ? & ? & ? & ? & [= <-] & Hrs & Hls)].
    rewrite Hroutes in Hrs. injection Hrs as <- <-. congruence. }
  eexists. do 5 (split; [assumption |]). split; [reflexivity |].
  split.
  - split; [| eauto]. intros _. split; [eauto |]. split; [reflexivity |].
    exists result, r, rest, leg, others. auto.
  - intros nav [= <-]. exists result, r, rest, leg, others.
    cbn [steps route_polyline]. rewrite map_map, length_map. cbn [instruction].
    repeat split; auto.
Qed.

(** X24: [initializeMap] rejects with the loader's error when the SDK does
    not load (it has no [catch], unlike the other helpers); otherwise it
    constructs the map with the given zoom, or zoom 12 when the zoom is
    absent, [0] or [NaN], so never with a falsy zoom, and with the given
    centre or the default one, between zoom 8 and zoom 18. *)
Theorem initializeMap_zoom center zoom :
  match loaded with
  | Threw t => initializeMap loaded defaultCenter center zoom = Threw t
  | Returned _ =>
      exists options,
        initializeMap loaded defaultCenter center zoom = Returned options /\
        MapsApi.zoom options =
          match zoom with
          | Some z => if truthy_number z then z else 12%float
          | None => 12%float
          end /\
        truthy_number (MapsApi.zoom options) = true /\
        MapsApi.center options = default defaultCenter center /\
        maxZoom options = 18%float /\ minZoom options = 8%float
  end.
Proof.
  unfold initializeMap. destruct loaded as [u | t]; cbn; [| reflexivity].
  eexists. split; [reflexivity |]. cbn.
  unfold ApiClient.or_number, ApiClient.truthy_opt_number.
  destruct zoom as [z |]; cbn; [| repeat split].
  destruct (truthy_number z) eqn:Hz; cbn; repeat split; auto.
Qed.

End Helpers.

End MapsApiFacts.

(** ** Containment in a radius *)

Module RadiusFacts.
Import Js Distance FloatSpec FloatFacts DistanceSpec DistanceFacts.
Local Open Scope float_scope.

(** The order of binary64 numbers is transitive. *)
Lemma SFleb_trans x y z :
  SFleb x y = true -> SFleb y z = true -> SFleb x z = true.
Proof.
  unfold SFleb.
  destruct x as [sx | sx | | sx mx ex], y as [sy | sy | | sy my ey],
    z as [sz | sz | | sz mz ez]; cbn [SFcompare];
    try discriminate; try reflexivity;
    try (destruct sx, sy, sz; try discriminate; reflexivity).
  destruct sx, sy, sz; try discriminate; try reflexivity;
    destruct (Z.compare_spec ex ey), (Z.compare_spec ey ez), (Z.compare_spec ex ez);
    subst; try lia; try discriminate; try reflexivity;
    rewrite ?Pos.compare_cont_spec; cbn [Pos.switch_Eq];
    destruct (Pos.compare_spec mx my), (Pos.compare_spec my mz), (Pos.compare_spec mx mz);
    subst; try lia; try discriminate; try reflexivity.
Qed.

Lemma leb_trans x y z : (x <=? y) = true -> (y <=? z) = true -> (x <=? z) = true.
Proof. rewrite !FloatAxioms.leb_spec. apply SFleb_trans. Qed.

Lemma leb_nan x : (x <=? nan) = false.
Proof.
  rewrite FloatAxioms.leb_spec. change (Prim2SF nan) with S754_nan.
  unfold SFleb. destruct (Prim2SF x); reflexivity.
Qed.

Section Radius.
Context {engine : Engine} {laws : MathLaws engine}.

(** X25: with a [Math] that obeys [MathLaws], [isWithinRadius] does not
    depend on the order of the two points; what is within a radius is
    within every wider one; a point with a latitude from -90 to 90 and a
    finite longitude is within a radius of itself exactly when the radius
    is at least [0]; and nothing is within a radius of [NaN]. *)
Theorem isWithinRadius_laws :
  (forall lat1 lon1 lat2 lon2 radius,
     isWithinRadius lat1 lon1 lat2 lon2 radius = isWithinRadius lat2 lon2 lat1 lon1 radius) /\
  (forall lat1 lon1 lat2 lon2 radius wider,
     (radius <=? wider) = true ->
     isWithinRadius lat1 lon1 lat2 lon2 radius = true ->
     isWithinRadius lat1 lon1 lat2 lon2 wider = true) /\
  (forall lat lon radius,
     (abs lat <=? 90) = true -> is_finite lon = true ->
     isWithinRadius lat lon lat lon radius = (0 <=? radius)) /\
  (forall lat1 lon1 lat2 lon2, isWithinRadius lat1 lon1 lat2 lon2 nan = false).
Proof.
  unfold isWithinRadius. cbv zeta. split; [| split; [| split]].
  - intros. rewrite (calculateDistance_swap lat1 lon1 lat2 lon2). reflexivity.
  - intros lat1 lon1 lat2 lon2 radius wider Hle Hin. exact (leb_trans _ _ _ Hin Hle).
  - intros lat lon radius Hlat Hlon.
    rewrite calculateDistance_same; [reflexivity | apply degrees_to_radians_finite, Hlat | exact Hlon].
  - intros. apply leb_nan.
Qed.

End Radius.

(** X25 at work, on the small engine. *)
Lemma isWithinRadius_laws_witness :
  isWithinRadius (engine := Fixtures.small_engine) 37.75 (-122.5) 38 (-122.25) 25 =
  isWithinRadius (engine := Fixtures.small_engine) 38 (-122.25) 37.75 (-122.5) 25 /\
  isWithinRadius (engine := Fixtures.small_engine) 37.75 (-122.5) 37.75 (-122.5) 0 = true /\
  isWithinRadius (engine := Fixtures.small_engine) 37.75 (-122.5) 38 (-122.25) nan = false.
Proof.
  destruct (isWithinRadius_laws (engine := Fixtures.small_engine) (laws := small_engine_laws))
    as (Hswap & _ & Hsame & Hnan).
  split; [apply Hswap |]. split; [| apply Hnan].
  rewrite Hsame; reflexivity.
Defined.

End RadiusFacts.
